(** * Binary and text streams of the model viewer, and the records built on them

    A shallow embedding of [common/binarystream.js], [common/tokenstream.js],
    the w3x records [war3map.wct] and [war3map.w3i] and the [Trigger] of
    the trigger file, the mdlx records [Texture] and [Camera], the
    [MdxSdSequence] constructor and its [getKeyframe], and
    [createIndexArray] of the geometry helpers.

    JavaScript values are embedded as follows.
    - Integral numbers are [Z]; a typed-array store wraps them as the array's
      element type does, a read outside a typed array gives [None]
      ([undefined]) and a store outside it is dropped.
    - Strings are sequences of UTF-16 code units: a character [char] is one
      code unit of 16 bits, [charCode] is [charCodeAt] and [fromCharCode] is
      [String.fromCharCode].  A byte stream stores a character code in a
      [Uint8Array], which keeps it modulo 256.
    - An [ArrayBuffer] is an object: buffers live in a store and a stream
      holds a reference to its buffer, so two streams can share one.
    - A thrown exception is the [Throw] result. *)

From Stdlib Require Import ZArith List Ascii Bool Lia.
From Stdlib Require String DecimalString QArith.
From stdpp Require Import base list vector.
Import ListNotations.

Local Open Scope Z_scope.

(** ** Strings *)

(** A code unit, by its low and its high byte. *)
Inductive char : Set := Char (low high : ascii).

Inductive string : Set :=
| EmptyString
| String (c : char) (s : string).

Module JsString.

(** The character of a code below 256. *)
Definition char_of_byte (b : Byte.byte) : char := Char (ascii_of_byte b) zero.

Definition byte_of_char (c : char) : option Byte.byte :=
  let '(Char low high) := c in
  if Ascii.eqb high zero then Some (byte_of_ascii low) else None.

Fixpoint of_bytes (l : list Byte.byte) : string :=
  match l with
  | [] => EmptyString
  | b :: l' => String (char_of_byte b) (of_bytes l')
  end.

Fixpoint to_bytes (s : string) : option (list Byte.byte) :=
  match s with
  | EmptyString => Some []
  | String c s' =>
      match byte_of_char c, to_bytes s' with
      | Some b, Some l => Some (b :: l)
      | _, _ => None
      end
  end.

Definition char_of_bytes (l : list Byte.byte) : option char :=
  match l with
  | [b] => Some (char_of_byte b)
  | _ => None
  end.

Definition bytes_of_char (c : char) : option (list Byte.byte) :=
  match byte_of_char c with
  | Some b => Some [b]
  | None => None
  end.

(** The character of the code [n], for [n] below 65536. *)
Definition char_of_nat (n : nat) : char :=
  Char (ascii_of_nat n) (ascii_of_nat (n / 256)).

(** [a === b] on characters. *)
Definition char_eqb (a b : char) : bool :=
  let '(Char low high) := a in
  let '(Char low' high') := b in
  Ascii.eqb low low' && Ascii.eqb high high'.

(** [a === b] on strings. *)
Fixpoint eqb (a b : string) : bool :=
  match a, b with
  | EmptyString, EmptyString => true
  | String c a', String d b' => char_eqb c d && eqb a' b'
  | _, _ => false
  end.

(** [a + b] *)
Fixpoint append (a b : string) : string :=
  match a with
  | EmptyString => b
  | String c a' => String c (append a' b)
  end.

(** [s.length] *)
Fixpoint length (s : string) : nat :=
  match s with
  | EmptyString => 0
  | String _ s' => S (length s')
  end.

(** [ls.join(sep)] *)
Fixpoint concat (sep : string) (ls : list string) : string :=
  match ls with
  | [] => EmptyString
  | [x] => x
  | x :: xs => append x (append sep (concat sep xs))
  end.

Fixpoint chars (s : string) : list char :=
  match s with
  | EmptyString => []
  | String c s' => c :: chars s'
  end.

(** The strings of the Standard Library have characters of 8 bits. *)
Fixpoint of_ascii_string (s : String.string) : string :=
  match s with
  | String.EmptyString => EmptyString
  | String.String c s' => String (Char c zero) (of_ascii_string s')
  end.

Fixpoint to_ascii_string (s : string) : option String.string :=
  match s with
  | EmptyString => Some String.EmptyString
  | String (Char low high) s' =>
      if Ascii.eqb high zero then String.String low <$> to_ascii_string s'
      else None
  end.

End JsString.

Declare Scope js_scope.
Delimit Scope js_scope with js.
Bind Scope js_scope with string.
String Notation string JsString.of_bytes JsString.to_bytes : js_scope.
Infix "++" := JsString.append : js_scope.

Declare Scope jschar_scope.
Delimit Scope jschar_scope with jschar.
Bind Scope jschar_scope with char.
String Notation char JsString.char_of_bytes JsString.bytes_of_char : jschar_scope.

(** ** Results of computations that may throw *)

Inductive error :=
| RangeError
| TypeError
| Error (msg : string).

Inductive Result (A : Type) :=
| Ok (a : A)
| Throw (e : error).
Arguments Ok {A} a.
Arguments Throw {A} e.

(** ** [./typecast] *)

Module Typecast.

(** Storing [undefined] into a typed array stores 0. *)
Definition arg (o : option Z) : Z := default 0 o.

Definition signed (bits : Z) (u : Z) : Z :=
  if u <? 2 ^ (bits - 1) then u else u - 2 ^ bits.

(** Modelled from the spec: the [uint8ToX] helpers of [./typecast], which
    is not among the sources; the spec has the reads little-endian and of
    fixed width.  Each helper stores its arguments in the first bytes of a
    shared 8-byte buffer and reads the first element of the view of the
    wanted type; arguments beyond the ones it names are ignored. *)
Definition uint8ToUint16 (a b : option Z) : Z :=
  arg a + arg b * 2 ^ 8.

Definition uint8ToUint32 (a b c d : option Z) : Z :=
  arg a + arg b * 2 ^ 8 + arg c * 2 ^ 16 + arg d * 2 ^ 24.

Definition uint8ToInt16 (a b : option Z) : Z :=
  signed 16 (uint8ToUint16 a b).

Definition uint8ToInt32 (a b c d : option Z) : Z :=
  signed 32 (uint8ToUint32 a b c d).

(** Modelled from the spec: the [XToUint8] helpers of [./typecast]; they
    leave the little-endian bytes of the value, wrapped to the width, in
    the staging buffer [uint8], from which the stream copies them.  The
    staging buffer is overwritten by every call before it is read, so it
    is not part of the state. *)
Definition uint32ToUint8 (value : Z) : list Z :=
  let u := value mod 2 ^ 32 in
  [u mod 2 ^ 8; (u / 2 ^ 8) mod 2 ^ 8; (u / 2 ^ 16) mod 2 ^ 8; u / 2 ^ 24].

Definition int32ToUint8 (value : Z) : list Z := uint32ToUint8 value.

Definition uint16ToUint8 (value : Z) : list Z :=
  let u := value mod 2 ^ 16 in [u mod 2 ^ 8; u / 2 ^ 8].

End Typecast.

(** A number that is an integer, or [NaN]: what [parseInt] and the integer
    reads give. *)
Inductive number :=
| Int (z : Z)
| NaN.

(** Storing a number into an integer typed array: the array wraps the
    integer to its width afterwards, and stores 0 for [NaN]. *)
Definition integer_of (n : number) : Z :=
  match n with
  | Int z => z
  | NaN => 0
  end.

(** Numbers that are not integers: the 32-bit conversions of [./typecast]
    and the conversions between numbers and text of the language. *)
Class JsFloat := {
  float : Type;
  (** [float32ToUint8(uint8, value)]: the four bytes left in [uint8]. *)
  float32ToUint8 : float -> Z * Z * Z * Z;
  uint8ToFloat32 : option Z -> option Z -> option Z -> option Z -> float;
  (** [Math.fround]: what a [Float32Array] keeps of a number stored in it. *)
  fround : float -> float;
  (** [parseFloat(x)] of a token, or of [undefined] ([None]). *)
  parseFloat : option string -> float;
  (** The text of a number in a template literal. *)
  toString : float -> string;
  (** [parseInt(x)] of a token, or of [undefined] ([None]). *)
  parseInt : option string -> number;
  (** [x === y] on numbers. *)
  strict_eq : float -> float -> bool
}.

(** ** [BinaryStream] *)

Module BinaryStream.

Abbreviation ArrayBuffer := (list Z).

(** The store of array buffers; a reference is a position in it. *)
Abbreviation heap := (list (list Z)).

Definition alloc (h : heap) (byteLength : nat) : nat * heap :=
  (length h, h ++ [replicate byteLength 0]).

Record t := mk {
  buffer : nat;
  (** [uint8array]: a window on [buffer]. *)
  byteOffset : nat;
  viewLength : nat;
  index : Z;
  byteLength : Z
}.

(** The first argument of the constructor. *)
Inductive source :=
| Buffer (b : nat)
| View (b : nat) (off len : nat).

(** [new Uint8Array(buffer, byteOffset, byteLength)], as the window it is. *)
Definition new_Uint8Array (size : nat) (byteOffset byteLength : option Z)
  : Result (nat * nat) :=
  let off := default 0 byteOffset in
  if (off <? 0) || (Z.of_nat size <? off) then Throw RangeError
  else match byteLength with
       | None => Ok (Z.to_nat off, (size - Z.to_nat off)%nat)
       | Some len =>
           if (len <? 0) || (Z.of_nat size <? off + len) then Throw RangeError
           else Ok (Z.to_nat off, Z.to_nat len)
       end.

Definition new (h : heap) (src : source) (byteOffset byteLength : option Z)
  : Result t :=
  let '(b, byteOffset, byteLength) :=
    match src with
    | View b _ _ =>
        (* buffer = buffer.buffer; the next two read the ArrayBuffer *)
        (b, None, Z.of_nat <$> (length <$> h !! b))
    | Buffer b => (b, byteOffset, byteLength)
    end in
  match h !! b with
  | None => Throw TypeError
  | Some ab =>
      match new_Uint8Array (length ab) byteOffset byteLength with
      | Throw e => Throw e
      | Ok (off, len) =>
          Ok {| buffer := b; byteOffset := off; viewLength := len;
                index := 0; byteLength := Z.of_nat (length ab) |}
      end
  end.

(** [this.uint8array[i]] *)
Definition get (h : heap) (s : t) (i : Z) : option Z :=
  if (0 <=? i) && (i <? Z.of_nat (viewLength s))
  then h !! buffer s ≫= (.!! (byteOffset s + Z.to_nat i)%nat)
  else None.

(** [this.uint8array[i] = v] *)
Definition set (h : heap) (s : t) (i : Z) (v : Z) : heap :=
  if (0 <=? i) && (i <? Z.of_nat (viewLength s))
  then alter (<[(byteOffset s + Z.to_nat i)%nat := v mod 2 ^ 8]>) (buffer s) h
  else h.

Definition with_index (s : t) (i : Z) : t :=
  {| buffer := buffer s; byteOffset := byteOffset s;
     viewLength := viewLength s; index := i; byteLength := byteLength s |}.

Definition substream (h : heap) (s : t) (byteLength : Z) : Result t :=
  new h (Buffer (buffer s)) (Some (index s)) (Some byteLength).

Definition remaining (s : t) : Z := byteLength s - index s.

(** The methods of a stream run on the store and the stream itself. *)
Record world := World { mem : heap; stream : t }.

Definition M (A : Type) : Type := world -> Result (A * world).

Definition ret {A} (a : A) : M A := fun w => Ok (a, w).

Definition bind {A B} (m : M A) (k : A -> M B) : M B :=
  fun w => match m w with
           | Ok (a, w') => k a w'
           | Throw e => Throw e
           end.

Definition throw {A} (e : error) : M A := fun _ => Throw e.

Definition advance (w : world) (bytes : Z) : world :=
  World (mem w) (with_index (stream w) (index (stream w) + bytes)).

Definition skip (bytes : Z) : M unit := fun w => Ok (tt, advance w bytes).

Definition seek (index : Z) : M unit :=
  fun w => Ok (tt, World (mem w) (with_index (stream w) index)).

Definition tell : M Z := fun w => Ok (index (stream w), w).

(** [String.fromCharCode(b)]: the code is taken modulo 65536, and that of
    [undefined] is 0. *)
Definition fromCharCode (b : option Z) : char :=
  let u := Typecast.arg b mod 65536 in
  Char (ascii_of_nat (Z.to_nat (u mod 256))) (ascii_of_nat (Z.to_nat (u / 256))).

(** [c.charCodeAt(0)]: the code of a character, from 0 to 65535. *)
Definition charCode (c : char) : Z :=
  let '(Char low high) := c in
  Z.of_nat (nat_of_ascii low) + 256 * Z.of_nat (nat_of_ascii high).

(** The loop of [peek], from [i] for [n] more rounds. *)
Fixpoint peek_loop (h : heap) (s : t) (allowNulls : bool) (i : Z) (n : nat)
  : string :=
  match n with
  | O => EmptyString
  | S n' =>
      let b := get h s (index s + i) in
      let rest := peek_loop h s allowNulls (i + 1) n' in
      (* Avoid \0 *)
      if allowNulls || (0 <? Typecast.arg b) then String (fromCharCode b) rest
      else rest
  end.

Definition peek (size : Z) (allowNulls : bool) : M string :=
  fun w => Ok (peek_loop (mem w) (stream w) allowNulls 0 (Z.to_nat size), w).

(** [read(size, allowNulls)]; [size] is [None] when the caller leaves it
    out.  [size || this.remaining()] takes the second operand for every
    falsy [size], 0 as well. *)
Definition read (size : option Z) (allowNulls : bool) : M string :=
  fun w =>
    let size :=
      match size with
      | None | Some 0 => remaining (stream w)
      | Some n => n
      end in
    bind (peek size allowNulls) (fun data =>
    bind (skip size) (fun _ => ret data)) w.

(** The loop of [peekUntilNull].  It ends only at a zero byte: outside the
    array every element is [undefined], so after [n] rounds beyond the
    array's end the loop only grows the string, until the engine refuses
    a longer one. *)
Fixpoint peekUntilNull_loop (h : heap) (s : t) (i : Z) (n : nat)
  : option string :=
  match get h s (index s + i) with
  | Some 0 => Some EmptyString
  | b =>
      match n with
      | O => None
      | S n' => String (fromCharCode b) <$> peekUntilNull_loop h s (i + 1) n'
      end
  end.

Definition peekUntilNull : M string :=
  fun w =>
    let s := stream w in
    match peekUntilNull_loop (mem w) s 0
            (Z.to_nat (Z.of_nat (viewLength s) - index s)) with
    | Some data => Ok (data, w)
    | None => Throw RangeError
    end.

Definition readUntilNull : M string :=
  bind peekUntilNull (fun data =>
  (* +1 for the \0 itself *)
  bind (skip (Z.of_nat (JsString.length data) + 1)) (fun _ => ret data)).

Definition at_index (w : world) (i : Z) : option Z :=
  get (mem w) (stream w) (index (stream w) + i).

Definition readInt8 : M Z :=
  fun w =>
    let data := Typecast.signed 8 (Typecast.arg (at_index w 0)) in
    Ok (data, advance w 1).

Definition readInt16 : M Z :=
  fun w =>
    let data := Typecast.uint8ToInt16 (at_index w 0) (at_index w 1) in
    Ok (data, advance w 2).

Definition readInt32 : M Z :=
  fun w =>
    let data := Typecast.uint8ToInt32 (at_index w 0) (at_index w 1)
                  (at_index w 2) (at_index w 3) in
    Ok (data, advance w 4).

Definition readUint8 : M (option Z) :=
  fun w => Ok (at_index w 0, advance w 1).

Definition readUint16 : M Z :=
  fun w =>
    let data := Typecast.uint8ToUint16 (at_index w 0) (at_index w 1) in
    Ok (data, advance w 2).

Definition readUint32 : M Z :=
  fun w =>
    let data := Typecast.uint8ToUint32 (at_index w 0) (at_index w 1)
                  (at_index w 2) (at_index w 3) in
    Ok (data, advance w 4).

Definition readFloat32 `{JsFloat} : M float :=
  fun w =>
    let data := uint8ToFloat32 (at_index w 0) (at_index w 1)
                  (at_index w 2) (at_index w 3) in
    Ok (data, advance w 4).

(** The argument of a [readXArray]: a length, from which the array is
    made, or the array to fill. *)
Inductive view_arg (A : Type) :=
| OfLength (n : nat)
| Existing (view : list A).
Arguments OfLength {A} n.
Arguments Existing {A} view.

Definition view_length {A} (view : view_arg A) : nat :=
  match view with
  | OfLength n => n
  | Existing v => length v
  end.

(** A loop [for (i = 0; i < l; i++) view[i] = element(i)] fills every
    slot of [view], whatever it held. *)
Definition fill {A} (l : nat) (element : Z -> A) : list A :=
  (fun i => element (Z.of_nat i)) <$> seq 0 l.

Definition store_int32 (v : Z) : Z := Typecast.signed 32 (v mod 2 ^ 32).

Definition readInt32Array (view : view_arg Z) : M (list Z) :=
  fun w =>
    let l := view_length view in
    let data :=
      fill l (fun i =>
        let offset := 4 * i in
        store_int32
          (Typecast.uint8ToInt16 (at_index w offset) (at_index w (offset + 1)))) in
    Ok (data, advance w (4 * Z.of_nat l)).

Definition readUint32Array (view : view_arg Z) : M (list Z) :=
  fun w =>
    let l := view_length view in
    let data :=
      fill l (fun i =>
        let offset := 4 * i in
        (Typecast.uint8ToUint32 (at_index w offset) (at_index w (offset + 1))
           (at_index w (offset + 2)) (at_index w (offset + 3))) mod 2 ^ 32) in
    Ok (data, advance w (4 * Z.of_nat l)).

Definition readUint8Array (view : view_arg Z) : M (list Z) :=
  fun w =>
    let l := view_length view in
    let data := fill l (fun i => Typecast.arg (at_index w i) mod 2 ^ 8) in
    Ok (data, advance w (Z.of_nat l)).

Definition readFloat32Array `{JsFloat} (view : view_arg float)
  : M (list float) :=
  fun w =>
    let l := view_length view in
    let data :=
      fill l (fun i =>
        let offset := 4 * i in
        fround (uint8ToFloat32 (at_index w offset) (at_index w (offset + 1))
                  (at_index w (offset + 2)) (at_index w (offset + 3)))) in
    Ok (data, advance w (4 * Z.of_nat l)).

(** [uint8array[at] = b0; uint8array[at + 1] = b1; ...] *)
Fixpoint store (h : heap) (s : t) (at_ : Z) (bytes : list Z) : heap :=
  match bytes with
  | [] => h
  | b :: bytes' => store (set h s at_ b) s (at_ + 1) bytes'
  end.

(** Stores [bytes] at the index and moves the index past them. *)
Definition written (bytes : list Z) (w : world) : world :=
  let s := stream w in
  advance (World (store (mem w) s (index s) bytes) s) (Z.of_nat (length bytes)).

Definition put (bytes : list Z) : M unit := fun w => Ok (tt, written bytes w).

Definition charCodes (value : string) : list Z :=
  charCode <$> JsString.chars value.

Definition write (value : string) : M unit := put (charCodes value).

Definition writeInt32 (value : Z) : M unit := put (Typecast.int32ToUint8 value).
Definition writeUint8 (value : Z) : M unit := put [value].
Definition writeUint16 (value : Z) : M unit := put (Typecast.uint16ToUint8 value).
Definition writeUint32 (value : Z) : M unit := put (Typecast.uint32ToUint8 value).

Definition float32_bytes `{JsFloat} (value : float) : list Z :=
  let '(b0, b1, b2, b3) := float32ToUint8 value in [b0; b1; b2; b3].

Definition writeFloat32 `{JsFloat} (value : float) : M unit :=
  put (float32_bytes value).

(** The array writers store element [i] at [index + i * width] and move
    the index by [view.byteLength] at the end. *)
Definition writeInt32Array (view : list Z) : M unit :=
  put (concat (Typecast.int32ToUint8 <$> view)).

Definition writeUint8Array (view : list Z) : M unit := put view.

Definition writeFloat32Array `{JsFloat} (view : list float) : M unit :=
  put (concat (float32_bytes <$> view)).

(** The stream's array lies within its buffer, as [new] makes it. *)
Definition backed (h : heap) (s : t) : Prop :=
  exists ab, h !! buffer s = Some ab
             /\ (byteOffset s + viewLength s <= length ab)%nat.

(** The bytes from the index on are [bytes]. *)
Definition holds (w : world) (bytes : list Z) : Prop :=
  forall (k : nat) (b : Z), bytes !! k = Some b -> at_index w (Z.of_nat k) = Some b.

(** Room for [n] bytes from the index on. *)
Definition room (w : world) (n : Z) : Prop :=
  backed (mem w) (stream w)
  /\ 0 <= index (stream w)
  /\ index (stream w) + n <= Z.of_nat (viewLength (stream w)).

Definition is_bytes (bytes : list Z) : Prop :=
  Forall (fun b => 0 <= b < 256) bytes.

(** No character of [s] is the null character. *)
Fixpoint free_of_nul (s : string) : bool :=
  match s with
  | EmptyString => true
  | String c s' => negb (JsString.char_eqb c (JsString.char_of_nat 0)) && free_of_nul s'
  end.

(** Every character of [s] has a code below 256: [s] is a string that a
    stream can have read. *)
Fixpoint byte_string (s : string) : bool :=
  match s with
  | EmptyString => true
  | String c s' => (charCode c <? 256) && byte_string s'
  end.

(** [s] with every character code taken modulo 256. *)
Fixpoint narrow (s : string) : string :=
  match s with
  | EmptyString => EmptyString
  | String c s' => String (fromCharCode (Some (charCode c mod 256))) (narrow s')
  end.

(** The characters that [peek] makes of [bytes] without [allowNulls]. *)
Fixpoint text_of (bytes : list Z) : string :=
  match bytes with
  | [] => EmptyString
  | b :: bytes' =>
      if 0 <? b then String (fromCharCode (Some b)) (text_of bytes')
      else text_of bytes'
  end.

(** [peekCharArray(size)]: an array with one string of one character for
    every byte. *)
Definition peekCharArray (size : Z) : M (list string) :=
  fun w =>
    Ok (fill (Z.to_nat size)
          (fun i => String (fromCharCode (at_index w i)) EmptyString), w).

Definition readCharArray (size : Z) : M (list string) :=
  bind (peekCharArray size) (fun data =>
  bind (skip size) (fun _ => ret data)).

(** A number that the 32-bit conversions of [./typecast] give back: the
    four bytes that [float32ToUint8] leaves for it are bytes from which
    [uint8ToFloat32] makes the number again, and a [Float32Array] keeps
    it as it is. *)
Definition float32_value `{JsFloat} (x : float) : Prop :=
  is_bytes (float32_bytes x)
  /\ (let '(b0, b1, b2, b3) := float32ToUint8 x in
      uint8ToFloat32 (Some b0) (Some b1) (Some b2) (Some b3) = x)
  /\ fround x = x.

End BinaryStream.

(** ** [TokenStream] *)

Module TokenStream.

Local Open Scope js_scope.

Record t := mk {
  buffer : string;
  index : nat;
  (** Used for writing blocks nicely. *)
  ident : Z
}.

Definition new (buffer : option string) : t :=
  {| buffer := default EmptyString buffer; index := 0; ident := 0 |}.

Definition with_index (s : t) (i : nat) : t :=
  {| buffer := buffer s; index := i; ident := ident s |}.

Fixpoint drop (n : nat) (s : string) : string :=
  match n, s with
  | O, _ => s
  | S n', String _ s' => drop n' s'
  | S _, EmptyString => EmptyString
  end.

Definition quote : char := JsString.char_of_nat 34.
Definition newline : char := JsString.char_of_nat 10.
Definition tab : char := JsString.char_of_nat 9.
Definition carriage_return : char := JsString.char_of_nat 13.

Definition eqc (a b : char) : bool := JsString.char_eqb a b.

(** [c === ' ' || c === ',' || c === '\t' || c === '\n' || c === ':' || c === '\r'] *)
Definition is_separator (c : char) : bool :=
  eqc c " "%jschar || eqc c ","%jschar || eqc c tab || eqc c newline
  || eqc c ":"%jschar || eqc c carriage_return.

Definition is_brace (c : char) : bool :=
  eqc c "{"%jschar || eqc c "}"%jschar.

Definition nonempty (token : string) : bool :=
  match token with
  | EmptyString => false
  | String _ _ => true
  end.

(** [buffer[this.index]] when the rest of the buffer from that index is
    [rest]. *)
Definition next_is (rest : string) (c : char) : bool :=
  match rest with
  | String d _ => eqc d c
  | EmptyString => false
  end.

(** The loop of [read].  [rest] is the buffer from [index] on; one round
    takes its first character and increments the index.  When the buffer
    ends the loop is left and the function returns nothing. *)
Fixpoint read_loop (rest : string) (index : nat)
  (inComment inString : bool) (token : string) : option string * nat :=
  match rest with
  | EmptyString => (None, index)
  | String c rest' =>
      let index := S index in
      if inComment then
        if eqc c newline then read_loop rest' index false inString token
        else read_loop rest' index inComment inString token
      else if inString then
        if eqc c quote then (Some token, index)
        else read_loop rest' index inComment inString (token ++ String c EmptyString)
      else if is_separator c then
        if nonempty token then (Some token, index)
        else read_loop rest' index inComment inString token
      else if is_brace c then
        if nonempty token then (Some token, Nat.pred index)
        else (Some (String c EmptyString), index)
      else if eqc c "/"%jschar && next_is rest' "/"%jschar then
        if nonempty token then (Some token, Nat.pred index)
        else read_loop rest' index true inString token
      else if eqc c quote then
        if nonempty token then (Some token, Nat.pred index)
        else read_loop rest' index inComment true token
      else read_loop rest' index inComment inString (token ++ String c EmptyString)
  end.

(** [read()]: the token, or [None] ([undefined]), and the stream after. *)
Definition read (s : t) : option string * t :=
  let '(token, i) :=
    read_loop (drop (index s) (buffer s)) (index s) false false EmptyString in
  (token, with_index s i).

Definition peek (s : t) : option string :=
  fst (read s).

Definition readInt `{JsFloat} (s : t) : number * t :=
  let '(token, s) := read s in (parseInt token, s).

Definition readFloat `{JsFloat} (s : t) : float * t :=
  let '(token, s) := read s in (parseFloat token, s).

(** [for (i = 0; i < l; i++) view[i] = this.readFloat()] from slot [i]
    on, for [n] more rounds. *)
Fixpoint readFloat_loop `{JsFloat} (view : list float) (i n : nat) (s : t)
  : list float * t :=
  match n with
  | O => (view, s)
  | S n' =>
      let '(x, s) := readFloat s in
      readFloat_loop (<[i := fround x]> view) (S i) n' s
  end.

Definition readFloatArray `{JsFloat} (view : list float) (s : t)
  : list float * t :=
  let '(_, s) := read s in (* { *)
  let '(view, s) := readFloat_loop view 0 (length view) s in
  let '(_, s) := read s in (* } *)
  (view, s).

(** The colour is swizzled to BGR. *)
Definition readColor `{JsFloat} (view : list float) (s : t)
  : list float * t :=
  let '(_, s) := read s in (* { *)
  let '(x, s) := readFloat s in
  let view := <[2%nat := fround x]> view in
  let '(x, s) := readFloat s in
  let view := <[1%nat := fround x]> view in
  let '(x, s) := readFloat s in
  let view := <[0%nat := fround x]> view in
  let '(_, s) := read s in (* } *)
  (view, s).

(** [token === key] *)
Definition token_is (token : option string) (key : string) : bool :=
  match token with
  | Some t => JsString.eqb t key
  | None => false
  end.

(** A token in a template literal. *)
Definition text (token : option string) : string :=
  default "undefined" token.

(** [for (let token of stream.readBlock()) body]: the generator reads the
    opening brace, then a token before every round, and ends at ["}"].
    A round runs [body] on the token, the loop's state and the stream;
    the stream position is the only state of the iteration.  The loop has
    no bound of its own: [fuel] bounds the number of rounds, and [None]
    says that it did not suffice. *)
Section Block.
Context {A : Type}.
Variable body : option string -> A -> t -> option (Result (A * t)).

Fixpoint block_loop (fuel : nat) (a : A) (s : t) : option (Result (A * t)) :=
  match fuel with
  | O => None
  | S fuel' =>
      let '(token, s) := read s in
      if token_is token "}" then Some (Ok (a, s))
      else match body token a s with
           | Some (Ok (a, s)) => block_loop fuel' a s
           | r => r
           end
  end.

Definition for_readBlock (fuel : nat) (a : A) (s : t)
  : option (Result (A * t)) :=
  let '(_, s) := read s in (* { *)
  block_loop fuel a s.
(** [rounds n a s a' s']: [n] rounds of the loop, started with state [a]
and the stream at [s], all end normally and leave the state [a'] and
the stream at [s'], where the next token is read. *)
Inductive rounds : nat -> A -> t -> A -> t -> Prop :=
| rounds_O a s : rounds 0 a s a s
| rounds_S n a s token s1 a1 s2 a' s' :
    read s = (token, s1) ->
    token_is token "}" = false ->
    body token a s1 = Some (Ok (a1, s2)) ->
    rounds n a1 s2 a' s' ->
    rounds (S n) a s a' s'.

End Block.

(** A token that does not end the block and is none of [keys]. *)
Definition unknown_key (keys : list string) (token : option string) : Prop :=
  token_is token "}" = false
  /\ forall key, In key keys -> token_is token key = false.

(** *** Writing *)

Fixpoint repeat_tab (n : nat) : string :=
  match n with
  | O => EmptyString
  | S n' => String tab (repeat_tab n')
  end.

(** ['\t'.repeat(n)] throws for a negative count. *)
Definition writeLine (line : string) (s : t) : Result t :=
  if (ident s <? 0)%Z then Throw RangeError
  else Ok {| buffer := buffer s ++ repeat_tab (Z.to_nat (ident s)) ++ line
                         ++ String newline EmptyString;
             index := index s; ident := ident s |}.

(** An element of a typed array in a template literal. *)
Definition element_text `{JsFloat} (view : list float) (i : nat) : string :=
  match view !! i with
  | Some x => toString x
  | None => "undefined"
  end.

(** The colour is swizzled to RGB. *)
Definition writeColor `{JsFloat} (name : string) (view : list float) (s : t)
  : Result t :=
  writeLine (name ++ " { " ++ element_text view 2 ++ ", " ++ element_text view 1
             ++ ", " ++ element_text view 0 ++ " },") s.

(** A character that a token can hold outside of quotes, and a text made
    of such characters only: what [read] returns whole when a separator
    follows it. *)
Definition plain_char (c : char) : bool :=
  negb (is_separator c || is_brace c || eqc c "/"%jschar || eqc c quote).

Fixpoint all_plain (token : string) : bool :=
  match token with
  | EmptyString => true
  | String c token' => plain_char c && all_plain token'
  end.

Definition is_plain (token : string) : bool :=
  nonempty token && all_plain token.

(** The index that reading the name of an attribute leaves, when the
    attribute is the last line written to [s] and [s] was the stream
    before that line: the name and the space after it are consumed. *)
Definition after_name (s : t) (name : string) : nat :=
  JsString.length (buffer s) + Z.to_nat (ident s) + JsString.length name + 1.


Definition with_ident (s : t) (i : Z) : t :=
  {| buffer := buffer s; index := index s; ident := i |}.

(** [this.buffer += s] *)
Definition write (text : string) (s : t) : t :=
  {| buffer := buffer s ++ text; index := index s; ident := ident s |}.

Definition writeFlag (flag : string) (s : t) : Result t :=
  writeLine (flag ++ ",") s.

(** [value] is the text that the value has in the template literal. *)
Definition writeAttrib (name value : string) (s : t) : Result t :=
  writeLine (name ++ " " ++ value ++ ",") s.

Definition writeStringAttrib (name : string) (value : option string) (s : t)
  : Result t :=
  writeLine (name ++ " " ++ String quote (text value ++ String quote ",")) s.

(** [l.join(separator)] *)
Fixpoint join (separator : string) (l : list string) : string :=
  match l with
  | [] => EmptyString
  | [x] => x
  | x :: l' => x ++ separator ++ join separator l'
  end.

Definition writeArrayAttrib `{JsFloat} (name : string) (value : list float)
  (s : t) : Result t :=
  writeLine (name ++ " { " ++ join ", " (toString <$> value) ++ " },") s.

Definition writeArray `{JsFloat} (value : list float) (s : t) : Result t :=
  writeLine ("{ " ++ join ", " (toString <$> value) ++ " },") s.

Definition startBlock (headers : list string) (s : t) : Result t :=
  match writeLine (match headers with
                   | [] => "{"
                   | _ => join " " headers ++ " {"
                   end) s with
  | Ok s => Ok (with_ident s (ident s + 1))
  | Throw e => Throw e
  end.

Definition startObjectBlock (header name : string) (s : t) : Result t :=
  match writeLine (header ++ " " ++ String quote (name ++ String quote " {")) s with
  | Ok s => Ok (with_ident s (ident s + 1))
  | Throw e => Throw e
  end.

Definition endBlock (s : t) : Result t :=
  writeLine "}" (with_ident s (ident s - 1)).

Definition indent (s : t) : t := with_ident s (ident s + 1).

Definition unindent (s : t) : t := with_ident s (ident s - 1).

(** The text that [s] has yet to read. *)
Definition rest (s : t) : string := drop (index s) (buffer s).

Fixpoint all_separators (text : string) : bool :=
  match text with
  | EmptyString => true
  | String c text' => is_separator c && all_separators text'
  end.

Fixpoint free_of (c : char) (text : string) : bool :=
  match text with
  | EmptyString => true
  | String d text' => negb (eqc d c) && free_of c text'
  end.

(** A character that [read] adds to a token outside of quotes, when no
    comment starts at it. *)
Definition token_char (c : char) : bool :=
  negb (is_separator c || is_brace c || eqc c quote).

Fixpoint all_token_chars (token : string) : bool :=
  match token with
  | EmptyString => true
  | String c token' => token_char c && all_token_chars token'
  end.

End TokenStream.

(** ** Records of the binary formats

    A record class has a loader from a stream, a writer to a stream and a
    byte length.  The sub-records of the two map files are not among the
    sources: they enter through this interface. *)

Module Sub.
Import BinaryStream.

Class Record (T : Type) := {
  (** [new T(stream)], or [new T()] followed by [load(stream)]. *)
  load : M T;
  save : T -> M unit;
  getByteLength : T -> Z
}.

(** [this.list[i] = x]: an array grows when the slot after its last one is
    assigned. *)
Definition assign {T} (l : list T) (i : nat) (x : T) : list T :=
  if (i <? length l)%nat then <[i := x]> l else l ++ [x].

(** [for (let i = 0; i < l; i++) { this.list[i] = new T(stream) }], from
    [i] on for [n] more rounds. *)
Fixpoint load_loop {T} `{Record T} (l : list T) (i n : nat) : M (list T) :=
  match n with
  | O => ret l
  | S n' => bind load (fun x => load_loop (assign l i x) (S i) n')
  end.

(** [for (let x of list) { x.save(stream) }] *)
Fixpoint save_all {T} `{Record T} (l : list T) : M unit :=
  match l with
  | [] => ret tt
  | x :: l' => bind (save x) (fun _ => save_all l')
  end.

(** [for (let x of list) { size += x.getByteLength() }] *)
Fixpoint sum_byteLength {T} `{Record T} (size : Z) (l : list T) : Z :=
  match l with
  | [] => size
  | x :: l' => sum_byteLength (size + getByteLength x) l'
  end.

(** [new ArrayBuffer(size)] and [new BinaryStream(buffer)]. *)
Definition open (h : heap) (size : Z) : Result world :=
  if size <? 0 then Throw RangeError
  else
    let '(b, h) := alloc h (Z.to_nat size) in
    match new h (Buffer b) None None with
    | Ok s => Ok (World h s)
    | Throw e => Throw e
    end.

(** [m] ends normally and moves the index by [n]. *)
Definition advances (m : M unit) (n : Z) : Prop :=
  forall w, exists w',
    m w = Ok (tt, w') /\ index (stream w') = index (stream w) + n.

(** A record class whose [save] writes [size x] bytes for every [x]. *)
Definition writes_exactly {T} (save : T -> M unit) (size : T -> Z) : Prop :=
  forall x, 0 <= size x /\ advances (save x) (size x).

(** A record class whose [getByteLength] is the number of bytes of its
    [save]. *)
Definition exact (T : Type) `{Record T} : Prop :=
  writes_exactly save getByteLength.

(** [m] is the write of [bytes] at the index. *)
Definition writes (m : M unit) (bytes : list Z) : Prop :=
  forall w, m w = put bytes w.

(** A record class that round-trips: [save] writes the bytes [image x] at
    the index, and the loader gives [x] back from any stream that holds
    these bytes at its index, and moves past them. *)
Definition round_trips (T : Type) `{Record T} (image : T -> list Z) : Prop :=
  (forall x, is_bytes (image x))
  /\ (forall x, getByteLength x = Z.of_nat (length (image x)))
  /\ (forall x w, save x w = put (image x) w)
  /\ (forall x w, holds w (image x) ->
                  load w = Ok (x, advance w (Z.of_nat (length (image x))))).


(** [m] reads [v] from [bytes]: on any stream that holds [bytes] at its
    index it returns [v] and moves past them. *)
Definition reads {A} (m : M A) (v : A) (bytes : list Z) : Prop :=
  forall w rest,
    holds w (bytes ++ rest) ->
    m w = Ok (v, advance w (Z.of_nat (length bytes)))
    /\ holds (advance w (Z.of_nat (length bytes))) rest.

End Sub.

#[global] Instance M_ret : MRet BinaryStream.M := @BinaryStream.ret.
#[global] Instance M_bind : MBind BinaryStream.M :=
  fun A B k m => BinaryStream.bind m k.

(** ** [war3map.wct] *)

Module War3MapWct.
Import BinaryStream.

Section WithCustomTextTrigger.
Context {CustomTextTrigger : Type} `{!Sub.Record CustomTextTrigger}.

Record t := mk {
  version : Z;
  comment : string;
  trigger : option CustomTextTrigger;
  triggers : list CustomTextTrigger
}.

(** The object right after the constructor's assignments. *)
Definition empty : t :=
  {| version := 0; comment := EmptyString; trigger := None; triggers := [] |}.

Definition nul : string := String (JsString.char_of_nat 0) EmptyString.

Definition load_body (this : t) : M t :=
  v ← readInt32;
  let this := mk v (comment this) (trigger this) (triggers this) in
  this ← (if version this =? 1 then
            c ← readUntilNull;
            x ← Sub.load;
            ret (mk (version this) c (Some x) (triggers this))
          else ret this);
  l ← readUint32;
  xs ← Sub.load_loop (triggers this) 0 (Z.to_nat l);
  ret (mk (version this) (comment this) (trigger this) xs).

(** [load(buffer)] on [this]. *)
Definition load (this : t) (h : heap) (buffer : nat) : Result t :=
  match new h (Buffer buffer) None None with
  | Throw e => Throw e
  | Ok stream =>
      match load_body this (World h stream) with
      | Ok (this, _) => Ok this
      | Throw e => Throw e
      end
  end.

Definition getByteLength (this : t) : Result Z :=
  let size := 8 in
  match (if version this =? 1 then
           match trigger this with
           | Some trigger =>
               Ok (size + (Z.of_nat (JsString.length (comment this)) + 1
                           + Sub.getByteLength trigger))
           | None => Throw TypeError
           end
         else Ok size) with
  | Ok size => Ok (Sub.sum_byteLength size (triggers this))
  | Throw e => Throw e
  end.

Definition save_body (this : t) : M unit :=
  writeInt32 (version this);;
  (if version this =? 1 then
     write (comment this ++ nul);;
     match trigger this with
     | Some trigger => Sub.save trigger
     | None => throw TypeError
     end
   else ret tt);;
  writeUint32 (Z.of_nat (length (triggers this)));;
  Sub.save_all (triggers this).

(** The stream and the store when [save()] returns. *)
Definition save_run (this : t) (h : heap) : Result world :=
  match getByteLength this with
  | Throw e => Throw e
  | Ok size =>
      match Sub.open h size with
      | Throw e => Throw e
      | Ok w =>
          match save_body this w with
          | Ok (_, w) => Ok w
          | Throw e => Throw e
          end
      end
  end.

(** [save()]: the buffer it returns, in the store it leaves. *)
Definition save (this : t) (h : heap) : Result (nat * heap) :=
  match save_run this h with
  | Ok w => Ok (buffer (stream w), mem w)
  | Throw e => Throw e
  end.

(** What [save] writes for [this], given what the sub-records write. *)
Definition image (image_trigger : CustomTextTrigger -> list Z) (this : t)
  : list Z :=
  Typecast.int32ToUint8 (version this)
  ++ (if version this =? 1 then
        charCodes (comment this ++ nul)
        ++ match trigger this with
           | Some x => image_trigger x
           | None => []
           end
      else [])
  ++ Typecast.uint32ToUint8 (Z.of_nat (length (triggers this)))
  ++ concat (image_trigger <$> triggers this).

(** What [load] makes of a saved [this] on a new object: the comment and
    the trigger are in the file for version 1 only. *)
Definition loaded (this : t) : t :=
  if version this =? 1 then this
  else mk (version this) EmptyString None (triggers this).

End WithCustomTextTrigger.
Arguments t CustomTextTrigger : clear implicits.

End War3MapWct.

(** ** [war3map.w3i] *)

Module War3MapW3i.
Import BinaryStream.

Section WithSubRecords.
Context `{JsFloat}.
Context {Player Force UpgradeAvailabilityChange TechAvailabilityChange
         RandomUnitTable RandomItemTable : Type}.
Context `{!Sub.Record Player} `{!Sub.Record Force}
        `{!Sub.Record UpgradeAvailabilityChange}
        `{!Sub.Record TechAvailabilityChange}
        `{!Sub.Record RandomUnitTable} `{!Sub.Record RandomItemTable}.

(** The typed arrays keep the lengths the constructor and [load] give
    them. *)
Record t := mk {
  version : Z;
  saves : Z;
  editorVersion : Z;
  name : string;
  author : string;
  description : string;
  recommendedPlayers : string;
  cameraBounds : vec float 8;
  cameraBoundsComplements : vec Z 4;
  playableSize : vec Z 2;
  flags : Z;
  tileset : string;
  campaignBackground : Z;
  loadingScreenModel : string;
  loadingScreenText : string;
  loadingScreenTitle : string;
  loadingScreenSubtitle : string;
  loadingScreen : Z;
  prologueScreenModel : string;
  prologueScreenText : string;
  prologueScreenTitle : string;
  prologueScreenSubtitle : string;
  useTerrainFog : Z;
  fogHeight : vec float 2;
  fogDensity : float;
  fogColor : vec Z 4;
  globalWeather : Z;
  soundEnvironment : string;
  lightEnvironmentTileset : string;
  waterVertexColor : vec Z 4;
  players : list Player;
  forces : list Force;
  upgradeAvailabilityChanges : list UpgradeAvailabilityChange;
  techAvailabilityChanges : list TechAvailabilityChange;
  randomUnitTables : list RandomUnitTable;
  randomItemTables : list RandomItemTable
}.

Definition nul : string := String (JsString.char_of_nat 0) EmptyString.

Definition when (c : bool) (m : M unit) : M unit := if c then m else ret tt.

Definition count {T} (l : list T) : Z := Z.of_nat (length l).

Definition save_body (this : t) : M unit :=
  writeInt32 (version this);;
  writeInt32 (saves this);;
  writeInt32 (editorVersion this);;
  write (name this ++ nul);;
  write (author this ++ nul);;
  write (description this ++ nul);;
  write (recommendedPlayers this ++ nul);;
  writeFloat32Array (cameraBounds this);;
  writeInt32Array (cameraBoundsComplements this);;
  writeInt32Array (playableSize this);;
  writeUint32 (flags this);;
  write (tileset this);;
  writeInt32 (campaignBackground this);;
  when (version this >? 24) (
    write (loadingScreenModel this ++ nul));;
  write (loadingScreenText this ++ nul);;
  write (loadingScreenTitle this ++ nul);;
  write (loadingScreenSubtitle this ++ nul);;
  writeInt32 (loadingScreen this);;
  when (version this >? 24) (
    write (prologueScreenModel this ++ nul));;
  write (prologueScreenText this ++ nul);;
  write (prologueScreenTitle this ++ nul);;
  write (prologueScreenSubtitle this ++ nul);;
  when (version this >? 24) (
    writeInt32 (useTerrainFog this);;
    writeFloat32Array (fogHeight this);;
    writeFloat32 (fogDensity this);;
    writeUint8Array (fogColor this);;
    writeInt32 (globalWeather this);;
    write (soundEnvironment this ++ nul);;
    write (lightEnvironmentTileset this);;
    writeUint8Array (waterVertexColor this));;
  writeUint32 (count (players this));;
  Sub.save_all (players this);;
  writeUint32 (count (forces this));;
  Sub.save_all (forces this);;
  writeUint32 (count (upgradeAvailabilityChanges this));;
  Sub.save_all (upgradeAvailabilityChanges this);;
  writeUint32 (count (techAvailabilityChanges this));;
  Sub.save_all (techAvailabilityChanges this);;
  writeUint32 (count (randomUnitTables this));;
  Sub.save_all (randomUnitTables this);;
  when (version this >? 24) (
    writeUint32 (count (randomItemTables this));;
    Sub.save_all (randomItemTables this)).

Definition len (s : string) : Z := Z.of_nat (JsString.length s).

Definition getByteLength (this : t) : Z :=
  let size :=
    111 + len (name this) + len (author this) + len (description this)
    + len (recommendedPlayers this) + len (loadingScreenText this)
    + len (loadingScreenTitle this) + len (loadingScreenSubtitle this)
    + len (prologueScreenText this) + len (prologueScreenTitle this)
    + len (prologueScreenSubtitle this) in
  let size := Sub.sum_byteLength size (players this) in
  let size := Sub.sum_byteLength size (forces this) in
  let size := size + count (upgradeAvailabilityChanges this) * 16 in
  let size := size + count (techAvailabilityChanges this) * 8 in
  let size := Sub.sum_byteLength size (randomUnitTables this) in
  if version this >? 24 then
    let size :=
      size + (36 + len (loadingScreenModel this)
              + len (prologueScreenModel this) + len (soundEnvironment this)) in
    Sub.sum_byteLength size (randomItemTables this)
  else size.

(** The stream and the store when [save()] returns. *)
Definition save_run (this : t) (h : heap) : Result world :=
  match Sub.open h (getByteLength this) with
  | Throw e => Throw e
  | Ok w =>
      match save_body this w with
      | Ok (_, w) => Ok w
      | Throw e => Throw e
      end
  end.

(** [save()]: the buffer it returns, in the store it leaves. *)
Definition save (this : t) (h : heap) : Result (nat * heap) :=
  match save_run this h with
  | Ok w => Ok (buffer (stream w), mem w)
  | Throw e => Throw e
  end.


(** The array of [n] elements that a reader returns for the length [n],
    as a field of the record.  The reader returns a list of the length
    asked for, so that no element is ever taken from [otherwise]. *)
Definition as_array {A} {n : nat} (otherwise : vec A n) (l : list A) : vec A n :=
  fun_to_vec (fun i => default (otherwise !!! i) (l !! fin_to_nat i)).

(** [load] on [this], from the stream on. *)
Definition load_body (this : t) : M t :=
  version_ ← readInt32;
  saves_ ← readInt32;
  editorVersion_ ← readInt32;
  name_ ← readUntilNull;
  author_ ← readUntilNull;
  description_ ← readUntilNull;
  recommendedPlayers_ ← readUntilNull;
  cameraBounds_ ← readFloat32Array (OfLength 8);
  cameraBoundsComplements_ ← readInt32Array (OfLength 4);
  playableSize_ ← readInt32Array (OfLength 2);
  flags_ ← readUint32;
  tileset_ ← read (Some 1) false;
  campaignBackground_ ← readInt32;
  loadingScreenModel_ ← (if version_ >? 24 then readUntilNull
                        else ret (loadingScreenModel this));
  loadingScreenText_ ← readUntilNull;
  loadingScreenTitle_ ← readUntilNull;
  loadingScreenSubtitle_ ← readUntilNull;
  loadingScreen_ ← readInt32;
  prologueScreenModel_ ← (if version_ >? 24 then readUntilNull
                         else ret (prologueScreenModel this));
  prologueScreenText_ ← readUntilNull;
  prologueScreenTitle_ ← readUntilNull;
  prologueScreenSubtitle_ ← readUntilNull;
  fog ← (if version_ >? 24 then
           useTerrainFog_ ← readInt32;
           fogHeight_ ← readFloat32Array (OfLength 2);
           fogDensity_ ← readFloat32;
           fogColor_ ← readUint8Array (OfLength 4);
           globalWeather_ ← readInt32;
           soundEnvironment_ ← readUntilNull;
           lightEnvironmentTileset_ ← read (Some 1) true;
           waterVertexColor_ ← readUint8Array (OfLength 4);
           ret (useTerrainFog_, as_array (fogHeight this) fogHeight_, fogDensity_,
                as_array (fogColor this) fogColor_, globalWeather_,
                soundEnvironment_, lightEnvironmentTileset_,
                as_array (waterVertexColor this) waterVertexColor_)
         else
           ret (useTerrainFog this, fogHeight this, fogDensity this,
                fogColor this, globalWeather this, soundEnvironment this,
                lightEnvironmentTileset this, waterVertexColor this));
  let '(useTerrainFog_, fogHeight_, fogDensity_, fogColor_, globalWeather_,
        soundEnvironment_, lightEnvironmentTileset_, waterVertexColor_) := fog in
  l ← readInt32;
  players_ ← Sub.load_loop (players this) 0 (Z.to_nat l);
  l ← readInt32;
  forces_ ← Sub.load_loop (forces this) 0 (Z.to_nat l);
  l ← readInt32;
  upgradeAvailabilityChanges_ ←
    Sub.load_loop (upgradeAvailabilityChanges this) 0 (Z.to_nat l);
  l ← readInt32;
  techAvailabilityChanges_ ←
    Sub.load_loop (techAvailabilityChanges this) 0 (Z.to_nat l);
  l ← readInt32;
  randomUnitTables_ ← Sub.load_loop (randomUnitTables this) 0 (Z.to_nat l);
  randomItemTables_ ← (if version_ >? 24 then
                        l ← readInt32;
                        Sub.load_loop (randomItemTables this) 0 (Z.to_nat l)
                      else ret (randomItemTables this));
  ret {| version := version_; saves := saves_; editorVersion := editorVersion_;
         name := name_; author := author_; description := description_;
         recommendedPlayers := recommendedPlayers_;
         cameraBounds := as_array (cameraBounds this) cameraBounds_;
         cameraBoundsComplements :=
           as_array (cameraBoundsComplements this) cameraBoundsComplements_;
         playableSize := as_array (playableSize this) playableSize_;
         flags := flags_; tileset := tileset_;
         campaignBackground := campaignBackground_;
         loadingScreenModel := loadingScreenModel_;
         loadingScreenText := loadingScreenText_;
         loadingScreenTitle := loadingScreenTitle_;
         loadingScreenSubtitle := loadingScreenSubtitle_;
         loadingScreen := loadingScreen_;
         prologueScreenModel := prologueScreenModel_;
         prologueScreenText := prologueScreenText_;
         prologueScreenTitle := prologueScreenTitle_;
         prologueScreenSubtitle := prologueScreenSubtitle_;
         useTerrainFog := useTerrainFog_; fogHeight := fogHeight_;
         fogDensity := fogDensity_; fogColor := fogColor_;
         globalWeather := globalWeather_; soundEnvironment := soundEnvironment_;
         lightEnvironmentTileset := lightEnvironmentTileset_;
         waterVertexColor := waterVertexColor_; players := players_;
         forces := forces_;
         upgradeAvailabilityChanges := upgradeAvailabilityChanges_;
         techAvailabilityChanges := techAvailabilityChanges_;
         randomUnitTables := randomUnitTables_;
         randomItemTables := randomItemTables_ |}.

(** What the sub-records of the six classes write. *)
Record images := {
  of_player : Player -> list Z;
  of_force : Force -> list Z;
  of_upgrade : UpgradeAvailabilityChange -> list Z;
  of_tech : TechAvailabilityChange -> list Z;
  of_unit_table : RandomUnitTable -> list Z;
  of_item_table : RandomItemTable -> list Z
}.

(** What [save] writes for [this], given what the sub-records write. *)
Definition image (im : images) (this : t) : list Z :=
  let later := version this >? 24 in
  Typecast.int32ToUint8 (version this)
  ++ Typecast.int32ToUint8 (saves this)
  ++ Typecast.int32ToUint8 (editorVersion this)
  ++ charCodes (name this ++ nul)
  ++ charCodes (author this ++ nul)
  ++ charCodes (description this ++ nul)
  ++ charCodes (recommendedPlayers this ++ nul)
  ++ concat (float32_bytes <$> vec_to_list (cameraBounds this))
  ++ concat (Typecast.int32ToUint8 <$> vec_to_list (cameraBoundsComplements this))
  ++ concat (Typecast.int32ToUint8 <$> vec_to_list (playableSize this))
  ++ Typecast.uint32ToUint8 (flags this)
  ++ charCodes (tileset this)
  ++ Typecast.int32ToUint8 (campaignBackground this)
  ++ (if later then charCodes (loadingScreenModel this ++ nul) else [])
  ++ charCodes (loadingScreenText this ++ nul)
  ++ charCodes (loadingScreenTitle this ++ nul)
  ++ charCodes (loadingScreenSubtitle this ++ nul)
  ++ Typecast.int32ToUint8 (loadingScreen this)
  ++ (if later then charCodes (prologueScreenModel this ++ nul) else [])
  ++ charCodes (prologueScreenText this ++ nul)
  ++ charCodes (prologueScreenTitle this ++ nul)
  ++ charCodes (prologueScreenSubtitle this ++ nul)
  ++ (if later then
        Typecast.int32ToUint8 (useTerrainFog this)
        ++ concat (float32_bytes <$> vec_to_list (fogHeight this))
        ++ float32_bytes (fogDensity this)
        ++ vec_to_list (fogColor this)
        ++ Typecast.int32ToUint8 (globalWeather this)
        ++ charCodes (soundEnvironment this ++ nul)
        ++ charCodes (lightEnvironmentTileset this)
        ++ vec_to_list (waterVertexColor this)
      else [])
  ++ Typecast.uint32ToUint8 (count (players this))
  ++ concat (of_player im <$> players this)
  ++ Typecast.uint32ToUint8 (count (forces this))
  ++ concat (of_force im <$> forces this)
  ++ Typecast.uint32ToUint8 (count (upgradeAvailabilityChanges this))
  ++ concat (of_upgrade im <$> upgradeAvailabilityChanges this)
  ++ Typecast.uint32ToUint8 (count (techAvailabilityChanges this))
  ++ concat (of_tech im <$> techAvailabilityChanges this)
  ++ Typecast.uint32ToUint8 (count (randomUnitTables this))
  ++ concat (of_unit_table im <$> randomUnitTables this)
  ++ (if later then
        Typecast.uint32ToUint8 (count (randomItemTables this))
        ++ concat (of_item_table im <$> randomItemTables this)
      else []).

(** What [load] makes of a saved [this] on the object [that]: the fields
    that are in the file for a version above 24 only are those of [that]
    otherwise. *)
Definition loaded (this that : t) : t :=
  if version this >? 24 then this
  else
    {| version := version this; saves := saves this;
       editorVersion := editorVersion this; name := name this;
       author := author this; description := description this;
       recommendedPlayers := recommendedPlayers this;
       cameraBounds := cameraBounds this;
       cameraBoundsComplements := cameraBoundsComplements this;
       playableSize := playableSize this; flags := flags this;
       tileset := tileset this;
       campaignBackground := campaignBackground this;
       loadingScreenModel := loadingScreenModel that;
       loadingScreenText := loadingScreenText this;
       loadingScreenTitle := loadingScreenTitle this;
       loadingScreenSubtitle := loadingScreenSubtitle this;
       loadingScreen := loadingScreen this;
       prologueScreenModel := prologueScreenModel that;
       prologueScreenText := prologueScreenText this;
       prologueScreenTitle := prologueScreenTitle this;
       prologueScreenSubtitle := prologueScreenSubtitle this;
       useTerrainFog := useTerrainFog that; fogHeight := fogHeight that;
       fogDensity := fogDensity that; fogColor := fogColor that;
       globalWeather := globalWeather that;
       soundEnvironment := soundEnvironment that;
       lightEnvironmentTileset := lightEnvironmentTileset that;
       waterVertexColor := waterVertexColor that; players := players this;
       forces := forces this;
       upgradeAvailabilityChanges := upgradeAvailabilityChanges this;
       techAvailabilityChanges := techAvailabilityChanges this;
       randomUnitTables := randomUnitTables this;
       randomItemTables := randomItemTables that |}.

Definition int32 (v : Z) : Prop := - 2 ^ 31 <= v < 2 ^ 31.

(** One character that is not the null character. *)
Definition one_character (s : string) : Prop :=
  JsString.length s = 1%nat /\ free_of_nul s = true.

(** The fields of [this] are what the file format can hold: numbers of
    32 bits, camera complements and sizes of 16 bits, strings without
    null character, a tileset of one character, colours of bytes,
    numbers that the 32-bit conversions give back, fewer than 2^31
    sub-records of a kind, and in the strings only characters of codes
    below 256. *)
Definition storable (this : t) : Prop :=
  Forall int32
    [version this; saves this; editorVersion this; campaignBackground this;
     loadingScreen this; useTerrainFog this; globalWeather this]
  /\ 0 <= flags this < 2 ^ 32
  /\ Forall (fun s => free_of_nul s = true)
       [name this; author this; description this; recommendedPlayers this;
        loadingScreenModel this; loadingScreenText this;
        loadingScreenTitle this; loadingScreenSubtitle this;
        prologueScreenModel this; prologueScreenText this;
        prologueScreenTitle this; prologueScreenSubtitle this;
        soundEnvironment this]
  /\ one_character (tileset this)
  /\ JsString.length (lightEnvironmentTileset this) = 1%nat
  /\ Forall float32_value
       (vec_to_list (cameraBounds this) ++ vec_to_list (fogHeight this)
        ++ [fogDensity this])
  /\ Forall (fun x => - 2 ^ 15 <= x < 2 ^ 15)
       (vec_to_list (cameraBoundsComplements this)
        ++ vec_to_list (playableSize this))
  /\ is_bytes (vec_to_list (fogColor this) ++ vec_to_list (waterVertexColor this))
  /\ Forall (fun n => n < 2 ^ 31)
       [count (players this); count (forces this);
        count (upgradeAvailabilityChanges this);
        count (techAvailabilityChanges this); count (randomUnitTables this);
        count (randomItemTables this)]
  /\ Forall (fun s => byte_string s = true)
       [name this; author this; description this; recommendedPlayers this;
        loadingScreenModel this; loadingScreenText this;
        loadingScreenTitle this; loadingScreenSubtitle this;
        prologueScreenModel this; prologueScreenText this;
        prologueScreenTitle this; prologueScreenSubtitle this;
        soundEnvironment this; tileset this; lightEnvironmentTileset this].

(** A new object as far as its lists go. *)
Definition without_lists (this : t) : Prop :=
  players this = [] /\ forces this = []
  /\ upgradeAvailabilityChanges this = [] /\ techAvailabilityChanges this = []
  /\ randomUnitTables this = [] /\ randomItemTables this = [].

(** The sub-records of the six classes round-trip. *)
Definition sub_records_round_trip (im : images) : Prop :=
  Sub.round_trips Player (of_player im)
  /\ Sub.round_trips Force (of_force im)
  /\ Sub.round_trips UpgradeAvailabilityChange (of_upgrade im)
  /\ Sub.round_trips TechAvailabilityChange (of_tech im)
  /\ Sub.round_trips RandomUnitTable (of_unit_table im)
  /\ Sub.round_trips RandomItemTable (of_item_table im).

End WithSubRecords.
Arguments t {H} Player Force UpgradeAvailabilityChange TechAvailabilityChange
  RandomUnitTable RandomItemTable.

End War3MapW3i.

(** ** [Result] as a monad, and the text of a number *)

#[global] Instance Result_ret : MRet Result := @Ok.
#[global] Instance Result_bind : MBind Result :=
  fun A B k r => match r with
                 | Ok a => k a
                 | Throw e => Throw e
                 end.

(** The text of an integral number or of [NaN] in a template literal: the
    language's conversion of a number to a string. *)
Class JsNumber := {
  number_toString : number -> string
}.

(** ** mdlx [Texture] *)

Module Texture.
Local Open Scope js_scope.

Record t := mk {
  replaceableId : number;
  (** [None] when a text loader assigned [undefined]. *)
  path : option string;
  flags : number
}.

Definition empty : t :=
  {| replaceableId := Int 0; path := Some EmptyString; flags := Int 0 |}.

Definition readMdx (this : t) : BinaryStream.M t :=
  r ← BinaryStream.readUint32;
  p ← BinaryStream.read (Some 260) false;
  f ← BinaryStream.readUint32;
  mret (mk (Int r) (Some p) (Int f)).

Definition writeMdx (this : t) : BinaryStream.M unit :=
  BinaryStream.writeUint32 (integer_of (replaceableId this));;
  match path this with
  | None => BinaryStream.throw TypeError
  | Some p =>
      BinaryStream.write p;;
      BinaryStream.skip (260 - Z.of_nat (JsString.length p))
  end;;
  BinaryStream.writeUint32 (integer_of (flags this)).

(** [x |= bit] *)
Definition bit_or (x : number) (bit : Z) : number :=
  Int (Typecast.signed 32 (Z.lor (integer_of x mod 2 ^ 32) bit)).

Definition unknown_token (token : option string) : string :=
  "Unknown token in Texture: " ++ String TokenStream.quote (TokenStream.text token)
  ++ String TokenStream.quote EmptyString.

(** One round of the loop of [readMdl]. *)
Definition readMdl_body `{JsFloat} (token : option string) (this : t)
  (stream : TokenStream.t) : option (Result (t * TokenStream.t)) :=
  if TokenStream.token_is token "Image" then
    let '(p, stream) := TokenStream.read stream in
    Some (Ok (mk (replaceableId this) p (flags this), stream))
  else if TokenStream.token_is token "ReplaceableId" then
    let '(r, stream) := TokenStream.readInt stream in
    Some (Ok (mk r (path this) (flags this), stream))
  else if TokenStream.token_is token "WrapWidth" then
    Some (Ok (mk (replaceableId this) (path this) (bit_or (flags this) 1), stream))
  else if TokenStream.token_is token "WrapHeight" then
    Some (Ok (mk (replaceableId this) (path this) (bit_or (flags this) 2), stream))
  else Some (Throw (Error (unknown_token token))).

Definition readMdl `{JsFloat} (fuel : nat) (this : t) (stream : TokenStream.t)
  : option (Result (t * TokenStream.t)) :=
  TokenStream.for_readBlock readMdl_body fuel this stream.

Definition keys : list string :=
  ["Image"; "ReplaceableId"; "WrapWidth"; "WrapHeight"].

(** What [writeMdx] leaves in the 268 bytes of a texture with a path of
    at most 260 characters, when the bytes it skips are zero. *)
Definition image (r f : Z) (p : string) : list Z :=
  Typecast.uint32ToUint8 r
  ++ (BinaryStream.charCodes p ++ replicate (260 - JsString.length p) 0)
  ++ Typecast.uint32ToUint8 f.


(** [x !== 0] *)
Definition is_nonzero (x : number) : bool :=
  match x with
  | Int z => negb (z =? 0)%Z
  | NaN => true
  end.

(** Whether [x & bit] is truthy. *)
Definition has_bit (x : number) (bit : Z) : bool :=
  negb (Typecast.signed 32 (Z.land (integer_of x mod 2 ^ 32) bit) =? 0)%Z.

Definition writeMdl `{JsNumber} (this : t) (stream : TokenStream.t)
  : Result TokenStream.t :=
  stream ← TokenStream.startBlock ["Bitmap"] stream;
  stream ← TokenStream.writeStringAttrib "Image" (path this) stream;
  stream ← (if is_nonzero (replaceableId this)
            then TokenStream.writeAttrib "ReplaceableId"
                   (number_toString (replaceableId this)) stream
            else mret stream);
  stream ← (if has_bit (flags this) 1
            then TokenStream.writeFlag "WrapWidth" stream
            else mret stream);
  stream ← (if has_bit (flags this) 2
            then TokenStream.writeFlag "WrapHeight" stream
            else mret stream);
  TokenStream.endBlock stream.

(** The lines that [writeMdl] writes between the name of the block and
    the end of the text, at indentation [n]. *)
Definition mdl_text `{JsNumber} (n : nat) (this : t) : string :=
  "{" ++ String TokenStream.newline
    (TokenStream.repeat_tab (S n) ++ "Image "
     ++ String TokenStream.quote
          (TokenStream.text (path this)
           ++ String TokenStream.quote
                (","
                 ++ String TokenStream.newline
                      ((if is_nonzero (replaceableId this)
                        then TokenStream.repeat_tab (S n) ++ "ReplaceableId "
                             ++ number_toString (replaceableId this) ++ ","
                             ++ String TokenStream.newline EmptyString
                        else EmptyString)
                       ++ (if has_bit (flags this) 1
                           then TokenStream.repeat_tab (S n) ++ "WrapWidth,"
                                ++ String TokenStream.newline EmptyString
                           else EmptyString)
                       ++ (if has_bit (flags this) 2
                           then TokenStream.repeat_tab (S n) ++ "WrapHeight,"
                                ++ String TokenStream.newline EmptyString
                           else EmptyString)
                       ++ TokenStream.repeat_tab n ++ "}"
                       ++ String TokenStream.newline EmptyString)))).

End Texture.

(** ** mdlx [Camera] *)

(** [AnimatedObject], the base class of [Camera], is not among the sources;
    its state and its text reader of one animation enter as an interface. *)
Class AnimatedObject (Animations : Type) := {
  readAnimation :
    Animations -> TokenStream.t -> string -> Result (Animations * TokenStream.t)
}.

(** The binary side of [AnimatedObject]: the reader and the writer of the
    animations of an object, and their byte length. *)
Class AnimatedObjectMdx (Animations : Type) := {
  (** [this.readAnimations(stream, size)] *)
  readAnimations : Animations -> Z -> BinaryStream.M Animations;
  writeAnimations : Animations -> BinaryStream.M unit;
  (** [super.getByteLength()] *)
  animations_getByteLength : Animations -> Z
}.

(** The writer of one animation of an object in the text format. *)
Class AnimatedObjectMdl (Animations : Type) := {
  (** [this.writeAnimation(stream, name)] *)
  writeAnimation :
    Animations -> TokenStream.t -> string -> Result TokenStream.t
}.

Module Camera.
Local Open Scope js_scope.

Section WithAnimatedObject.
Context `{JsFloat} {Animations : Type} `{!AnimatedObject Animations}.

Record t := mk {
  super : Animations;
  name : option string;
  position : list float;
  fieldOfView : float;
  farClippingPlane : float;
  nearClippingPlane : float;
  targetPosition : list float
}.

Definition with_super (this : t) (a : Animations) : t :=
  mk a (name this) (position this) (fieldOfView this)
    (farClippingPlane this) (nearClippingPlane this) (targetPosition this).

(** [this.name = n] *)
Definition with_name (this : t) (n : option string) : t :=
  mk (super this) n (position this) (fieldOfView this)
    (farClippingPlane this) (nearClippingPlane this) (targetPosition this).

Definition this_readAnimation (this : t) (stream : TokenStream.t)
  (name : string) : option (Result (t * TokenStream.t)) :=
  match readAnimation (super this) stream name with
  | Ok (a, stream) => Some (Ok (with_super this a, stream))
  | Throw e => Some (Throw e)
  end.

Definition unknown_token (this : t) (token : option string) : string :=
  "Unknown token in Camera " ++ TokenStream.text (name this) ++ ": "
  ++ String TokenStream.quote (TokenStream.text token)
  ++ String TokenStream.quote EmptyString.

Definition unknown_target_token (this : t) (token : option string) : string :=
  "Unknown token in Camera " ++ TokenStream.text (name this) ++ "'s Target: "
  ++ String TokenStream.quote (TokenStream.text token)
  ++ String TokenStream.quote EmptyString.

(** One round of the loop over the [Target] block. *)
Definition target_body (token : option string) (this : t)
  (stream : TokenStream.t) : option (Result (t * TokenStream.t)) :=
  if TokenStream.token_is token "Position" then
    let '(v, stream) := TokenStream.readFloatArray (targetPosition this) stream in
    Some (Ok (mk (super this) (name this) (position this) (fieldOfView this)
                (farClippingPlane this) (nearClippingPlane this) v, stream))
  else if TokenStream.token_is token "Translation" then
    this_readAnimation this stream "KTTR"
  else Some (Throw (Error (unknown_target_token this token))).

(** One round of the outer loop of [readMdl]; [fuel] bounds the loop
    over a [Target] block. *)
Definition readMdl_body (fuel : nat) (token : option string) (this : t)
  (stream : TokenStream.t) : option (Result (t * TokenStream.t)) :=
  if TokenStream.token_is token "Position" then
    let '(v, stream) := TokenStream.readFloatArray (position this) stream in
    Some (Ok (mk (super this) (name this) v (fieldOfView this)
                (farClippingPlane this) (nearClippingPlane this)
                (targetPosition this), stream))
  else if TokenStream.token_is token "Translation" then
    this_readAnimation this stream "KCTR"
  else if TokenStream.token_is token "Rotation" then
    this_readAnimation this stream "KCRL"
  else if TokenStream.token_is token "FieldOfView" then
    let '(x, stream) := TokenStream.readFloat stream in
    Some (Ok (mk (super this) (name this) (position this) x
                (farClippingPlane this) (nearClippingPlane this)
                (targetPosition this), stream))
  else if TokenStream.token_is token "FarClip" then
    let '(x, stream) := TokenStream.readFloat stream in
    Some (Ok (mk (super this) (name this) (position this) (fieldOfView this)
                x (nearClippingPlane this) (targetPosition this), stream))
  else if TokenStream.token_is token "NearClip" then
    let '(x, stream) := TokenStream.readFloat stream in
    Some (Ok (mk (super this) (name this) (position this) (fieldOfView this)
                (farClippingPlane this) x (targetPosition this), stream))
  else if TokenStream.token_is token "Target" then
    TokenStream.for_readBlock target_body fuel this stream
  else Some (Throw (Error (unknown_token this token))).

Definition readMdl (fuel : nat) (this : t) (stream : TokenStream.t)
  : option (Result (t * TokenStream.t)) :=
  let '(n, stream) := TokenStream.read stream in
  let this := with_name this n in
  TokenStream.for_readBlock (readMdl_body fuel) fuel this stream.


Context `{!AnimatedObjectMdx Animations}.

Definition getByteLength (this : t) : Z :=
  120 + animations_getByteLength (super this).

Definition readMdx (this : t) : BinaryStream.M t :=
  size ← BinaryStream.readUint32;
  name ← BinaryStream.read (Some 80) false;
  position ← BinaryStream.readFloat32Array (BinaryStream.Existing (position this));
  fieldOfView ← BinaryStream.readFloat32;
  farClippingPlane ← BinaryStream.readFloat32;
  nearClippingPlane ← BinaryStream.readFloat32;
  targetPosition ←
    BinaryStream.readFloat32Array (BinaryStream.Existing (targetPosition this));
  super ← readAnimations (super this) (size - 120);
  mret (mk super (Some name) position fieldOfView farClippingPlane
          nearClippingPlane targetPosition).

Definition writeMdx (this : t) : BinaryStream.M unit :=
  BinaryStream.writeUint32 (getByteLength this);;
  match name this with
  | None => BinaryStream.throw TypeError
  | Some n =>
      BinaryStream.write n;;
      BinaryStream.skip (80 - Z.of_nat (JsString.length n))
  end;;
  BinaryStream.writeFloat32Array (position this);;
  BinaryStream.writeFloat32 (fieldOfView this);;
  BinaryStream.writeFloat32 (farClippingPlane this);;
  BinaryStream.writeFloat32 (nearClippingPlane this);;
  BinaryStream.writeFloat32Array (targetPosition this);;
  writeAnimations (super this).


(** What [writeMdx] leaves in the bytes of a camera with the name [n] of
    at most 80 characters, when the bytes it skips are zero, given what
    the animations write. *)
Definition image (image_animations : Animations -> list Z) (this : t)
  (n : string) : list Z :=
  Typecast.uint32ToUint8 (getByteLength this)
  ++ (BinaryStream.charCodes n ++ replicate (80 - JsString.length n) 0)
  ++ concat (BinaryStream.float32_bytes <$> position this)
  ++ BinaryStream.float32_bytes (fieldOfView this)
  ++ BinaryStream.float32_bytes (farClippingPlane this)
  ++ BinaryStream.float32_bytes (nearClippingPlane this)
  ++ concat (BinaryStream.float32_bytes <$> targetPosition this)
  ++ image_animations (super this).

(** Animations that round-trip: the writer writes the bytes
    [image_animations a] at the index, as many as the byte length says,
    and the reader, told their number, gives [a] back from any stream
    that holds these bytes at its index, and moves past them. *)
Definition animations_round_trip (image_animations : Animations -> list Z)
  : Prop :=
  (forall a, BinaryStream.is_bytes (image_animations a))
  /\ (forall a, animations_getByteLength a
                = Z.of_nat (length (image_animations a)))
  /\ (forall a w, writeAnimations a w
                  = BinaryStream.put (image_animations a) w)
  /\ (forall a0 a w,
         BinaryStream.holds w (image_animations a) ->
         readAnimations a0 (Z.of_nat (length (image_animations a))) w
         = Ok (a, BinaryStream.advance w
                    (Z.of_nat (length (image_animations a))))).


Context `{!AnimatedObjectMdl Animations}.

Definition writeMdl (this : t) (stream : TokenStream.t) : Result TokenStream.t :=
  stream ← TokenStream.startObjectBlock "Camera" (TokenStream.text (name this))
             stream;
  stream ← TokenStream.writeArrayAttrib "Position" (position this) stream;
  stream ← writeAnimation (super this) stream "KCTR";
  stream ← writeAnimation (super this) stream "KCRL";
  stream ← TokenStream.writeAttrib "FieldOfView" (toString (fieldOfView this))
             stream;
  stream ← TokenStream.writeAttrib "FarClip" (toString (farClippingPlane this))
             stream;
  stream ← TokenStream.writeAttrib "NearClip" (toString (nearClippingPlane this))
             stream;
  stream ← TokenStream.startBlock ["Target"] stream;
  stream ← TokenStream.writeArrayAttrib "Position" (targetPosition this) stream;
  stream ← writeAnimation (super this) stream "KTTR";
  stream ← TokenStream.endBlock stream;
  TokenStream.endBlock stream.

End WithAnimatedObject.

Definition keys : list string :=
  ["Position"; "Translation"; "Rotation"; "FieldOfView"; "FarClip"; "NearClip";
   "Target"].

Definition target_keys : list string := ["Position"; "Translation"].

End Camera.

(** ** [MdxSdSequence] *)

Module MdxSdSequence.

Section WithNumbers.
Context `{JsFloat}.

(** The value of a track: a number, or a typed array with at least one
    element. *)
Inductive track_value :=
| Scalar (x : float)
| Vector (x : float) (xs : list float).

Record keyframe := Keyframe {
  frame : Z;
  value : track_value;
  inTan : track_value;
  outTan : track_value
}.

(** What the constructor reads of its [sd]. *)
Record MdxSd := { defval : track_value }.

Record t := mk {
  sd : MdxSd;
  start : Z;
  end_ : Z;
  keyframes : list keyframe;
  constant : bool;
  (** [this.value] is assigned in the constant cases only. *)
  this_value : option track_value
}.

(** [firstValue[j]] *)
Definition element (v : track_value) (j : nat) : option float :=
  match v with
  | Scalar _ => None
  | Vector x xs => (x :: xs) !! j
  end.

(** [a !== b] on what an element read gives. *)
Definition differ (a b : option float) : bool :=
  match a, b with
  | Some x, Some y => negb (strict_eq x y)
  | None, None => false
  | _, _ => true
  end.

(** Whether the round for [value] in the loop over [this.keyframes]
    sets [constant] to false. *)
Definition differs (firstValue value : track_value) : bool :=
  match value with
  | Vector x xs =>
      (* value.length > 0 *)
      existsb (fun j => differ (element firstValue j) (element value j))
        (seq 0 (length (x :: xs)))
  | Scalar x =>
      match firstValue with
      | Scalar y => negb (strict_eq x y)
      | Vector _ _ => true
      end
  end.

Definition in_range (start end_ : Z) (k : keyframe) : bool :=
  (frame k >=? start) && (frame k <=? end_).

(** The first statement of the constructor: what it pushes before
    the loop, or the error of reading [keyframes[0].frame] in an empty
    list. *)
Definition first_key_outside (end_ : Z) (keyframes : list keyframe)
  (isGlobalSequence : bool) : Result (list keyframe) :=
  if isGlobalSequence then
    match keyframes with
    | [] => Throw TypeError
    | k0 :: _ => Ok (if frame k0 >? end_ then [k0] else [])
    end
  else Ok [].

(** The [switch] on the number of keyframes kept. *)
Definition classify (sd : MdxSd) (start end_ : Z) (kept : list keyframe) : t :=
  let defval := defval sd in
  match kept with
  | [] => mk sd start end_ kept true (Some defval)
  | [k] => mk sd start end_ kept true (Some (value k))
  | first :: rest =>
      let firstValue := value first in
      let constant := negb (existsb (fun k => differs firstValue (value k)) rest) in
      if constant then mk sd start end_ kept true (Some firstValue)
      else
        let kept :=
          if negb (frame first =? start)
          then Keyframe start defval defval defval :: kept
          else kept in
        (* the list is not empty here: [first] stands for no element *)
        let k0 := List.hd first kept in
        let kept :=
          if negb (frame (List.last kept first) =? end_)
          then kept ++ [Keyframe end_ (value k0) (outTan k0) (inTan k0)]
          else kept in
        mk sd start end_ kept false None
  end.

Definition new (sd : MdxSd) (start end_ : Z) (keyframes : list keyframe)
  (isGlobalSequence : bool) : Result t :=
  match first_key_outside end_ keyframes isGlobalSequence with
  | Throw e => Throw e
  | Ok pushed =>
      (* Go over the keyframes, and add all of the ones that are in this
         sequence (start <= frame <= end). *)
      Ok (classify sd start end_
            (pushed ++ List.filter (in_range start end_) keyframes))
  end.


(** A frame asked for is any number: it need not be whole, it can be
    infinite, and it can be [NaN], as [counter % end] is when [end] is 0. *)
Inductive any_number :=
| Finite (q : QArith_base.Q)
| PlusInfinity
| MinusInfinity
| NotANumber.

Definition whole (z : Z) : any_number := Finite (QArith_base.inject_Z z).

(** [x <= y]: false when one of the two is [NaN]. *)
Definition number_le (x y : any_number) : bool :=
  match x, y with
  | NotANumber, _ | _, NotANumber => false
  | MinusInfinity, _ | _, PlusInfinity => true
  | Finite a, Finite b => QArith_base.Qle_bool a b
  | _, _ => false
  end.

(** [x < y]: false when one of the two is [NaN]. *)
Definition number_lt (x y : any_number) : bool :=
  match x, y with
  | NotANumber, _ | _, NotANumber => false
  | PlusInfinity, _ | _, MinusInfinity => false
  | Finite a, Finite b => negb (QArith_base.Qle_bool b a)
  | _, _ => true
  end.

(** The loop of [getKeyframe] from index [i] on, [rest] being the
    keyframes from that index on: the index of the first keyframe that is
    later than the frame asked for; when there is none the loop ends and
    nothing is returned. *)
Fixpoint getKeyframe_loop (rest : list keyframe) (i : nat)
  (at_frame : any_number) : option nat :=
  match rest with
  | [] => None
  | k :: rest' =>
      (* keyframe.frame > frame *)
      if number_lt at_frame (whole (frame k)) then Some i
      else getKeyframe_loop rest' (S i) at_frame
  end.

Definition getKeyframe (this : t) (at_frame : any_number) : option Z :=
  if constant this then Some 0
  else
    let l := length (keyframes this) in
    (* frame <= this.start *)
    if number_le at_frame (whole (start this)) then Some 0
    (* frame >= this.end *)
    else if number_le (whole (end_ this)) at_frame then Some (Z.of_nat l - 1)
    else Z.of_nat <$> getKeyframe_loop (List.tl (keyframes this)) 1 at_frame.

End WithNumbers.

End MdxSdSequence.

(** ** [Trigger]

    A trigger of the trigger file, with its events, conditions and
    actions.  [ECA] is not among the sources: its loader, its writer and
    its byte length enter as an interface. *)

Class ECARecord (ArgumentMap T : Type) := {
  (** [new ECA()] followed by [load(stream, version, isChildECA, argumentMap)]. *)
  eca_load : Z -> bool -> ArgumentMap -> BinaryStream.M T;
  eca_save : T -> Z -> BinaryStream.M unit;
  eca_getByteLength : T -> Z -> Z
}.

Module Trigger.
Import BinaryStream.

Section WithECA.
Context {ArgumentMap ECA : Type} `{!ECARecord ArgumentMap ECA}.

Record t := mk {
  name : string;
  description : string;
  isComment : Z;
  isEnabled : Z;
  isCustom : Z;
  (** Not among the fields that the constructor sets: [None] is
      [undefined]. *)
  isCustomText : option Z;
  isInitiallyOff : Z;
  runOnInitialization : Z;
  triggerCategory : Z;
  ecas : list ECA
}.

(** The object right after the constructor's assignments. *)
Definition empty : t :=
  {| name := EmptyString; description := EmptyString; isComment := 0;
     isEnabled := 0; isCustom := 0; isCustomText := None; isInitiallyOff := 0;
     runOnInitialization := 0; triggerCategory := 0; ecas := [] |}.

Definition nul : string := String (JsString.char_of_nat 0) EmptyString.

(** The loop of [load], from [i] on for [n] more rounds. *)
Fixpoint load_ecas (l : list ECA) (i n : nat) (version : Z)
  (argumentMap : ArgumentMap) : M (list ECA) :=
  match n with
  | O => ret l
  | S n' =>
      bind (eca_load version false argumentMap) (fun eca =>
      load_ecas (Sub.assign l i eca) (S i) n' version argumentMap)
  end.

Definition load (this : t) (version : Z) (argumentMap : ArgumentMap) : M t :=
  name ← readUntilNull;
  description ← readUntilNull;
  isComment ← (if version =? 7 then readInt32 else ret (isComment this));
  isEnabled ← readInt32;
  isCustomText ← readInt32;
  isInitiallyOff ← readInt32;
  runOnInitialization ← readInt32;
  triggerCategory ← readInt32;
  l ← readUint32;
  ecas ← load_ecas (ecas this) 0 (Z.to_nat l) version argumentMap;
  ret {| name := name; description := description; isComment := isComment;
         isEnabled := isEnabled; isCustom := isCustom this;
         isCustomText := Some isCustomText; isInitiallyOff := isInitiallyOff;
         runOnInitialization := runOnInitialization;
         triggerCategory := triggerCategory; ecas := ecas |}.

Fixpoint save_ecas (l : list ECA) (version : Z) : M unit :=
  match l with
  | [] => ret tt
  | eca :: l' => bind (eca_save eca version) (fun _ => save_ecas l' version)
  end.

Definition save (this : t) (version : Z) : M unit :=
  write (name this ++ nul);;
  write (description this ++ nul);;
  (if version =? 7 then writeInt32 (isComment this) else ret tt);;
  writeInt32 (isEnabled this);;
  writeInt32 (Typecast.arg (isCustomText this));;
  writeInt32 (isInitiallyOff this);;
  writeInt32 (runOnInitialization this);;
  writeInt32 (triggerCategory this);;
  writeUint32 (Z.of_nat (length (ecas this)));;
  save_ecas (ecas this) version.

Fixpoint sum_ecas (size : Z) (l : list ECA) (version : Z) : Z :=
  match l with
  | [] => size
  | eca :: l' => sum_ecas (size + eca_getByteLength eca version) l' version
  end.

Definition getByteLength (this : t) (version : Z) : Z :=
  let size := 26 + Z.of_nat (JsString.length (name this))
              + Z.of_nat (JsString.length (description this)) in
  let size := if version =? 7 then size + 4 else size in
  sum_ecas size (ecas this) version.

(** What [save] writes for [this], given what the records write. *)
Definition image (image_eca : ECA -> list Z) (this : t) (version : Z) : list Z :=
  charCodes (name this ++ nul)
  ++ charCodes (description this ++ nul)
  ++ (if version =? 7 then Typecast.int32ToUint8 (isComment this) else [])
  ++ Typecast.int32ToUint8 (isEnabled this)
  ++ Typecast.int32ToUint8 (Typecast.arg (isCustomText this))
  ++ Typecast.int32ToUint8 (isInitiallyOff this)
  ++ Typecast.int32ToUint8 (runOnInitialization this)
  ++ Typecast.int32ToUint8 (triggerCategory this)
  ++ Typecast.uint32ToUint8 (Z.of_nat (length (ecas this)))
  ++ concat (image_eca <$> ecas this).

(** What [load] makes of a saved [this] on a new object: [isComment] is
    in the file for version 7 only, and [isCustom] is in no file. *)
Definition loaded (this : t) (version : Z) : t :=
  {| name := name this; description := description this;
     isComment := if version =? 7 then isComment this else 0;
     isEnabled := isEnabled this; isCustom := 0;
     isCustomText := Some (Typecast.arg (isCustomText this));
     isInitiallyOff := isInitiallyOff this;
     runOnInitialization := runOnInitialization this;
     triggerCategory := triggerCategory this; ecas := ecas this |}.

(** Records that round-trip at [version]: the writer writes the bytes
    [image_eca x] at the index, and the loader gives [x] back from any
    stream that holds these bytes at its index, and moves past them. *)
Definition ecas_round_trip (version : Z) (argumentMap : ArgumentMap)
  (image_eca : ECA -> list Z) : Prop :=
  (forall x, is_bytes (image_eca x))
  /\ (forall x w, eca_save x version w = put (image_eca x) w)
  /\ (forall x w, holds w (image_eca x) ->
                  eca_load version false argumentMap w
                  = Ok (x, advance w (Z.of_nat (length (image_eca x))))).

End WithECA.
Arguments t ECA : clear implicits.

End Trigger.

(** ** [createIndexArray] of the geometry helpers *)

Module Geometry.

(** The typed arrays that hold indices, with their elements. *)
Inductive index_array :=
| Uint8Array (elements : list Z)
| Uint16Array (elements : list Z)
| Uint32Array (elements : list Z).

(** Create a typed array for index buffers based on the biggest possible
    index. *)
Definition createIndexArray (size : nat) (biggestIndex : Z) : index_array :=
  if biggestIndex <? 255 then Uint8Array (replicate size 0)
  else if biggestIndex <? 65535 then Uint16Array (replicate size 0)
  else Uint32Array (replicate size 0).

Definition elements (a : index_array) : list Z :=
  match a with
  | Uint8Array l | Uint16Array l | Uint32Array l => l
  end.

(** [a[i] = v]: the value is wrapped to the width of an element, and a
    store outside the array is dropped. *)
Definition store (a : index_array) (i : nat) (v : Z) : index_array :=
  match a with
  | Uint8Array l => Uint8Array (<[i := v mod 2 ^ 8]> l)
  | Uint16Array l => Uint16Array (<[i := v mod 2 ^ 16]> l)
  | Uint32Array l => Uint32Array (<[i := v mod 2 ^ 32]> l)
  end.

End Geometry.

(** ** Instances to run the definitions on

    Integers as the numbers, written and parsed in decimal, stored in four
    bytes; a sub-record of one byte; an animated object without state. *)

Module Instances.

Definition parse_decimal (token : option string) : option Z :=
  match token with
  | Some t =>
      t ← JsString.to_ascii_string t;
      Z.of_int <$> DecimalString.NilZero.int_of_string t
  | None => None
  end.

(** The text of an integer in decimal. *)
Definition decimal_text (x : Z) : string :=
  JsString.of_ascii_string (DecimalString.NilZero.string_of_int (Z.to_int x)).

(** A byte as a value of the 8-bit type of the Standard Library. *)
Definition byte_char (b : option Z) : ascii :=
  ascii_of_nat (Z.to_nat (Typecast.arg b)).

Definition byte_code (c : ascii) : Z := Z.of_nat (nat_of_ascii c).

#[export] Instance integers : JsFloat := {|
  float := Z;
  float32ToUint8 := fun x =>
    match Typecast.int32ToUint8 x with
    | [a; b; c; d] => (a, b, c, d)
    | _ => (0, 0, 0, 0)
    end;
  uint8ToFloat32 := Typecast.uint8ToInt32;
  fround := fun x => x;
  parseFloat := fun token => default 0 (parse_decimal token);
  toString := decimal_text;
  parseInt := fun token =>
    match parse_decimal token with
    | Some z => Int z
    | None => NaN
    end;
  strict_eq := Z.eqb
|}.


#[export] Instance stateless : AnimatedObject unit := {|
  readAnimation := fun a stream _ => Ok (a, snd (TokenStream.read stream))
|}.


(** A sub-record of one character, stored in one byte. *)
#[export] Instance one_char : Sub.Record ascii := {|
  Sub.load := x ← BinaryStream.readUint8; mret (byte_char x);
  Sub.save := fun c => BinaryStream.writeUint8 (byte_code c);
  Sub.getByteLength := fun _ => 1
|}.

Definition one_char_image (c : ascii) : list Z := [byte_code c].


(** Integral numbers written in decimal. *)
#[export] Instance decimal : JsNumber := {|
  number_toString := fun n =>
    match n with
    | Int z => decimal_text z
    | NaN => "NaN"%js
    end
|}.

(** Events, conditions and actions of one character, stored in one byte
    at every version. *)
#[export] Instance eca_char : ECARecord unit ascii := {|
  eca_load := fun _ _ _ =>
    x ← BinaryStream.readUint8; mret (byte_char x);
  eca_save := fun c _ => BinaryStream.writeUint8 (byte_code c);
  eca_getByteLength := fun _ _ => 1
|}.

(** Animations without state, stored in no byte. *)
#[export] Instance no_animations : AnimatedObjectMdx unit := {|
  readAnimations := fun a _ => mret a;
  writeAnimations := fun _ => mret tt;
  animations_getByteLength := fun _ => 0
|}.


(** An object without animations writes nothing for them. *)
#[export] Instance nothing_animated : AnimatedObjectMdl unit := {|
  writeAnimation := fun _ stream _ => Ok stream
|}.

End Instances.

(** ** Inputs the statements below are run on *)

Module Examples.
Import BinaryStream.
Local Open Scope js_scope.

(** A store with one buffer of eight bytes, and streams on all of it at
    index 0, 2 and 4. *)
Definition bytes8 : heap := [[65; 66; 67; 68; 0; 0; 1; 0]].

Definition on_bytes8 (index : Z) : t :=
  {| buffer := 0; byteOffset := 0; viewLength := 8; index := index;
     byteLength := 8 |}.

(** The text of the comment of [TokenStream.read]. *)
Definition header : string :=
  "Header " ++ String TokenStream.quote "A String" ++ String TokenStream.quote " {"
  ++ String TokenStream.newline (String TokenStream.tab "Name Value, // A Comment")
  ++ String TokenStream.newline "}".

(** The results of [n] calls of [read()] in a row. *)
Fixpoint read_times (n : nat) (s : TokenStream.t) : list (option string) :=
  match n with
  | O => []
  | S n' => let '(token, s) := TokenStream.read s in token :: read_times n' s
  end.

(** Keyframes of a scalar track over the integers. *)
Definition scalar (x : Z) : MdxSdSequence.track_value :=
  MdxSdSequence.Scalar (H := Instances.integers) x.

Definition key (frame value : Z) : MdxSdSequence.keyframe :=
  MdxSdSequence.Keyframe frame (scalar value) (scalar 0) (scalar 0).

Definition sd0 : MdxSdSequence.MdxSd :=
  {| MdxSdSequence.defval := scalar 0 |}.

Definition quoted (s : string) : string :=
  String TokenStream.quote s ++ String TokenStream.quote EmptyString.

(** A texture block with a token that is no key after one attribute. *)
Definition texture_text : string :=
  "{ Image " ++ quoted "a.blp" ++ ", Foo 1 }".

(** Camera texts, from the name on, with a token that is no key in the
    camera's block and in its target's block. *)
Definition camera_text : string :=
  quoted "Cam" ++ " { FieldOfView 1, Baz 2 }".

Definition camera_target_text : string :=
  quoted "Cam" ++ " { FieldOfView 1, Target { Position { 1, 2, 3 }, Bar 2 } }".

Definition camera0 : Camera.t (H := Instances.integers) (Animations := unit) :=
  Camera.mk (H := Instances.integers) tt (Some EmptyString) [0; 0; 0] 0 0 0
    [0; 0; 0].






(** Trigger files of version 1 and of version 0 with one-character
    sub-records, each with a comment and a trigger. *)
Definition wct_v1 : War3MapWct.t ascii :=
  War3MapWct.mk 1 "hi" (Some "t"%char) ["a"%char; "b"%char].

Definition wct_v0 : War3MapWct.t ascii :=
  War3MapWct.mk 0 "hi" (Some "t"%char) ["a"%char; "b"%char].

(** The string [hi] with 256 added to the code of its first character,
    and the trigger file of version 1 with this comment. *)
Definition wide_hi : string := String (Char "h" "001") (String "i" EmptyString).

Definition wct_wide : War3MapWct.t ascii :=
  War3MapWct.mk 1 wide_hi (Some "t"%char) ["a"%char; "b"%char].

Definition save_then_load (this : War3MapWct.t ascii) : Result (War3MapWct.t ascii) :=
  match War3MapWct.save (H := Instances.one_char) this [] with
  | Ok (b, h) => War3MapWct.load (H := Instances.one_char) War3MapWct.empty h b
  | Throw e => Throw e
  end.

(** A texture, and a stream at index 0 on a new buffer of 268 bytes. *)
Definition texture : Texture.t := Texture.mk (Int 1) (Some "war3mapImported\a.blp") (Int 3).

Definition fresh268 : BinaryStream.world :=
  BinaryStream.World [replicate 268 0]
    {| buffer := 0; byteOffset := 0; viewLength := 268; index := 0;
       byteLength := 268 |}.


(** A stream on the bytes 2, 3 and 4 of the buffer of eight bytes. *)
Definition window : t :=
  {| buffer := 0; byteOffset := 2; viewLength := 3; index := 0;
     byteLength := 8 |}.

(** A texture block that is cut short. *)
Definition unclosed_text : string :=
  "{ Image " ++ quoted "a.blp" ++ ",".

(** A track of two keyframes with different values. *)
Definition two_keys : list MdxSdSequence.keyframe := [key 10 1; key 20 2].

(** A trigger with two events, conditions or actions of one character. *)
Definition trigger1 : Trigger.t ascii :=
  Trigger.mk "melee" "init" 1 1 5 (Some 0) 0 1 2 ["a"%char; "b"%char].


(** A camera with a name, whose numbers are small integers. *)
Definition camera1 : Camera.t (H := Instances.integers) (Animations := unit) :=
  Camera.mk (H := Instances.integers) tt (Some "Cam") [1; -2; 3] 45 1000 8
    [0; 0; -7].


(** A map information file of version 25 whose sub-records are single
    characters, and a new object to load it into. *)
Definition w3i_chars
  : War3MapW3i.t (H := Instances.integers) ascii ascii ascii ascii ascii ascii :=
  @War3MapW3i.mk Instances.integers ascii ascii ascii ascii ascii ascii
    25 2 6059 "map" "me" EmptyString "any"
    (Vector.of_list [-10; 10; -10; 10; -10; 10; -10; 10] : vec Z 8)
    (Vector.of_list [6; 6; 4; 8] : vec Z 4)
    (Vector.of_list [52; 52] : vec Z 2)
    16 "L" (-1) "a.mdx" EmptyString "title" EmptyString (-1)
    EmptyString EmptyString EmptyString EmptyString
    1 (Vector.of_list [3000; 5000] : vec Z 2) (5 : Z)
    (Vector.of_list [0; 128; 255; 255] : vec Z 4)
    0 "mountains" "L"
    (Vector.of_list [255; 255; 255; 255] : vec Z 4)
    ["p"%char; "q"%char] ["f"%char] ["u"%char] [] ["r"%char] ["i"%char; "j"%char].

Definition w3i_new
  : War3MapW3i.t (H := Instances.integers) ascii ascii ascii ascii ascii ascii :=
  @War3MapW3i.mk Instances.integers ascii ascii ascii ascii ascii ascii
    0 0 0 EmptyString EmptyString EmptyString EmptyString
    (vreplicate 8 0 : vec Z 8) (vreplicate 4 0) (vreplicate 2 0)
    0 (String (JsString.char_of_nat 0) EmptyString) 0 EmptyString EmptyString
    EmptyString EmptyString 0 EmptyString EmptyString EmptyString EmptyString
    0 (vreplicate 2 0 : vec Z 2) (0 : Z) (vreplicate 4 0) 0 EmptyString
    (String (JsString.char_of_nat 0) EmptyString) (vreplicate 4 0)
    [] [] [] [] [] [].

Definition char_images
  : War3MapW3i.images (Player := ascii) (Force := ascii)
      (UpgradeAvailabilityChange := ascii) (TechAvailabilityChange := ascii)
      (RandomUnitTable := ascii) (RandomItemTable := ascii) :=
  War3MapW3i.Build_images Instances.one_char_image Instances.one_char_image
    Instances.one_char_image Instances.one_char_image
    Instances.one_char_image Instances.one_char_image.

End Examples.

(** * Properties *)

(** ** Strings *)

Lemma ascii_eqb_eq (a b : ascii) : Ascii.eqb a b = true <-> a = b.
Proof. apply Ascii.eqb_eq. Qed.

Lemma char_eqb_eq (a b : char) : JsString.char_eqb a b = true <-> a = b.
Proof.
  destruct a as [l h], b as [l' h']. cbn. rewrite andb_true_iff, !ascii_eqb_eq.
  split; [intros [-> ->]; reflexivity|intros E; now inversion E].
Qed.

Lemma char_eqb_neq (a b : char) : JsString.char_eqb a b = false <-> a <> b.
Proof.
  rewrite <- char_eqb_eq. destruct (JsString.char_eqb a b); split; congruence.
Qed.

Lemma char_eqb_refl (a : char) : JsString.char_eqb a a = true.
Proof. now apply char_eqb_eq. Qed.

Lemma string_eqb_eq (a b : string) : JsString.eqb a b = true <-> a = b.
Proof.
  revert b. induction a as [|c a IH]; intros [|d b]; cbn; try (split; congruence).
  rewrite andb_true_iff, char_eqb_eq, IH.
  split; [intros [-> ->]; reflexivity|intros E; now inversion E].
Qed.

Lemma string_eqb_spec (a b : string) : reflect (a = b) (JsString.eqb a b).
Proof.
  destruct (JsString.eqb a b) eqn:E; constructor.
  - now apply string_eqb_eq.
  - intros Hab. apply string_eqb_eq in Hab. congruence.
Qed.

(** ** [BinaryStream] *)

(** What [substream] gives in general: the array of the new stream is the
    [byteLength] elements of the buffer from the parent's index on, counted
    from the start of the buffer, and its [byteLength] field is the length
    of the buffer. *)
Lemma substream_window (h : BinaryStream.heap) (s : BinaryStream.t)
  (ab : list Z) (n : Z) :
  h !! BinaryStream.buffer s = Some ab ->
  0 <= BinaryStream.index s -> 0 <= n ->
  BinaryStream.index s + n <= Z.of_nat (length ab) ->
  BinaryStream.substream h s n
  = Ok (BinaryStream.mk (BinaryStream.buffer s) (Z.to_nat (BinaryStream.index s))
          (Z.to_nat n) 0 (Z.of_nat (length ab))).
Proof.
  intros Hab Hi Hn Hroom. unfold BinaryStream.substream, BinaryStream.new.
  rewrite Hab. unfold BinaryStream.new_Uint8Array.
  cbv beta iota zeta delta [default from_option id].
  destruct (Z.ltb_spec (BinaryStream.index s) 0); [lia|].
  destruct (Z.ltb_spec (Z.of_nat (length ab)) (BinaryStream.index s)); [lia|].
  destruct (Z.ltb_spec n 0); [lia|].
  destruct (Z.ltb_spec (Z.of_nat (length ab)) (BinaryStream.index s + n)); [lia|].
  reflexivity.
Qed.

(** [read] with a size other than 0 takes the characters of [peek] and
    moves the index by the size, whatever was skipped. *)
Lemma read_advances (size : Z) (allowNulls : bool) (w : BinaryStream.world) :
  size <> 0 ->
  BinaryStream.read (Some size) allowNulls w
  = Ok (BinaryStream.peek_loop (BinaryStream.mem w) (BinaryStream.stream w)
          allowNulls 0 (Z.to_nat size),
        BinaryStream.advance w size).
Proof. intros Hsize. destruct size; [contradiction|reflexivity..]. Qed.

(** The array readers move the index by the byte length of the array. *)
Lemma readInt32Array_advances (view : BinaryStream.view_arg Z) (w : BinaryStream.world) :
  exists data,
    BinaryStream.readInt32Array view w
    = Ok (data, BinaryStream.advance w (4 * Z.of_nat (BinaryStream.view_length view)))
    /\ length data = BinaryStream.view_length view.
Proof.
  eexists. split; [reflexivity|]. unfold BinaryStream.fill.
  now rewrite length_fmap, length_seq.
Qed.

(** C3. [substream(n)] gives a stream on the same buffer whose array starts
    at the parent's index and has [n] elements, and leaves the parent alone;
    but the new stream's [byteLength] is the length of the whole buffer, so
    [remaining()] is not [n]: on a buffer of 8 bytes, at index 2,
    [substream(3)] has 8 bytes remaining. *)
Theorem substream_byteLength_is_whole_buffer :
  exists sub,
    BinaryStream.substream Examples.bytes8 (Examples.on_bytes8 2) 3 = Ok sub
    /\ BinaryStream.buffer sub = BinaryStream.buffer (Examples.on_bytes8 2)
    /\ BinaryStream.byteOffset sub = 2%nat
    /\ BinaryStream.viewLength sub = 3%nat
    /\ BinaryStream.byteLength sub = 8
    /\ BinaryStream.remaining sub = 8.
Proof.
  eexists. split; [reflexivity|]. cbn. repeat split.
Qed.

(** C4. [read(0)] does not read zero bytes: 0 is falsy, so the size becomes
    [remaining()], and on four bytes "ABCD" the call returns all of them and
    moves the index by 4. *)
Theorem read_zero_reads_everything :
  let w := BinaryStream.World [[65; 66; 67; 68]]
             {| BinaryStream.buffer := 0; BinaryStream.byteOffset := 0;
                BinaryStream.viewLength := 4; BinaryStream.index := 0;
                BinaryStream.byteLength := 4 |} in
  BinaryStream.read (Some 0) false w = Ok ("ABCD"%js, BinaryStream.advance w 4).
Proof. reflexivity. Qed.

(** C8. [readInt32Array] converts with [uint8ToInt16]: an element is the
    16-bit integer of the first two bytes of its four.  On the bytes
    0, 0, 1, 0 [readInt32] gives 65536 and [readInt32Array(1)] gives [0];
    both move the index by 4. *)
Theorem readInt32Array_reads_16_bits :
  let w := BinaryStream.World Examples.bytes8 (Examples.on_bytes8 4) in
  BinaryStream.readInt32 w = Ok (65536, BinaryStream.advance w 4)
  /\ BinaryStream.readInt32Array (BinaryStream.OfLength 1) w
     = Ok ([0], BinaryStream.advance w 4).
Proof. split; reflexivity. Qed.

(** ** [TokenStream] *)

(** C5. A token that runs to the end of the input is lost: the loop of
    [read] ends with the buffer and the function returns nothing, with the
    index at the end.  The same token followed by a space is returned. *)
Theorem read_drops_token_at_end_of_input :
  TokenStream.read (TokenStream.new (Some "abc"%js))
  = (None, TokenStream.with_index (TokenStream.new (Some "abc"%js)) 3)
  /\ fst (TokenStream.read (TokenStream.new (Some "abc "%js)))
     = Some "abc"%js.
Proof. split; reflexivity. Qed.

(** C6. On the text of the comment of [read], seven calls give [Header],
    [A String], the opening brace, [Name], [Value], the closing brace, and
    then nothing. *)
Theorem read_header_example :
  Examples.read_times 7 (TokenStream.new (Some Examples.header))
  = [Some "Header"; Some "A String"; Some "{"; Some "Name"; Some "Value";
     Some "}"; None]%js.
Proof. reflexivity. Qed.

(** ** [MdxSdSequence] *)

Section MdxSdSequenceFacts.
Import MdxSdSequence.
Context `{JsFloat}.

Lemma kept_in_range (start end_ : Z) (ks : list keyframe) :
  Forall (fun k => start <= frame k <= end_) (List.filter (in_range start end_) ks).
Proof.
  induction ks as [|k ks IH]; cbn; [constructor|].
  destruct (in_range start end_ k) eqn:E; [|exact IH].
  constructor; [|exact IH].
  unfold in_range in E. apply andb_true_iff in E as [E1 E2]. lia.
Qed.

Lemma classify_keeps (sd : MdxSd) (start end_ : Z) (kept : list keyframe) k :
  In k kept -> In k (keyframes (classify sd start end_ kept)).
Proof.
  unfold classify. destruct kept as [|first [|second rest]]; try (cbn; tauto).
  destruct (negb (existsb _ _)); [cbn; tauto|].
  cbn [keyframes]. intros Hk.
  destruct (negb (frame first =? start));
    destruct (negb (frame (List.last _ first) =? end_));
    rewrite ?in_app_iff; cbn [In] in *; tauto.
Qed.

(** A keyframe of the sequence that was not kept was injected, at [start]
    or at [end], into at least two kept ones. *)
Lemma classify_from (sd : MdxSd) (start end_ : Z) (kept : list keyframe) k :
  In k (keyframes (classify sd start end_ kept)) ->
  In k kept \/ (frame k = start \/ frame k = end_) /\ (2 <= length kept)%nat.
Proof.
  unfold classify. destruct kept as [|first [|second rest]]; try (cbn; tauto).
  destruct (negb (existsb _ _)); [cbn; tauto|].
  cbn [keyframes length]. intros Hk.
  destruct (negb (frame first =? start));
    destruct (negb (frame (List.last _ first) =? end_));
    rewrite ?in_app_iff in Hk; cbn [In hd] in *;
    intuition (subst; cbn; auto with lia).
Qed.

(** C10. A global sequence over [0, end] whose first keyframe lies after
    [end] keeps that keyframe; when no keyframe lies in the range it is
    the only one kept, and the sequence is constant with its value.  No
    other case keeps a keyframe from outside: without a global sequence,
    or with a first keyframe not after [end], every keyframe of the
    sequence lies in the range. *)
Theorem global_sequence_first_key_outside
  (sd : MdxSd) (end_ : Z) (k0 : keyframe) (rest : list keyframe) :
  end_ < frame k0 ->
  (exists seq,
     new sd 0 end_ (k0 :: rest) true = Ok seq
     /\ In k0 (keyframes seq)
     /\ (List.filter (in_range 0 end_) rest = [] ->
         keyframes seq = [k0] /\ constant seq = true
         /\ this_value seq = Some (value k0)))
  /\ (forall start ks isGlobalSequence seq,
        new sd start end_ ks isGlobalSequence = Ok seq ->
        isGlobalSequence = false \/ (exists k rest', ks = k :: rest' /\ frame k <= end_) ->
        Forall (fun k => start <= frame k <= end_) (keyframes seq)).
Proof.
  intros Hout. split.
  - unfold new. cbn [first_key_outside].
    replace (frame k0 >? end_) with true by lia.
    eexists. split; [reflexivity|]. split.
    + apply classify_keeps. now left.
    + intros Hnone.
      assert (in_range 0 end_ k0 = false) as E
        by (unfold in_range; apply andb_false_iff; right; lia).
      cbn [List.filter]. rewrite E, Hnone. cbn. auto.
  - intros start ks g seq Hnew Hcase. unfold new in Hnew.
    assert (first_key_outside end_ ks g = Ok []) as E.
    { unfold first_key_outside.
      destruct Hcase as [->|(k & r & -> & Hk)]; [reflexivity|].
      destruct g; [|reflexivity].
      replace (frame k >? end_) with false by lia. reflexivity. }
    rewrite E in Hnew. injection Hnew as <-. cbn [app].
    pose proof (kept_in_range start end_ ks) as Hrange.
    rewrite List.Forall_forall in *. intros k Hk.
    destruct (classify_from _ _ _ _ _ Hk) as [Hk'|[Hk' Hlen]]; [now apply Hrange|].
    destruct (List.filter (in_range start end_) ks) as [|a l]; [cbn in Hlen; lia|].
    specialize (Hrange a (or_introl eq_refl)). cbn in Hrange. lia.
Qed.
End MdxSdSequenceFacts.

(** The global sequence [0, 100] of a track with keys at 200 and 300. *)
Lemma global_sequence_first_key_outside_witness :
  100 < MdxSdSequence.frame (Examples.key 200 5)
  /\ exists seq,
       MdxSdSequence.new Examples.sd0 0 100
         [Examples.key 200 5; Examples.key 300 6] true = Ok seq
       /\ MdxSdSequence.keyframes seq = [Examples.key 200 5]
       /\ MdxSdSequence.constant seq = true
       /\ MdxSdSequence.this_value seq = Some (Examples.scalar 5).
Proof.
  assert (100 < MdxSdSequence.frame (Examples.key 200 5)) as Hout by (cbn; lia).
  split; [exact Hout|].
  destruct (global_sequence_first_key_outside Examples.sd0 100
              (Examples.key 200 5) [Examples.key 300 6] Hout)
    as [(seq & Hnew & _ & Honly) _].
  exists seq. split; [exact Hnew|]. apply Honly. reflexivity.
Defined.

(** ** Block iteration and the text loaders *)

Section BlockFacts.
Import TokenStream.
Context {A : Type} (body : option string -> A -> t -> option (Result (A * t))).

(** The rounds that end normally use one unit of fuel each. *)
Lemma block_loop_rounds n a s a' s' :
  rounds body n a s a' s' ->
  forall fuel, block_loop body (n + fuel) a s = block_loop body fuel a' s'.
Proof.
  induction 1 as [|n a s token s1 a1 s2 a' s' Hread Hkey Hbody _ IH]; intros fuel.
  - reflexivity.
  - cbn [Nat.add block_loop]. rewrite Hread, Hkey, Hbody. apply IH.
Qed.

(** A round whose body throws ends the loop with that error. *)
Lemma block_loop_throws n a s a' s' e fuel :
  rounds body n a s a' s' ->
  token_is (fst (read s')) "}" = false ->
  body (fst (read s')) a' (snd (read s')) = Some (Throw e) ->
  (n < fuel)%nat ->
  block_loop body fuel a s = Some (Throw e).
Proof.
  intros Hrounds Hkey Hbody Hfuel.
  replace fuel with (n + S (fuel - S n))%nat by lia.
  rewrite (block_loop_rounds _ _ _ _ _ Hrounds). cbn [block_loop].
  destruct (read s') as [token s1]. cbn [fst snd] in *.
  rewrite Hkey, Hbody. reflexivity.
Qed.
End BlockFacts.


Section TextLoaders.
Import TokenStream.
Context `{JsFloat} {Animations : Type} `{!AnimatedObject Animations}.

Ltac known_key Hkeys key :=
  let E := fresh in
  assert (E : token_is _ key = false) by (apply Hkeys; cbn; tauto);
  rewrite E; clear E.

Lemma Texture_body_unknown token this s :
  unknown_key Texture.keys token ->
  Texture.readMdl_body token this s
  = Some (Throw (Error (Texture.unknown_token token))).
Proof.
  intros [_ Hkeys]. unfold Texture.readMdl_body.
  known_key Hkeys "Image"%js. known_key Hkeys "ReplaceableId"%js.
  known_key Hkeys "WrapWidth"%js. known_key Hkeys "WrapHeight"%js.
  reflexivity.
Qed.

Lemma Camera_target_unknown token (this : Camera.t) s :
  unknown_key Camera.target_keys token ->
  Camera.target_body token this s
  = Some (Throw (Error (Camera.unknown_target_token this token))).
Proof.
  intros [_ Hkeys]. unfold Camera.target_body.
  known_key Hkeys "Position"%js. known_key Hkeys "Translation"%js.
  reflexivity.
Qed.

Lemma Camera_body_unknown fuel token (this : Camera.t) s :
  unknown_key Camera.keys token ->
  Camera.readMdl_body fuel token this s
  = Some (Throw (Error (Camera.unknown_token this token))).
Proof.
  intros [_ Hkeys]. unfold Camera.readMdl_body.
  known_key Hkeys "Position"%js. known_key Hkeys "Translation"%js.
  known_key Hkeys "Rotation"%js. known_key Hkeys "FieldOfView"%js.
  known_key Hkeys "FarClip"%js. known_key Hkeys "NearClip"%js.
  known_key Hkeys "Target"%js.
  reflexivity.
Qed.

Lemma this_readAnimation_name (this this' : Camera.t) s s' key :
  Camera.this_readAnimation this s key = Some (Ok (this', s')) ->
  Camera.name this' = Camera.name this.
Proof.
  unfold Camera.this_readAnimation.
  destruct (readAnimation _ _ _) as [[a s0]|e]; intros [= <- <-]. reflexivity.
Qed.

Lemma target_body_name token (this : Camera.t) s (this' : Camera.t) s' :
  Camera.target_body token this s = Some (Ok (this', s')) ->
  Camera.name this' = Camera.name this.
Proof.
  unfold Camera.target_body. intros Hbody.
  repeat match type of Hbody with
         | context [if ?c then _ else _] => destruct c
         | context [let '(_, _) := ?p in _] => destruct p
         end;
    try (injection Hbody as <- <-; reflexivity);
    try discriminate;
    eauto using this_readAnimation_name.
Qed.

Lemma block_loop_name {B} (body : option string -> B -> t -> option (Result (B * t)))
  (name : B -> option string) :
  (forall token a s a' s', body token a s = Some (Ok (a', s')) -> name a' = name a) ->
  forall fuel a s a' s',
    block_loop body fuel a s = Some (Ok (a', s')) -> name a' = name a.
Proof.
  intros Hbody. induction fuel as [|fuel IH]; intros a s a' s'; [discriminate|].
  cbn [block_loop]. destruct (read s) as [token s1].
  destruct (token_is token "}"); [intros [= <- <-]; reflexivity|].
  destruct (body token a s1) as [[[a1 s2]|e]|] eqn:E; try discriminate.
  intros Hloop. rewrite (IH _ _ _ _ Hloop). eauto.
Qed.

Lemma Camera_body_name fuel token (this : Camera.t) s (this' : Camera.t) s' :
  Camera.readMdl_body fuel token this s = Some (Ok (this', s')) ->
  Camera.name this' = Camera.name this.
Proof.
  unfold Camera.readMdl_body, for_readBlock. intros Hbody.
  repeat match type of Hbody with
         | context [if ?c then _ else _] => destruct c
         | context [let '(_, _) := ?p in _] => destruct p
         end;
    try (injection Hbody as <- <-; reflexivity);
    try discriminate;
    eauto using this_readAnimation_name.
  apply (block_loop_name _ Camera.name target_body_name) in Hbody. exact Hbody.
Qed.

Lemma rounds_name {B} (body : option string -> B -> t -> option (Result (B * t)))
  (name : B -> option string) :
  (forall token a s a' s', body token a s = Some (Ok (a', s')) -> name a' = name a) ->
  forall n a s a' s', rounds body n a s a' s' -> name a' = name a.
Proof.
  intros Hbody. induction 1 as [|n a s token s1 a1 s2 a' s' _ _ Hstep _ IH];
    [reflexivity|].
  rewrite IH. eauto.
Qed.

(** C9. A text loader throws at the first token of its block that is not
    one of its keys, with a message that quotes the token: once the rounds
    before it have ended normally, the result of the whole loader is that
    error, whatever follows in the text.  [Texture.readMdl] does so for a
    token other than its four keys, [Camera.readMdl] for a token other than
    its keys in the camera's block and in a [Target] block, and its
    messages carry the name read in front of the block. *)
Theorem unknown_token_throws :
  (forall fuel n (this this' : Texture.t) stream s',
     rounds Texture.readMdl_body n this (snd (read stream)) this' s' ->
     unknown_key Texture.keys (fst (read s')) ->
     (n < fuel)%nat ->
     Texture.readMdl fuel this stream
     = Some (Throw (Error (Texture.unknown_token (fst (read s'))))))
  /\ (forall fuel n (this this' : Camera.t) stream s',
        rounds (Camera.readMdl_body fuel) n
          (Camera.with_name this (fst (read stream)))
          (snd (read (snd (read stream)))) this' s' ->
        unknown_key Camera.keys (fst (read s')) ->
        (n < fuel)%nat ->
        Camera.readMdl fuel this stream
        = Some (Throw (Error (Camera.unknown_token this' (fst (read s')))))
        /\ Camera.name this' = fst (read stream))
  /\ (forall fuel n m (this this' this'' : Camera.t) stream s' s'',
        rounds (Camera.readMdl_body fuel) n
          (Camera.with_name this (fst (read stream)))
          (snd (read (snd (read stream)))) this' s' ->
        fst (read s') = Some "Target"%js ->
        rounds Camera.target_body m this' (snd (read (snd (read s')))) this'' s'' ->
        unknown_key Camera.target_keys (fst (read s'')) ->
        (n < fuel)%nat -> (m < fuel)%nat ->
        Camera.readMdl fuel this stream
        = Some (Throw (Error (Camera.unknown_target_token this'' (fst (read s'')))))
        /\ Camera.name this'' = fst (read stream)).
Proof.
  split; [|split].
  - intros fuel n this this' stream s' Hrounds Hunknown Hfuel.
    unfold Texture.readMdl, for_readBlock.
    destruct (read stream) as [brace s0]. cbn [snd] in Hrounds.
    eapply block_loop_throws; eauto using Texture_body_unknown.
    exact (proj1 Hunknown).
  - intros fuel n this this' stream s' Hrounds Hunknown Hfuel. split.
    + unfold Camera.readMdl, for_readBlock.
      destruct (read stream) as [name s0]. cbn [fst snd] in Hrounds.
      destruct (read s0) as [brace s1]. cbn [snd] in Hrounds.
      eapply block_loop_throws; eauto using Camera_body_unknown.
      exact (proj1 Hunknown).
    + apply (rounds_name _ Camera.name (Camera_body_name fuel)) in Hrounds.
      exact Hrounds.
  - intros fuel n m this this' this'' stream s' s'' Hrounds Htarget Hinner
      Hunknown Hn Hm. split.
    + unfold Camera.readMdl, for_readBlock.
      destruct (read stream) as [name s0]. cbn [fst snd] in Hrounds.
      destruct (read s0) as [brace s1]. cbn [snd] in Hrounds.
      eapply block_loop_throws; eauto.
      * rewrite Htarget. reflexivity.
      * rewrite Htarget. unfold Camera.readMdl_body, for_readBlock. cbn.
        destruct (read (snd (read s'))) as [brace' s2]. cbn [snd] in Hinner.
        eapply block_loop_throws; eauto using Camera_target_unknown.
        exact (proj1 Hunknown).
    + apply (rounds_name _ Camera.name target_body_name) in Hinner.
      apply (rounds_name _ Camera.name (Camera_body_name fuel)) in Hrounds.
      rewrite Hinner. exact Hrounds.
Qed.

End TextLoaders.

Lemma unknown_token_throws_witness :
  Texture.readMdl (H := Instances.integers) 2 Texture.empty
    (TokenStream.new (Some Examples.texture_text))
  = Some (Throw (Error ("Unknown token in Texture: " ++ Examples.quoted "Foo")))
  /\ Camera.readMdl (AnimatedObject0 := Instances.stateless) 2 Examples.camera0
       (TokenStream.new (Some Examples.camera_text))
     = Some (Throw (Error ("Unknown token in Camera Cam: " ++ Examples.quoted "Baz")))
  /\ Camera.readMdl (AnimatedObject0 := Instances.stateless) 2 Examples.camera0
       (TokenStream.new (Some Examples.camera_target_text))
     = Some (Throw (Error ("Unknown token in Camera Cam's Target: "
                           ++ Examples.quoted "Bar"))).
Proof.
  pose proof (unknown_token_throws (H := Instances.integers)
                (AnimatedObject0 := Instances.stateless)) as (HT & HC & HCT).
  assert (forall keys token,
             forallb (fun key => negb (TokenStream.token_is token key)) ("}"%js :: keys)
             = true -> TokenStream.unknown_key keys token) as Hunknown.
  { intros keys token Hall. rewrite forallb_forall in Hall. split.
    - apply negb_true_iff, Hall. now left.
    - intros key Hkey. apply negb_true_iff, Hall. now right. }
  split; [|split].
  - etransitivity.
    + eapply (HT 2%nat 1%nat).
      * eapply TokenStream.rounds_S; [reflexivity..|apply TokenStream.rounds_O].
      * apply Hunknown. reflexivity.
      * lia.
    + reflexivity.
  - etransitivity.
    + eapply (HC 2%nat 1%nat).
      * eapply TokenStream.rounds_S; [reflexivity..|apply TokenStream.rounds_O].
      * apply Hunknown. reflexivity.
      * lia.
    + reflexivity.
  - etransitivity.
    + eapply (HCT 2%nat 1%nat 1%nat).
      * eapply TokenStream.rounds_S; [reflexivity..|apply TokenStream.rounds_O].
      * reflexivity.
      * eapply TokenStream.rounds_S; [reflexivity..|apply TokenStream.rounds_O].
      * apply Hunknown. reflexivity.
      * lia.
      * lia.
    + reflexivity.
Defined.

(** ** Reading back what [TokenStream] writes *)

Section TokenStreamFacts.
Import TokenStream.
Local Open Scope js_scope.

Lemma append_assoc (a b c : string) : (a ++ b) ++ c = a ++ (b ++ c).
Proof. induction a as [|x a IH]; cbn; [reflexivity|]. now rewrite IH. Qed.

Lemma length_append (a b : string) :
  JsString.length (a ++ b) = (JsString.length a + JsString.length b)%nat.
Proof. induction a as [|x a IH]; cbn; [reflexivity|]. now rewrite IH. Qed.

Lemma drop_append (a b : string) : drop (JsString.length a) (a ++ b) = b.
Proof. induction a as [|x a IH]; cbn; [reflexivity|]. exact IH. Qed.

Lemma drop_plus (n m : nat) (s : string) : drop (n + m) s = drop m (drop n s).
Proof.
  revert s. induction n as [|n IH]; intros s; cbn; [reflexivity|].
  destruct s as [|c s]; [now destruct m|]. apply IH.
Qed.

Lemma length_repeat_tab (n : nat) : JsString.length (repeat_tab n) = n.
Proof. induction n as [|n IH]; cbn; [reflexivity|]. now rewrite IH. Qed.

(** [read] on a stream whose text from the index on is [rest]. *)
Lemma read_from (s : t) (rest : string) :
  drop (index s) (buffer s) = rest ->
  read s = (fst (read_loop rest (index s) false false EmptyString),
            with_index s (snd (read_loop rest (index s) false false EmptyString))).
Proof.
  intros <-. unfold read. now destruct (read_loop _ _ _ _ _).
Qed.

Lemma plain_char_falls_through (c : char) :
  plain_char c = true ->
  is_separator c = false /\ is_brace c = false
  /\ eqc c "/"%jschar = false /\ eqc c quote = false.
Proof.
  unfold plain_char. rewrite negb_true_iff, !orb_false_iff. tauto.
Qed.

Lemma nonempty_append (a b : string) :
  nonempty b = true -> nonempty (a ++ b) = true.
Proof. destruct a; cbn; auto. Qed.

(** A run of plain characters before a separator is one token, added to
    what the loop holds, and the separator is consumed with it. *)
Lemma read_loop_plain (token : string) :
  forall (acc rest : string) (d : char) (i : nat),
    all_plain token = true ->
    is_separator d = true ->
    nonempty (acc ++ token) = true ->
    read_loop (token ++ String d rest) i false false acc
    = (Some (acc ++ token), (i + JsString.length token + 1)%nat).
Proof.
  induction token as [|c token IH]; intros acc rest d i Hplain Hsep Hne.
  - cbn. rewrite Hsep. replace (acc ++ EmptyString) with acc in *
      by (clear; induction acc as [|x acc IH]; cbn; [reflexivity|now rewrite <- IH]).
    rewrite Hne. f_equal. lia.
  - cbn in Hplain. apply andb_true_iff in Hplain as [Hc Hplain].
    apply plain_char_falls_through in Hc as (E1 & E2 & E3 & E4).
    cbn [JsString.append read_loop]. rewrite E1, E2, E3, E4. cbn [andb].
    rewrite (IH (acc ++ String c EmptyString) rest d (S i) Hplain Hsep).
    + rewrite append_assoc. cbn. f_equal. lia.
    + rewrite append_assoc. exact Hne.
Qed.

(** At the end of the buffer the same run is dropped: the loop ends and
    nothing is returned. *)
Lemma read_loop_plain_at_end (token : string) :
  forall (acc : string) (i : nat),
    all_plain token = true ->
    read_loop token i false false acc = (None, (i + JsString.length token)%nat).
Proof.
  induction token as [|c token IH]; intros acc i Hplain.
  - cbn. f_equal. lia.
  - cbn in Hplain. apply andb_true_iff in Hplain as [Hc Hplain].
    apply plain_char_falls_through in Hc as (E1 & E2 & E3 & E4).
    cbn [read_loop]. rewrite E1, E2, E3, E4. cbn [andb].
    rewrite (IH _ (S i) Hplain). cbn. f_equal. lia.
Qed.

(** The same from a stream: separators before the token are skipped. *)
Lemma read_plain (s : t) (sep : char) (token : string) (d : char) (rest : string) :
  drop (index s) (buffer s) = String sep (token ++ String d rest) ->
  is_separator sep = true ->
  is_plain token = true ->
  is_separator d = true ->
  read s = (Some token, with_index s (index s + JsString.length token + 2)).
Proof.
  intros Hrest Hsep Hplain Hd. rewrite (read_from s _ Hrest).
  apply andb_true_iff in Hplain as [Hne Hplain].
  cbn [read_loop]. rewrite Hsep. cbn [nonempty].
  rewrite read_loop_plain by assumption. cbn. do 2 f_equal. lia.
Qed.

(** A brace is a token by itself when no token is being read. *)
Lemma read_brace (s : t) (c : char) (rest : string) :
  drop (index s) (buffer s) = String c rest ->
  is_separator c = false ->
  is_brace c = true ->
  read s = (Some (String c EmptyString), with_index s (S (index s))).
Proof.
  intros Hrest Hsep Hbrace. rewrite (read_from s _ Hrest).
  cbn [read_loop]. rewrite Hsep, Hbrace. reflexivity.
Qed.

Lemma drop_past (i : nat) (b pre rest : string) :
  drop i b = pre ++ rest -> drop (i + JsString.length pre) b = rest.
Proof. intros E. rewrite drop_plus, E. apply drop_append. Qed.

(** Where the stream is after [read_plain]. *)
Lemma read_plain_next (s : t) (sep : char) (token : string) (d : char) (rest : string) :
  drop (index s) (buffer s) = String sep (token ++ String d rest) ->
  drop (index s + JsString.length token + 2) (buffer s) = rest.
Proof.
  intros E.
  replace (index s + JsString.length token + 2)%nat
    with (index s + JsString.length (String sep (token ++ String d EmptyString)))%nat
    by (cbn; rewrite length_append; cbn; lia).
  apply drop_past. rewrite E. cbn. now rewrite append_assoc.
Qed.

Context `{JsFloat}.

(** The text of a colour after its name and the space: what [readColor]
    is given. *)
Lemma writeColor_text (name : string) (c0 c1 c2 : float) (s : t) :
  0 <= ident s ->
  exists s',
    writeColor name [c0; c1; c2] s = Ok s'
    /\ index s' = index s /\ ident s' = ident s
    /\ drop (after_name s name) (buffer s')
       = "{ " ++ toString c2 ++ ", " ++ toString c1 ++ ", " ++ toString c0
         ++ " }," ++ String newline EmptyString.
Proof.
  intros Hident. unfold writeColor, writeLine.
  replace (ident s <? 0)%Z with false by lia.
  eexists. split; [reflexivity|]. cbn [buffer index ident element_text].
  repeat split. unfold after_name. cbn [lookup list_lookup].
  rewrite <- (length_repeat_tab (Z.to_nat (ident s))) at 1.
  rewrite <- !Nat.add_assoc, !drop_plus, !drop_append.
  rewrite append_assoc, drop_append. cbn.
  rewrite !append_assoc. cbn. rewrite !append_assoc. cbn.
  rewrite !append_assoc. reflexivity.
Qed.

(** C7. A colour of three numbers written by [writeColor] and read back by
    [readColor], from where the reader of the name leaves the stream, is
    stored again as it was: the writer emits the elements 2, 1, 0 and the
    reader stores what it reads into 2, 1, 0.  The numbers are those whose
    text is read back as one token and parsed to the number itself. *)
Theorem color_round_trip (name : string) (c0 c1 c2 : float) (view : list float)
  (s : t) :
  length view = 3%nat ->
  0 <= ident s ->
  Forall (fun x => is_plain (toString x) = true
                   /\ fround (parseFloat (Some (toString x))) = x) [c0; c1; c2] ->
  exists s',
    writeColor name [c0; c1; c2] s = Ok s'
    /\ fst (readColor view (with_index s' (after_name s name))) = [c0; c1; c2].
Proof.
  intros Hview Hident Hnumbers.
  destruct (writeColor_text name c0 c1 c2 s Hident) as (s' & Hwrite & _ & _ & Htext).
  exists s'. split; [exact Hwrite|].
  apply Forall_cons_1 in Hnumbers as [[P0 R0] Hnumbers].
  apply Forall_cons_1 in Hnumbers as [[P1 R1] Hnumbers].
  apply Forall_cons_1 in Hnumbers as [[P2 R2] _].
  destruct view as [|v0 [|v1 [|v2 [|]]]]; try discriminate. clear Hview.
  set (s0 := with_index s' (after_name s name)).
  assert (drop (index s0) (buffer s0) = drop (after_name s name) (buffer s')) as E0
    by reflexivity.
  rewrite Htext in E0. cbn [JsString.append] in E0.
  unfold readColor, readFloat.
  (* { *)
  rewrite (read_brace s0 _ _ E0) by reflexivity.
  set (s1 := with_index s0 _).
  pose proof (drop_past _ _ "{" _ E0) as E1. cbn [JsString.length] in E1.
  replace (index s0 + 1)%nat with (index s1) in E1
    by (unfold s1; cbn [index with_index]; lia).
  change (buffer s0) with (buffer s1) in E1.
  (* the three numbers *)
  rewrite (read_plain s1 _ _ _ _ E1) by (assumption || reflexivity).
  apply read_plain_next in E1. set (s2 := with_index s1 _).
  change (drop (index s2) (buffer s2) = " " ++ toString c1 ++ ", " ++ toString c0
            ++ " }," ++ String newline EmptyString) in E1. cbn [JsString.append] in E1.
  rewrite (read_plain s2 _ _ _ _ E1) by (assumption || reflexivity).
  apply read_plain_next in E1. set (s3 := with_index s2 _).
  change (drop (index s3) (buffer s3) = " " ++ toString c0
            ++ " }," ++ String newline EmptyString) in E1. cbn [JsString.append] in E1.
  rewrite (read_plain s3 _ _ _ _ E1) by (assumption || reflexivity).
  destruct (read (with_index s3 _)) as [brace s4]. cbn.
  now rewrite R0, R1, R2.
Qed.

End TokenStreamFacts.

(** The colour 255, 128, 0 under the integers, written as [Color] on a
    fresh stream and read into a zeroed array. *)
Lemma color_round_trip_witness :
  exists s',
    TokenStream.writeColor (H := Instances.integers) "Color" [255; 128; 0]
      (TokenStream.new None) = Ok s'
    /\ fst (TokenStream.readColor (H := Instances.integers) [0; 0; 0]
              (TokenStream.with_index s'
                 (TokenStream.after_name (TokenStream.new None) "Color")))
       = [255; 128; 0].
Proof.
  apply (color_round_trip (H := Instances.integers) "Color" 255 128 0 [0; 0; 0]
           (TokenStream.new None)).
  - reflexivity.
  - cbn. lia.
  - repeat constructor.
Defined.

(** ** Byte lengths *)

Section ByteLengths.
Import BinaryStream.

Lemma advances_eq (m : M unit) (a b : Z) : Sub.advances m a -> a = b -> Sub.advances m b.
Proof. now intros Hm <-. Qed.

Lemma advances_ret : Sub.advances (ret tt) 0.
Proof. intros w. exists w. split; [reflexivity|lia]. Qed.

Lemma advances_bind (m k : M unit) (a b : Z) :
  Sub.advances m a -> Sub.advances k b -> Sub.advances (m ;; k) (a + b).
Proof.
  intros Hm Hk w. destruct (Hm w) as (w1 & E1 & I1). destruct (Hk w1) as (w2 & E2 & I2).
  exists w2. unfold mbind, M_bind, bind. rewrite E1. split; [exact E2|lia].
Qed.

Lemma advances_put (bytes : list Z) : Sub.advances (put bytes) (Z.of_nat (length bytes)).
Proof. intros w. eexists. split; reflexivity. Qed.

Lemma length_charCodes (s : string) : length (charCodes s) = JsString.length s.
Proof.
  unfold charCodes. rewrite length_fmap.
  induction s as [|c s IH]; cbn; [reflexivity|]. now rewrite IH.
Qed.

Lemma advances_write (s : string) : Sub.advances (write s) (Z.of_nat (JsString.length s)).
Proof. unfold write. rewrite <- length_charCodes. apply advances_put. Qed.

Lemma advances_write_nul (s : string) :
  Sub.advances (write (s ++ String (JsString.char_of_nat 0) EmptyString))
    (Z.of_nat (JsString.length s) + 1).
Proof.
  eapply advances_eq; [apply advances_write|].
  rewrite length_append. cbn. lia.
Qed.

Lemma advances_writeInt32 (v : Z) : Sub.advances (writeInt32 v) 4.
Proof. apply (advances_put (Typecast.int32ToUint8 v)). Qed.

Lemma advances_writeUint32 (v : Z) : Sub.advances (writeUint32 v) 4.
Proof. apply (advances_put (Typecast.uint32ToUint8 v)). Qed.

Lemma length_concat_chunks {T} (f : T -> list Z) (n : nat) (l : list T) :
  (forall x, length (f x) = n) -> length (concat (f <$> l)) = (n * length l)%nat.
Proof.
  intros Hf. induction l as [|x l IH]; cbn; [lia|].
  rewrite length_app, Hf, IH. lia.
Qed.

Lemma advances_writeInt32Array (view : list Z) :
  Sub.advances (writeInt32Array view) (4 * Z.of_nat (length view)).
Proof.
  eapply advances_eq; [apply advances_put|].
  rewrite (length_concat_chunks _ 4); [lia|reflexivity].
Qed.

Lemma advances_writeFloat32 `{JsFloat} (v : float) : Sub.advances (writeFloat32 v) 4.
Proof.
  eapply advances_eq; [apply advances_put|].
  unfold float32_bytes. now destruct (float32ToUint8 v) as [[[? ?] ?] ?].
Qed.

Lemma advances_writeFloat32Array `{JsFloat} (view : list float) :
  Sub.advances (writeFloat32Array view) (4 * Z.of_nat (length view)).
Proof.
  eapply advances_eq; [apply advances_put|].
  rewrite (length_concat_chunks _ 4); [lia|].
  intros x. unfold float32_bytes. now destruct (float32ToUint8 x) as [[[? ?] ?] ?].
Qed.

Lemma advances_writeUint8Array (view : list Z) :
  Sub.advances (writeUint8Array view) (Z.of_nat (length view)).
Proof. apply advances_put. Qed.

Lemma sum_byteLength_total {T} `{Sub.Record T} (size : Z) (l : list T) :
  Sub.sum_byteLength size l = size + foldr (fun x n => Sub.getByteLength x + n) 0 l.
Proof.
  revert size. induction l as [|x l IH]; intros size; cbn; [lia|].
  rewrite IH. lia.
Qed.

Lemma total_nonneg {T} (size : T -> Z) (l : list T) :
  (forall x, 0 <= size x) -> 0 <= foldr (fun x n => size x + n) 0 l.
Proof.
  intros Hsize. induction l as [|x l IH]; cbn; [lia|]. specialize (Hsize x). lia.
Qed.

Lemma advances_save_all {T} `{Sub.Record T} (size : T -> Z) (l : list T) :
  Sub.writes_exactly Sub.save size ->
  Sub.advances (Sub.save_all l) (foldr (fun x n => size x + n) 0 l).
Proof.
  intros Hexact. induction l as [|x l IH]; cbn.
  - apply advances_ret.
  - apply advances_bind; [apply Hexact|exact IH].
Qed.


(** A fresh buffer of [size] bytes and a stream on it at index 0. *)
Lemma open_fresh (h : heap) (size : Z) :
  0 <= size ->
  exists w, Sub.open h size = Ok w
            /\ index (stream w) = 0
            /\ stream w = mk (length h) 0 (Z.to_nat size) 0 size
            /\ mem w !! length h = Some (replicate (Z.to_nat size) 0).
Proof.
  intros Hsize. unfold Sub.open, alloc.
  replace (size <? 0) with false by lia. cbv beta iota. unfold new.
  assert ((h ++ [replicate (Z.to_nat size) 0]) !! length h
          = Some (replicate (Z.to_nat size) 0)) as E
    by (rewrite lookup_app_r by done; rewrite Nat.sub_diag; reflexivity).
  rewrite E, length_replicate.
  assert (new_Uint8Array (Z.to_nat size) None None = Ok (0%nat, Z.to_nat size)) as ->.
  { unfold new_Uint8Array. cbn [default].
    destruct (Z.ltb_spec (Z.of_nat (Z.to_nat size)) 0); [lia|].
    cbn. do 2 f_equal. lia. }
  eexists. split; [reflexivity|]. cbn [mem stream index].
  rewrite E. repeat split. f_equal. lia.
Qed.

Lemma advances_when (c : bool) (m : M unit) (a : Z) :
  Sub.advances m a -> Sub.advances (War3MapW3i.when c m) (if c then a else 0).
Proof. destruct c; [auto|intros _; apply advances_ret]. Qed.

Ltac advance :=
  repeat first
    [ eapply advances_bind
    | eapply advances_when
    | apply advances_writeInt32
    | apply advances_writeUint32
    | apply advances_write_nul
    | apply advances_write
    | apply advances_writeInt32Array
    | apply advances_writeFloat32Array
    | apply advances_writeFloat32
    | apply advances_writeUint8Array
    | apply advances_ret
    | apply advances_save_all; eassumption ].

Section Wct.
Context {CustomTextTrigger : Type} `{!Sub.Record CustomTextTrigger}.
Hypothesis trigger_exact : Sub.exact CustomTextTrigger.

Lemma Wct_getByteLength (this : War3MapWct.t CustomTextTrigger) :
  (War3MapWct.version this = 1 -> War3MapWct.trigger this <> None) ->
  exists size, War3MapWct.getByteLength this = Ok size /\ 0 <= size.
Proof.
  intros Htrigger. unfold War3MapWct.getByteLength.
  pose proof (total_nonneg Sub.getByteLength (War3MapWct.triggers this)
                (fun x => proj1 (trigger_exact x))).
  destruct (Z.eqb_spec (War3MapWct.version this) 1) as [E|E].
  - destruct (War3MapWct.trigger this) as [x|]; [|now destruct Htrigger].
    eexists. split; [reflexivity|]. rewrite sum_byteLength_total.
    destruct (trigger_exact x). lia.
  - eexists. split; [reflexivity|]. rewrite sum_byteLength_total. lia.
Qed.


End Wct.

Section W3i.
Context `{JsFloat}.
Context {Player Force UpgradeAvailabilityChange TechAvailabilityChange
         RandomUnitTable RandomItemTable : Type}.
Context `{!Sub.Record Player} `{!Sub.Record Force}
        `{!Sub.Record UpgradeAvailabilityChange}
        `{!Sub.Record TechAvailabilityChange}
        `{!Sub.Record RandomUnitTable} `{!Sub.Record RandomItemTable}.
Hypothesis players_exact : Sub.exact Player.
Hypothesis forces_exact : Sub.exact Force.
Hypothesis upgrades_16 :
  Sub.writes_exactly (Sub.save (T := UpgradeAvailabilityChange)) (fun _ => 16).
Hypothesis techs_8 :
  Sub.writes_exactly (Sub.save (T := TechAvailabilityChange)) (fun _ => 8).
Hypothesis unit_tables_exact : Sub.exact RandomUnitTable.
Hypothesis item_tables_exact : Sub.exact RandomItemTable.


End W3i.

End ByteLengths.





(** ** Reading back what [BinaryStream] writes *)

Section Memory.
Import BinaryStream.

Lemma get_with_index (h : heap) (s : t) (i j : Z) :
  get h (with_index s i) j = get h s j.
Proof. reflexivity. Qed.

Lemma backed_set (h : heap) (s : t) (i v : Z) :
  backed h s -> backed (set h s i v) s.
Proof.
  intros (ab & Hab & Hlen). unfold set.
  destruct ((0 <=? i) && (i <? Z.of_nat (viewLength s))); [|now exists ab].
  eexists. rewrite list_lookup_alter_eq, Hab. split; [reflexivity|].
  now rewrite length_insert.
Qed.

Lemma get_set_ne (h : heap) (s : t) (i j v : Z) :
  i <> j -> get (set h s i v) s j = get h s j.
Proof.
  intros Hne. unfold get, set.
  destruct ((0 <=? j) && (j <? Z.of_nat (viewLength s))) eqn:Hj; [|reflexivity].
  destruct ((0 <=? i) && (i <? Z.of_nat (viewLength s))) eqn:Hi; [|reflexivity].
  rewrite list_lookup_alter_eq. destruct (h !! buffer s) as [ab|]; [|reflexivity].
  cbn. apply list_lookup_insert_ne. lia.
Qed.

Lemma get_set_eq (h : heap) (s : t) (i v : Z) :
  backed h s -> 0 <= i < Z.of_nat (viewLength s) ->
  get (set h s i v) s i = Some (v mod 2 ^ 8).
Proof.
  intros (ab & Hab & Hlen) Hi. unfold get, set.
  replace ((0 <=? i) && (i <? Z.of_nat (viewLength s))) with true by lia.
  rewrite list_lookup_alter_eq, Hab. cbn. apply list_lookup_insert_eq. lia.
Qed.

Lemma backed_store (bytes : list Z) :
  forall (h : heap) (s : t) (i : Z), backed h s -> backed (store h s i bytes) s.
Proof.
  induction bytes as [|b bytes IH]; intros h s i Hb; cbn; [exact Hb|].
  apply IH. now apply backed_set.
Qed.

Lemma get_store_outside (bytes : list Z) :
  forall (h : heap) (s : t) (i j : Z),
    j < i \/ i + Z.of_nat (length bytes) <= j ->
    get (store h s i bytes) s j = get h s j.
Proof.
  induction bytes as [|b bytes IH]; intros h s i j Hj; cbn; [reflexivity|].
  cbn [length] in Hj. rewrite IH by lia. apply get_set_ne. lia.
Qed.

Lemma get_store_inside (bytes : list Z) :
  forall (h : heap) (s : t) (i : Z) (k : nat) (b : Z),
    backed h s -> 0 <= i ->
    i + Z.of_nat (length bytes) <= Z.of_nat (viewLength s) ->
    bytes !! k = Some b ->
    get (store h s i bytes) s (i + Z.of_nat k) = Some (b mod 2 ^ 8).
Proof.
  induction bytes as [|b0 bytes IH]; intros h s i k b Hb Hi Hroom Hk; [discriminate|].
  cbn [length] in Hroom. cbn [store]. destruct k as [|k].
  - injection Hk as <-. rewrite get_store_outside by lia.
    replace (i + Z.of_nat 0) with i by lia. apply get_set_eq; [exact Hb|lia].
  - replace (i + Z.of_nat (S k)) with (i + 1 + Z.of_nat k) by lia.
    apply IH; [now apply backed_set|lia|lia|exact Hk].
Qed.

Lemma lookup_set_length (h : heap) (s : t) (i v : Z) (b : nat) :
  length <$> set h s i v !! b = length <$> h !! b.
Proof.
  unfold set. destruct ((0 <=? i) && (i <? Z.of_nat (viewLength s))); [|reflexivity].
  destruct (decide (buffer s = b)) as [<-|Hne].
  - rewrite list_lookup_alter_eq. destruct (h !! buffer s); [|reflexivity].
    cbn. now rewrite length_insert.
  - now rewrite list_lookup_alter_ne.
Qed.

Lemma lookup_store_length (bytes : list Z) :
  forall (h : heap) (s : t) (i : Z) (b : nat),
    length <$> store h s i bytes !! b = length <$> h !! b.
Proof.
  induction bytes as [|x bytes IH]; intros h s i b; cbn [store]; [reflexivity|].
  now rewrite IH, lookup_set_length.
Qed.

Lemma mod_byte (b : Z) : 0 <= b < 256 -> b mod 2 ^ 8 = b.
Proof. intros Hb. apply Z.mod_small. lia. Qed.

(** After [put], the stream rewound to where it was holds the bytes. *)
Lemma put_holds (bytes : list Z) (w : world) :
  room w (Z.of_nat (length bytes)) -> is_bytes bytes ->
  exists w',
    put bytes w = Ok (tt, w')
    /\ w' = advance (World (mem w') (stream w)) (Z.of_nat (length bytes))
    /\ holds (World (mem w') (stream w)) bytes
    /\ room (World (mem w') (stream w)) (Z.of_nat (length bytes))
    /\ (forall b, length <$> mem w' !! b = length <$> mem w !! b)
    /\ (forall j, j < index (stream w)
                  \/ index (stream w) + Z.of_nat (length bytes) <= j ->
                  get (mem w') (stream w) j = get (mem w) (stream w) j).
Proof.
  intros (Hb & Hi & Hroom) Hbytes. eexists. split; [reflexivity|].
  unfold written. cbn [mem stream advance]. split; [reflexivity|]. split.
  - intros k b Hk. unfold at_index. cbn [mem stream].
    rewrite (get_store_inside bytes _ _ _ k b) by assumption.
    f_equal. apply mod_byte.
    exact (Forall_lookup_1 _ _ _ _ Hbytes Hk).
  - split; [|split].
    + split; [|split]; cbn [mem stream]; [now apply backed_store|lia|lia].
    + intros b. apply lookup_store_length.
    + intros j Hj. now apply get_store_outside.
Qed.

Lemma store_app (a b : list Z) :
  forall (h : heap) (s : t) (i : Z),
    store h s i (a ++ b) = store (store h s i a) s (i + Z.of_nat (length a)) b.
Proof.
  induction a as [|x a IH]; intros h s i; cbn [app store length].
  - f_equal. lia.
  - rewrite IH. f_equal. lia.
Qed.

Lemma store_with_index (bytes : list Z) :
  forall (h : heap) (s : t) (i j : Z),
    store h (with_index s j) i bytes = store h s i bytes.
Proof.
  induction bytes as [|b bytes IH]; intros h s i j; cbn [store]; [reflexivity|].
  now rewrite IH.
Qed.

(** Two writes in a row are one write of both. *)
Lemma put_app (a b : list Z) (w : world) :
  (put a ;; put b) w = put (a ++ b) w.
Proof.
  unfold mbind, M_bind, bind, put, written. cbn [advance mem stream].
  rewrite store_with_index, store_app, length_app.
  unfold advance, with_index. cbn. do 4 f_equal. lia.
Qed.

Lemma holds_app (a b : list Z) (w : world) :
  holds w (a ++ b) -> holds w a /\ holds (advance w (Z.of_nat (length a))) b.
Proof.
  intros H. split.
  - intros k x Hk. apply H. now apply lookup_app_l_Some.
  - intros k x Hk. unfold at_index, advance. cbn [mem stream index with_index].
    rewrite get_with_index.
    replace (index (stream w) + Z.of_nat (length a) + Z.of_nat k)
      with (index (stream w) + Z.of_nat (length a + k)) by lia.
    apply H. rewrite lookup_app_r by lia.
    now replace (length a + k - length a)%nat with k by lia.
Qed.

End Memory.

Section Reading.
Import BinaryStream.

Ltac powers :=
  change (2 ^ (32 - 1)) with 2147483648 in *;
  change (2 ^ 31) with 2147483648 in *;
  change (2 ^ 32) with 4294967296 in *;
  change (2 ^ 24) with 16777216 in *;
  change (2 ^ 16) with 65536 in *;
  change (2 ^ 8) with 256 in *.

Lemma little_endian_sum (u : Z) :
  u mod 256 + u / 256 mod 256 * 256 + u / 65536 mod 256 * 65536
  + u / 16777216 * 16777216 = u.
Proof. Z.div_mod_to_equations. lia. Qed.

Lemma uint32ToUint8_is_bytes (v : Z) : is_bytes (Typecast.uint32ToUint8 v).
Proof.
  unfold is_bytes, Typecast.uint32ToUint8.
  pose proof (Z.mod_pos_bound v (2 ^ 32) eq_refl).
  repeat constructor; Z.div_mod_to_equations; lia.
Qed.

Lemma uint32_round_trip (v : Z) :
  0 <= v < 2 ^ 32 ->
  match Typecast.uint32ToUint8 v with
  | [a; b; c; d] => Typecast.uint8ToUint32 (Some a) (Some b) (Some c) (Some d) = v
  | _ => False
  end.
Proof.
  intros Hv. unfold Typecast.uint32ToUint8, Typecast.uint8ToUint32, Typecast.arg.
  cbv beta iota zeta delta [default from_option id]. powers.
  rewrite little_endian_sum. apply Z.mod_small. lia.
Qed.

Lemma int32_round_trip (v : Z) :
  - 2 ^ 31 <= v < 2 ^ 31 ->
  match Typecast.int32ToUint8 v with
  | [a; b; c; d] => Typecast.uint8ToInt32 (Some a) (Some b) (Some c) (Some d) = v
  | _ => False
  end.
Proof.
  intros Hv.
  unfold Typecast.int32ToUint8, Typecast.uint32ToUint8, Typecast.uint8ToInt32,
    Typecast.uint8ToUint32, Typecast.signed, Typecast.arg.
  cbv beta iota zeta delta [default from_option id]. powers.
  rewrite little_endian_sum.
  destruct (Z.ltb_spec (v mod 4294967296) 2147483648);
    Z.div_mod_to_equations; lia.
Qed.

Lemma holds_4 (w : world) (a b c d : Z) (rest : list Z) :
  holds w ([a; b; c; d] ++ rest) ->
  at_index w 0 = Some a /\ at_index w 1 = Some b
  /\ at_index w 2 = Some c /\ at_index w 3 = Some d.
Proof.
  intros H. repeat split.
  - apply (H 0%nat). reflexivity.
  - apply (H 1%nat). reflexivity.
  - apply (H 2%nat). reflexivity.
  - apply (H 3%nat). reflexivity.
Qed.

Lemma readUint32_holds (w : world) (v : Z) (rest : list Z) :
  0 <= v < 2 ^ 32 ->
  holds w (Typecast.uint32ToUint8 v ++ rest) ->
  readUint32 w = Ok (v, advance w 4).
Proof.
  intros Hv H. pose proof (uint32_round_trip v Hv) as Hrt.
  destruct (Typecast.uint32ToUint8 v) as [|a [|b [|c [|d [|]]]]]; try contradiction.
  apply holds_4 in H as (E0 & E1 & E2 & E3).
  unfold readUint32. now rewrite E0, E1, E2, E3, Hrt.
Qed.

Lemma readInt32_holds (w : world) (v : Z) (rest : list Z) :
  - 2 ^ 31 <= v < 2 ^ 31 ->
  holds w (Typecast.int32ToUint8 v ++ rest) ->
  readInt32 w = Ok (v, advance w 4).
Proof.
  intros Hv H. pose proof (int32_round_trip v Hv) as Hrt.
  destruct (Typecast.int32ToUint8 v) as [|a [|b [|c [|d [|]]]]]; try contradiction.
  apply holds_4 in H as (E0 & E1 & E2 & E3).
  unfold readInt32. now rewrite E0, E1, E2, E3, Hrt.
Qed.

Lemma charCode_range (c : char) : 0 <= charCode c < 65536.
Proof.
  destruct c as [low high]. unfold charCode.
  pose proof (nat_ascii_bounded low). pose proof (nat_ascii_bounded high). lia.
Qed.

Lemma fromCharCode_charCode (c : char) : fromCharCode (Some (charCode c)) = c.
Proof.
  pose proof (charCode_range c) as Hc. destruct c as [low high].
  unfold fromCharCode, Typecast.arg.
  cbv beta iota zeta delta [default from_option id].
  rewrite (Z.mod_small _ 65536) by exact Hc. unfold charCode in *.
  pose proof (nat_ascii_bounded low). pose proof (nat_ascii_bounded high).
  replace ((Z.of_nat (nat_of_ascii low) + 256 * Z.of_nat (nat_of_ascii high)) mod 256)
    with (Z.of_nat (nat_of_ascii low))
    by (apply Z.mod_unique with (Z.of_nat (nat_of_ascii high)); lia).
  replace ((Z.of_nat (nat_of_ascii low) + 256 * Z.of_nat (nat_of_ascii high)) / 256)
    with (Z.of_nat (nat_of_ascii high))
    by (apply Z.div_unique with (Z.of_nat (nat_of_ascii low)); lia).
  now rewrite !Nat2Z.id, !ascii_nat_embedding.
Qed.

Lemma charCode_fromCharCode (b : Z) :
  0 <= b < 65536 -> charCode (fromCharCode (Some b)) = b.
Proof.
  intros Hb. unfold fromCharCode, charCode, Typecast.arg.
  cbv beta iota zeta delta [default from_option id].
  rewrite (Z.mod_small b 65536) by exact Hb.
  rewrite !nat_ascii_embedding by (apply Nat2Z.inj_lt; rewrite Z2Nat.id;
    [apply Z.div_lt_upper_bound || apply Z.mod_pos_bound; lia
    |apply Z.div_pos || apply Z.mod_pos_bound; lia]).
  rewrite !Z2Nat.id by (apply Z.div_pos || apply Z.mod_pos_bound; lia).
  pose proof (Z.div_mod b 256). lia.
Qed.

Lemma charCode_nul (c : char) :
  JsString.char_eqb c (JsString.char_of_nat 0) = false -> charCode c <> 0.
Proof.
  intros Hc E. apply char_eqb_neq in Hc. apply Hc.
  rewrite <- (fromCharCode_charCode c), E. reflexivity.
Qed.

Lemma charCodes_is_bytes (s : string) :
  byte_string s = true -> is_bytes (charCodes s).
Proof.
  unfold is_bytes, charCodes.
  induction s as [|c s IH]; cbn; intros Hs; [constructor|].
  apply andb_true_iff in Hs as [Hc Hs]. pose proof (charCode_range c).
  constructor; [lia|exact (IH Hs)].
Qed.

Lemma byte_string_append (a b : string) :
  byte_string (a ++ b) = byte_string a && byte_string b.
Proof.
  induction a as [|c a IH]; cbn; [reflexivity|]. now rewrite IH, andb_assoc.
Qed.

Lemma byte_string_nul (s : string) :
  byte_string s = true ->
  byte_string (s ++ String (JsString.char_of_nat 0) EmptyString) = true.
Proof. intros Hs. now rewrite byte_string_append, Hs. Qed.

Lemma charCodes_append (a b : string) :
  charCodes (a ++ b) = charCodes a ++ charCodes b.
Proof.
  unfold charCodes. induction a as [|c a IH]; cbn; [reflexivity|].
  f_equal. exact IH.
Qed.

Lemma get_in_range (h : heap) (s : t) (i b : Z) :
  get h s i = Some b -> 0 <= i < Z.of_nat (viewLength s).
Proof.
  unfold get. destruct ((0 <=? i) && (i <? Z.of_nat (viewLength s))) eqn:E;
    [lia|discriminate].
Qed.

Lemma peekUntilNull_loop_step (h : heap) (st : t) (i : Z) (n : nat) (b : Z) :
  get h st (index st + i) = Some b -> b <> 0 ->
  peekUntilNull_loop h st i (S n)
  = String (fromCharCode (Some b)) <$> peekUntilNull_loop h st (i + 1) n.
Proof.
  intros Hget Hb. cbn [peekUntilNull_loop]. rewrite Hget.
  destruct b; [contradiction|reflexivity..].
Qed.

(** [peekUntilNull] on a text without null characters followed by a null. *)
Lemma peekUntilNull_loop_holds (h : heap) (st : t) (s : string) :
  forall (i : Z) (n : nat),
    (forall (k : nat) (b : Z),
        (charCodes s ++ [0]) !! k = Some b ->
        get h st (index st + i + Z.of_nat k) = Some b) ->
    (JsString.length s <= n)%nat ->
    free_of_nul s = true ->
    peekUntilNull_loop h st i n = Some s.
Proof.
  induction s as [|c s IH]; intros i n H Hn Hfree.
  - specialize (H 0%nat 0 eq_refl). replace (index st + i + Z.of_nat 0)
      with (index st + i) in H by lia.
    destruct n; cbn; now rewrite H.
  - cbn in Hfree. apply andb_true_iff in Hfree as [Hc Hfree].
    apply negb_true_iff in Hc. pose proof (charCode_nul c Hc) as Hcode.
    pose proof (H 0%nat (charCode c) eq_refl) as H0.
    replace (index st + i + Z.of_nat 0) with (index st + i) in H0 by lia.
    destruct n as [|n]; [cbn in Hn; lia|].
    rewrite (peekUntilNull_loop_step _ _ _ _ _ H0 Hcode), (IH (i + 1) n).
    + cbn. now rewrite fromCharCode_charCode.
    + intros k b Hk. replace (index st + (i + 1) + Z.of_nat k)
        with (index st + i + Z.of_nat (S k)) by lia. apply H. exact Hk.
    + cbn in Hn. lia.
    + exact Hfree.
Qed.

Lemma readUntilNull_holds (w : world) (s : string) (rest : list Z) :
  free_of_nul s = true ->
  holds w (charCodes s ++ 0 :: rest) ->
  readUntilNull w = Ok (s, advance w (Z.of_nat (JsString.length s) + 1)).
Proof.
  intros Hfree H. unfold readUntilNull, bind, peekUntilNull.
  rewrite (peekUntilNull_loop_holds _ _ s); [reflexivity| | |exact Hfree].
  - intros k b Hk. replace (index (stream w) + 0 + Z.of_nat k)
      with (index (stream w) + Z.of_nat k) by lia.
    apply H. change (0 :: rest) with ([0] ++ rest). rewrite app_assoc.
    now apply lookup_app_l_Some.
  - assert (at_index w (Z.of_nat (JsString.length s)) = Some 0) as Hend.
    { apply H. rewrite lookup_app_r; rewrite length_charCodes; [|lia].
      now rewrite Nat.sub_diag. }
    apply get_in_range in Hend. lia.
Qed.

End Reading.

Section WctRoundTrip.
Import BinaryStream.
Context {CustomTextTrigger : Type} `{!Sub.Record CustomTextTrigger}.
Variable image : CustomTextTrigger -> list Z.
Hypothesis trigger_round_trips : Sub.round_trips CustomTextTrigger image.

Lemma advance_0 (w : world) : advance w 0 = w.
Proof.
  destruct w as [h [b o l i n]]. unfold advance, with_index. cbn.
  now rewrite Z.add_0_r.
Qed.

Lemma advance_advance (w : world) (a b : Z) :
  advance (advance w a) b = advance w (a + b).
Proof. unfold advance, with_index. cbn. do 2 f_equal. lia. Qed.

Lemma writes_ret : Sub.writes (ret tt) [].
Proof. intros w. unfold put, written. cbn. now rewrite advance_0; destruct w. Qed.

Lemma writes_bind (m k : M unit) (a b : list Z) :
  Sub.writes m a -> Sub.writes k b -> Sub.writes (m ;; k) (a ++ b).
Proof.
  intros Hm Hk w. rewrite <- put_app. unfold mbind, M_bind, bind.
  rewrite Hm. cbn. apply Hk.
Qed.

Lemma writes_put (bytes : list Z) : Sub.writes (put bytes) bytes.
Proof. now intros w. Qed.

Lemma writes_save_all (l : list CustomTextTrigger) :
  Sub.writes (Sub.save_all l) (concat (image <$> l)).
Proof.
  induction l as [|x l IH]; cbn.
  - apply writes_ret.
  - apply writes_bind; [|exact IH].
    intros w. apply trigger_round_trips.
Qed.

Lemma is_bytes_app (a b : list Z) : is_bytes a -> is_bytes b -> is_bytes (a ++ b).
Proof. apply Forall_app_2. Qed.

Lemma is_bytes_concat (l : list CustomTextTrigger) : is_bytes (concat (image <$> l)).
Proof.
  induction l as [|x l IH]; cbn; [constructor|].
  apply is_bytes_app; [apply trigger_round_trips|exact IH].
Qed.

Lemma Wct_writes (this : War3MapWct.t CustomTextTrigger) :
  (War3MapWct.version this = 1 -> War3MapWct.trigger this <> None) ->
  Sub.writes (War3MapWct.save_body this) (War3MapWct.image image this).
Proof.
  intros Htrigger. unfold War3MapWct.save_body, War3MapWct.image.
  apply writes_bind; [apply writes_put|].
  apply writes_bind; [|apply writes_bind; [apply writes_put|apply writes_save_all]].
  destruct (Z.eqb_spec (War3MapWct.version this) 1) as [E|E]; [|apply writes_ret].
  apply writes_bind; [apply writes_put|].
  destruct (War3MapWct.trigger this) as [x|]; [|now destruct Htrigger].
  intros w. apply trigger_round_trips.
Qed.

Lemma Wct_image_is_bytes (this : War3MapWct.t CustomTextTrigger) :
  byte_string (War3MapWct.comment this) = true ->
  is_bytes (War3MapWct.image image this).
Proof.
  intros Hbytes. unfold War3MapWct.image.
  apply is_bytes_app; [apply uint32ToUint8_is_bytes|].
  apply is_bytes_app;
    [|apply is_bytes_app; [apply uint32ToUint8_is_bytes|apply is_bytes_concat]].
  destruct (War3MapWct.version this =? 1); [|constructor].
  apply is_bytes_app; [apply charCodes_is_bytes, byte_string_nul, Hbytes|].
  destruct (War3MapWct.trigger this); [apply trigger_round_trips|constructor].
Qed.

Lemma total_image_length (l : list CustomTextTrigger) :
  foldr (fun x n => Sub.getByteLength x + n) 0 l
  = Z.of_nat (length (concat (image <$> l))).
Proof.
  destruct trigger_round_trips as (_ & Hlen & _).
  induction l as [|x l IH]; cbn; [reflexivity|].
  rewrite length_app, Hlen, IH. lia.
Qed.

Lemma Wct_image_length (this : War3MapWct.t CustomTextTrigger) (size : Z) :
  War3MapWct.getByteLength this = Ok size ->
  Z.of_nat (length (War3MapWct.image image this)) = size.
Proof.
  destruct trigger_round_trips as (_ & Hlen & _).
  unfold War3MapWct.getByteLength, War3MapWct.image. intros Hsize.
  pose proof (total_image_length (War3MapWct.triggers this)) as Hsum.
  rewrite !length_app. cbn [Typecast.int32ToUint8 Typecast.uint32ToUint8 length].
  destruct (War3MapWct.version this =? 1).
  - destruct (War3MapWct.trigger this) as [x|]; [|discriminate].
    injection Hsize as <-. rewrite sum_byteLength_total, length_app, Hlen.
    rewrite length_charCodes, length_append. cbn. lia.
  - injection Hsize as <-. rewrite sum_byteLength_total. cbn. lia.
Qed.

(** The loop of a loader, on the bytes of the records [xs] in a row. *)
Lemma load_loop_holds (xs : list CustomTextTrigger) :
  forall (l : list CustomTextTrigger) (w : world),
    holds w (concat (image <$> xs)) ->
    Sub.load_loop l (length l) (length xs) w
    = Ok (l ++ xs, advance w (Z.of_nat (length (concat (image <$> xs))))).
Proof.
  destruct trigger_round_trips as (_ & _ & _ & Hload).
  induction xs as [|x xs IH]; intros l w Hholds; cbn.
  - now rewrite advance_0, app_nil_r.
  - apply holds_app in Hholds as [Hx Hxs].
    unfold bind. rewrite (Hload x w Hx). unfold Sub.assign.
    replace (length l <? length l)%nat with false by (symmetry; apply Nat.ltb_irrefl).
    replace (S (length l)) with (length (l ++ [x])) by (rewrite length_app; cbn; lia).
    rewrite (IH _ _ Hxs), advance_advance, <- app_assoc, length_app. cbn.
    do 3 f_equal. lia.
Qed.

Lemma round_trips_exact : Sub.exact CustomTextTrigger.
Proof.
  destruct trigger_round_trips as (_ & Hlen & Hsave & _).
  intros x. rewrite Hlen. split; [lia|].
  intros w. rewrite Hsave. apply advances_put.
Qed.

(** A new stream on a whole buffer. *)
Lemma new_whole (h : heap) (b : nat) (n : nat) :
  length <$> h !! b = Some n ->
  new h (Buffer b) None None = Ok (mk b 0 n 0 (Z.of_nat n)).
Proof.
  unfold new. destruct (h !! b) as [ab|]; [|discriminate]. intros [= <-].
  unfold new_Uint8Array. cbv beta iota zeta delta [default from_option id].
  destruct (Z.ltb_spec (Z.of_nat (length ab)) 0); [lia|]. cbn.
  now rewrite Nat.sub_0_r.
Qed.

Ltac position :=
  rewrite ?advance_advance, ?length_app, ?length_charCodes; cbn [length];
  repeat f_equal; lia.

(** [load_body] on the bytes of a saved file. *)
Lemma Wct_load_body (this : War3MapWct.t CustomTextTrigger) (w : world) :
  - 2 ^ 31 <= War3MapWct.version this < 2 ^ 31 ->
  free_of_nul (War3MapWct.comment this) = true ->
  Z.of_nat (length (War3MapWct.triggers this)) < 2 ^ 32 ->
  (War3MapWct.version this = 1 -> War3MapWct.trigger this <> None) ->
  holds w (War3MapWct.image image this) ->
  exists w',
    War3MapWct.load_body War3MapWct.empty w = Ok (War3MapWct.loaded this, w').
Proof.
  destruct trigger_round_trips as (_ & _ & _ & Hload).
  intros Hversion Hcomment Hcount Htrigger Hholds.
  unfold War3MapWct.image in Hholds.
  apply holds_app in Hholds as [Hv Hholds].
  rewrite <- (app_nil_r (Typecast.int32ToUint8 _)) in Hv.
  apply (readInt32_holds _ _ _ Hversion) in Hv.
  change (length (Typecast.int32ToUint8 _)) with 4%nat in Hholds.
  apply holds_app in Hholds as [Hgated Hholds].
  apply holds_app in Hholds as [Hn Hholds].
  rewrite <- (app_nil_r (Typecast.uint32ToUint8 _)) in Hn.
  apply readUint32_holds in Hn; [|lia].
  change (length (Typecast.uint32ToUint8 _)) with 4%nat in Hholds.
  apply (load_loop_holds _ []) in Hholds. cbn [length app] in Hholds.
  change (Z.of_nat 4) with 4 in *.
  unfold War3MapWct.load_body, War3MapWct.loaded, mbind, M_bind, bind.
  rewrite Hv. cbn [War3MapWct.version War3MapWct.comment War3MapWct.trigger
                     War3MapWct.triggers War3MapWct.empty].
  destruct (Z.eqb_spec (War3MapWct.version this) 1) as [E|E].
  - destruct (War3MapWct.trigger this) as [x|] eqn:Etrigger; [|now destruct Htrigger].
    rewrite charCodes_append in Hgated, Hn, Hholds.
    change (charCodes War3MapWct.nul) with [0] in Hgated, Hn, Hholds.
    rewrite <- app_assoc in Hgated.
    rewrite (readUntilNull_holds _ _ _ Hcomment Hgated).
    apply holds_app in Hgated as [_ Hgated].
    apply holds_app in Hgated as [_ Hgated].
    match goal with |- context [Sub.load ?p] =>
      replace p with (advance (advance (advance w 4)
                                 (Z.of_nat (length (charCodes (War3MapWct.comment this)))))
                        (Z.of_nat (length [0]))) by position
    end.
    rewrite (Hload x _ Hgated).
    cbn [ret War3MapWct.version War3MapWct.comment War3MapWct.trigger
           War3MapWct.triggers].
    match goal with |- context [readUint32 ?p] =>
      match type of Hn with readUint32 ?q = _ => replace p with q by position end
    end.
    rewrite Hn, Nat2Z.id, Hholds.
    destruct this as [v c t0 ts]. cbn in *. subst. eexists. reflexivity.
  - cbn [ret War3MapWct.version War3MapWct.comment War3MapWct.trigger
           War3MapWct.triggers].
    match goal with |- context [readUint32 ?p] =>
      match type of Hn with readUint32 ?q = _ => replace p with q by position end
    end.
    rewrite Hn, Nat2Z.id, Hholds. eexists. reflexivity.
Qed.

(** Saving and loading again gives the object back, without the comment
    and the trigger when the version is not 1. *)
Lemma Wct_round_trip (this : War3MapWct.t CustomTextTrigger) (h : heap) :
  - 2 ^ 31 <= War3MapWct.version this < 2 ^ 31 ->
  free_of_nul (War3MapWct.comment this) = true ->
  byte_string (War3MapWct.comment this) = true ->
  Z.of_nat (length (War3MapWct.triggers this)) < 2 ^ 32 ->
  (War3MapWct.version this = 1 -> War3MapWct.trigger this <> None) ->
  exists b h',
    War3MapWct.save this h = Ok (b, h')
    /\ War3MapWct.load War3MapWct.empty h' b = Ok (War3MapWct.loaded this).
Proof.
  intros Hversion Hcomment Hbytes Hcount Htrigger.
  destruct (Wct_getByteLength round_trips_exact this Htrigger) as (size & Hsize & Hpos).
  destruct (open_fresh h size Hpos) as (w0 & Hopen & Hindex & Hstream & Hmem).
  pose proof (Wct_image_length this size Hsize) as Hlength.
  destruct (put_holds (War3MapWct.image image this) w0)
    as (w' & Hput & Hw' & Hholds & _ & Hsame & _).
  { rewrite Hlength. split; [|split].
    - exists (replicate (Z.to_nat size) 0). rewrite Hstream. cbn.
      split; [exact Hmem|]. rewrite length_replicate. lia.
    - lia.
    - rewrite Hstream. cbn. lia. }
  { apply Wct_image_is_bytes, Hbytes. }
  exists (length h), (mem w'). split.
  - unfold War3MapWct.save, War3MapWct.save_run.
    rewrite Hsize, Hopen, (Wct_writes this Htrigger w0), Hput.
    rewrite Hw', Hstream. reflexivity.
  - unfold War3MapWct.load.
    rewrite (new_whole _ _ (Z.to_nat size))
      by (rewrite Hsame, Hmem; cbn; now rewrite length_replicate).
    rewrite Z2Nat.id by lia. rewrite <- Hstream.
    destruct (Wct_load_body this _ Hversion Hcomment Hcount Htrigger Hholds)
      as (w'' & ->).
    reflexivity.
Qed.

End WctRoundTrip.

Section TextureRoundTrip.
Import BinaryStream.

Lemma set_zero_id (h : heap) (s : t) (i : Z) :
  get h s i = Some 0 -> set h s i 0 = h.
Proof.
  unfold get, set. destruct ((0 <=? i) && (i <? Z.of_nat (viewLength s))); [|reflexivity].
  destruct (h !! buffer s) as [ab|] eqn:Hab; [|discriminate]. cbn. intros Hzero.
  apply list_eq. intros b. destruct (decide (buffer s = b)) as [<-|Hne].
  - rewrite list_lookup_alter_eq, Hab. cbn. f_equal. now apply list_insert_id.
  - now rewrite list_lookup_alter_ne.
Qed.

Lemma store_zeros_id (n : nat) :
  forall (h : heap) (s : t) (i : Z),
    (forall j, i <= j < i + Z.of_nat n -> get h s j = Some 0) ->
    store h s i (replicate n 0) = h.
Proof.
  induction n as [|n IH]; intros h s i Hzero; cbn [replicate store]; [reflexivity|].
  rewrite set_zero_id by (apply Hzero; lia). apply IH.
  intros j Hj. apply Hzero. lia.
Qed.

(** Skipping bytes that are zero is writing zeros. *)
Lemma skip_zeros (n : nat) (w : world) :
  (forall j, index (stream w) <= j < index (stream w) + Z.of_nat n ->
             get (mem w) (stream w) j = Some 0) ->
  skip (Z.of_nat n) w = put (replicate n 0) w.
Proof.
  intros Hzero. unfold skip, put, written. rewrite store_zeros_id by exact Hzero.
  rewrite length_replicate. now destruct w.
Qed.

Lemma peek_loop_holds (h : heap) (s : t) (bytes : list Z) :
  forall i : Z,
    (forall (k : nat) (b : Z),
        bytes !! k = Some b -> get h s (index s + i + Z.of_nat k) = Some b) ->
    peek_loop h s false i (length bytes) = text_of bytes.
Proof.
  induction bytes as [|b bytes IH]; intros i Hget; cbn [length peek_loop text_of];
    [reflexivity|].
  pose proof (Hget 0%nat b eq_refl) as H0.
  replace (index s + i + Z.of_nat 0) with (index s + i) in H0 by lia.
  rewrite H0, (IH (i + 1)). { reflexivity. }
  intros k x Hk. replace (index s + (i + 1) + Z.of_nat k)
    with (index s + i + Z.of_nat (S k)) by lia. now apply Hget.
Qed.

Lemma text_of_padded (p : string) (n : nat) :
  free_of_nul p = true -> text_of (charCodes p ++ replicate n 0) = p.
Proof.
  intros Hfree. induction p as [|c p IH].
  - cbn. induction n as [|n IH]; cbn; [reflexivity|exact IH].
  - cbn in Hfree. apply andb_true_iff in Hfree as [Hc Hfree].
    apply negb_true_iff in Hc. pose proof (charCode_nul c Hc).
    pose proof (charCode_range c).
    change (charCodes (String c p)) with (charCode c :: charCodes p).
    cbn [app text_of]. replace (0 <? charCode c) with true by lia.
    now rewrite fromCharCode_charCode, IH.
Qed.

Lemma read_holds (w : world) (bytes rest : list Z) :
  bytes <> [] ->
  holds w (bytes ++ rest) ->
  read (Some (Z.of_nat (length bytes))) false w
  = Ok (text_of bytes, advance w (Z.of_nat (length bytes))).
Proof.
  intros Hne Hholds. unfold read, bind, peek, skip, ret.
  destruct (Z.of_nat (length bytes)) eqn:E;
    [destruct bytes; [contradiction|discriminate]| |lia].
  rewrite <- E, Nat2Z.id, (peek_loop_holds _ _ bytes); [reflexivity|].
  intros k b Hk. rewrite Z.add_0_r. apply Hholds. now apply lookup_app_l_Some.
Qed.

Lemma written_app (a b : list Z) (w : world) :
  written (a ++ b) w = written b (written a w).
Proof.
  pose proof (put_app a b w) as E. unfold mbind, M_bind, bind, put in E.
  congruence.
Qed.

Lemma get_written_outside (bytes : list Z) (w : world) (j : Z) :
  j < index (stream w) \/ index (stream w) + Z.of_nat (length bytes) <= j ->
  get (mem (written bytes w)) (stream (written bytes w)) j
  = get (mem w) (stream w) j.
Proof.
  intros Hj. unfold written. cbn [advance mem stream].
  rewrite get_with_index. now apply get_store_outside.
Qed.

Lemma index_written (bytes : list Z) (w : world) :
  index (stream (written bytes w)) = index (stream w) + Z.of_nat (length bytes).
Proof. reflexivity. Qed.

Lemma length_uint32ToUint8 (v : Z) : length (Typecast.uint32ToUint8 v) = 4%nat.
Proof. reflexivity. Qed.

(** [writeMdx] is one write of 268 bytes when the bytes it skips are zero. *)
Lemma Texture_writes (r f : Z) (p : string) (w : world) :
  (JsString.length p <= 260)%nat ->
  (forall j, index (stream w) + 4 + Z.of_nat (JsString.length p) <= j
             < index (stream w) + 264 ->
             get (mem w) (stream w) j = Some 0) ->
  Texture.writeMdx (Texture.mk (Int r) (Some p) (Int f)) w
  = put (Texture.image r f p) w.
Proof.
  intros Hp Hzero.
  unfold Texture.writeMdx, Texture.image, mbind, M_bind, bind, writeUint32, write, put.
  cbn [Texture.replaceableId Texture.path Texture.flags integer_of].
  replace (260 - Z.of_nat (JsString.length p)) with (Z.of_nat (260 - JsString.length p))
    by lia.
  rewrite skip_zeros.
  - unfold put. now rewrite !written_app.
  - intros j Hj. rewrite !get_written_outside.
    + apply Hzero. rewrite !index_written, length_uint32ToUint8, length_charCodes in Hj.
      lia.
    + rewrite !index_written, length_uint32ToUint8, length_charCodes in *. lia.
    + rewrite !index_written, length_uint32ToUint8, length_charCodes in *. lia.
Qed.

Lemma Texture_image_is_bytes (r f : Z) (p : string) :
  byte_string p = true -> is_bytes (Texture.image r f p).
Proof.
  intros Hbytes. unfold Texture.image.
  apply Forall_app_2; [apply uint32ToUint8_is_bytes|].
  apply Forall_app_2; [|apply uint32ToUint8_is_bytes].
  apply Forall_app_2; [apply charCodes_is_bytes, Hbytes|].
  apply Forall_replicate. lia.
Qed.

Lemma Texture_image_length (r f : Z) (p : string) :
  (JsString.length p <= 260)%nat -> length (Texture.image r f p) = 268%nat.
Proof.
  intros Hp. unfold Texture.image.
  rewrite !length_app, !length_uint32ToUint8, length_charCodes, length_replicate. lia.
Qed.

(** A texture written and read again from where it was written. *)
Lemma Texture_round_trip (r f : Z) (p : string) (this : Texture.t) (w : world) :
  0 <= r < 2 ^ 32 -> 0 <= f < 2 ^ 32 ->
  free_of_nul p = true -> byte_string p = true ->
  (JsString.length p <= 260)%nat ->
  room w 268 ->
  (forall j, index (stream w) + 4 + Z.of_nat (JsString.length p) <= j
             < index (stream w) + 264 ->
             get (mem w) (stream w) j = Some 0) ->
  exists w',
    Texture.writeMdx (Texture.mk (Int r) (Some p) (Int f)) w = Ok (tt, w')
    /\ Texture.readMdx this (World (mem w') (stream w))
       = Ok (Texture.mk (Int r) (Some p) (Int f), w').
Proof.
  intros Hr Hf Hfree Hbytes Hp Hroom Hzero.
  pose proof (Texture_image_length r f p Hp) as Hlength.
  destruct (put_holds (Texture.image r f p) w)
    as (w' & Hput & Hw' & Hholds & _).
  { now rewrite Hlength. }
  { apply Texture_image_is_bytes, Hbytes. }
  exists w'. split; [now rewrite Texture_writes|].
  unfold Texture.image in Hholds.
  pose proof Hholds as Hall.
  apply (readUint32_holds _ _ _ Hr) in Hholds.
  apply holds_app in Hall as [_ Hall]. rewrite length_uint32ToUint8 in Hall.
  pose proof Hall as Hpath.
  apply read_holds in Hpath.
  2:{ intros E. apply (f_equal length) in E.
      rewrite length_app, length_charCodes, length_replicate in E. cbn in E. lia. }
  replace (length (charCodes p ++ replicate (260 - JsString.length p) 0)) with 260%nat
    in * by (rewrite length_app, length_charCodes, length_replicate; lia).
  apply holds_app in Hall as [_ Hall].
  replace (length (charCodes p ++ replicate (260 - JsString.length p) 0)) with 260%nat
    in * by (rewrite length_app, length_charCodes, length_replicate; lia).
  rewrite <- (app_nil_r (Typecast.uint32ToUint8 f)) in Hall.
  apply (readUint32_holds _ _ _ Hf) in Hall.
  unfold Texture.readMdx, mbind, M_bind, bind, mret, M_ret, ret.
  change (Z.of_nat 4) with 4 in *. change (Z.of_nat 260) with 260 in *.
  rewrite Hholds, Hpath, Hall, text_of_padded by exact Hfree.
  rewrite Hw', Hlength, !advance_advance. reflexivity.
Qed.

End TextureRoundTrip.

(** C2, as the code has it.  A trigger file saved and loaded into a new
    object comes back field for field when its version is 1; for any other
    version the file holds neither the comment nor the trigger, and the
    loaded object has the version and the triggers of the saved one, an
    empty comment and no trigger.  This is for a version that is a signed
    32-bit integer, a comment without null characters whose characters
    all have codes below 256, fewer than 2^32 triggers, and sub-records
    that round-trip.  A texture whose identifier and flags are unsigned
    32-bit integers and whose path has no null character, only characters
    of codes below 256 and at most 260 of them is read back as it was
    written, when the bytes that [writeMdx] skips after the path are zero,
    as they are in a new buffer. *)
Theorem save_load_round_trip :
  (forall (CustomTextTrigger : Type) `(!Sub.Record CustomTextTrigger)
          (image : CustomTextTrigger -> list Z)
          (this : War3MapWct.t CustomTextTrigger) (h : BinaryStream.heap),
      Sub.round_trips CustomTextTrigger image ->
      - 2 ^ 31 <= War3MapWct.version this < 2 ^ 31 ->
      BinaryStream.free_of_nul (War3MapWct.comment this) = true ->
      BinaryStream.byte_string (War3MapWct.comment this) = true ->
      Z.of_nat (length (War3MapWct.triggers this)) < 2 ^ 32 ->
      (War3MapWct.version this = 1 -> War3MapWct.trigger this <> None) ->
      exists b h',
        War3MapWct.save this h = Ok (b, h')
        /\ War3MapWct.load War3MapWct.empty h' b = Ok (War3MapWct.loaded this)
        /\ (War3MapWct.version this = 1 -> War3MapWct.loaded this = this)
        /\ (War3MapWct.version this <> 1 ->
            War3MapWct.loaded this
            = War3MapWct.mk (War3MapWct.version this) EmptyString None
                (War3MapWct.triggers this)))
  /\ (forall (r f : Z) (p : string) (this : Texture.t) (w : BinaryStream.world),
         0 <= r < 2 ^ 32 -> 0 <= f < 2 ^ 32 ->
         BinaryStream.free_of_nul p = true ->
         BinaryStream.byte_string p = true ->
         (JsString.length p <= 260)%nat ->
         BinaryStream.room w 268 ->
         (forall j,
             BinaryStream.index (BinaryStream.stream w) + 4
             + Z.of_nat (JsString.length p) <= j
             < BinaryStream.index (BinaryStream.stream w) + 264 ->
             BinaryStream.get (BinaryStream.mem w) (BinaryStream.stream w) j = Some 0) ->
         exists w',
           Texture.writeMdx (Texture.mk (Int r) (Some p) (Int f)) w = Ok (tt, w')
           /\ Texture.readMdx this
                (BinaryStream.World (BinaryStream.mem w') (BinaryStream.stream w))
              = Ok (Texture.mk (Int r) (Some p) (Int f), w')).
Proof.
  split.
  - intros T ? image this h Hrt Hversion Hcomment Hbytes Hcount Htrigger.
    destruct (Wct_round_trip image Hrt this h Hversion Hcomment Hbytes Hcount Htrigger)
      as (b & h' & Hsave & Hload).
    exists b, h'. repeat split; try assumption.
    + intros E. unfold War3MapWct.loaded. now rewrite E.
    + intros E. unfold War3MapWct.loaded.
      now destruct (Z.eqb_spec (War3MapWct.version this) 1).
  - intros. now apply Texture_round_trip.
Qed.

Lemma byte_code_is_byte (c : ascii) : 0 <= Instances.byte_code c < 256.
Proof. unfold Instances.byte_code. pose proof (nat_ascii_bounded c). lia. Qed.

Lemma byte_char_code (c : ascii) :
  Instances.byte_char (Some (Instances.byte_code c)) = c.
Proof.
  unfold Instances.byte_char, Instances.byte_code, Typecast.arg.
  cbv beta iota zeta delta [default from_option id].
  rewrite Nat2Z.id. apply ascii_nat_embedding.
Qed.

Lemma one_char_round_trips :
  Sub.round_trips (H := Instances.one_char) ascii Instances.one_char_image.
Proof.
  split; [|split; [|split]].
  - intros c. constructor; [apply byte_code_is_byte|constructor].
  - reflexivity.
  - reflexivity.
  - intros c w Hholds. pose proof (Hholds 0%nat (Instances.byte_code c) eq_refl) as E.
    change (Z.of_nat 0) with 0 in E.
    unfold Sub.load, Instances.one_char, mbind, M_bind, BinaryStream.bind,
      BinaryStream.readUint8.
    rewrite E. unfold mret, M_ret, BinaryStream.ret.
    now rewrite byte_char_code.
Qed.

Lemma get_fresh268 (j : Z) :
  0 <= j < 268 ->
  BinaryStream.get (BinaryStream.mem Examples.fresh268)
    (BinaryStream.stream Examples.fresh268) j = Some 0.
Proof.
  intros Hj. unfold BinaryStream.get, Examples.fresh268.
  cbn [BinaryStream.mem BinaryStream.stream BinaryStream.viewLength
         BinaryStream.buffer BinaryStream.byteOffset].
  change (Z.of_nat 268) with 268.
  destruct ((0 <=? j) && (j <? 268)) eqn:E; [|lia].
  change (replicate 268 0 !! (0 + Z.to_nat j)%nat = Some 0).
  apply lookup_replicate_2. lia.
Qed.

(** The trigger files of the examples, of version 1 and of version 0, and
    the texture of the examples on a new buffer. *)
Lemma save_load_round_trip_witness :
  Examples.save_then_load Examples.wct_v1 = Ok Examples.wct_v1
  /\ Examples.save_then_load Examples.wct_v0
     = Ok (War3MapWct.mk 0 EmptyString None ["a"%char; "b"%char])
  /\ exists w',
       Texture.writeMdx Examples.texture Examples.fresh268 = Ok (tt, w')
       /\ Texture.readMdx Texture.empty
            (BinaryStream.World (BinaryStream.mem w')
               (BinaryStream.stream Examples.fresh268))
          = Ok (Examples.texture, w').
Proof.
  destruct save_load_round_trip as [Hwct Htexture].
  assert (forall this : War3MapWct.t ascii,
             - 2 ^ 31 <= War3MapWct.version this < 2 ^ 31 ->
             BinaryStream.free_of_nul (War3MapWct.comment this) = true ->
             BinaryStream.byte_string (War3MapWct.comment this) = true ->
             Z.of_nat (length (War3MapWct.triggers this)) < 2 ^ 32 ->
             (War3MapWct.version this = 1 -> War3MapWct.trigger this <> None) ->
             Examples.save_then_load this = Ok (War3MapWct.loaded this)) as Hrun.
  { intros this H1 H2 H2' H3 H4.
    destruct (Hwct ascii Instances.one_char Instances.one_char_image this []
                one_char_round_trips H1 H2 H2' H3 H4) as (b & h' & Hsave & Hload & _).
    unfold Examples.save_then_load. now rewrite Hsave. }
  split; [|split].
  - apply (Hrun Examples.wct_v1); cbn; (lia || reflexivity || discriminate).
  - apply (Hrun Examples.wct_v0); cbn; (lia || reflexivity || discriminate).
  - apply (Htexture 1 3 "war3mapImported\a.blp"%js Texture.empty Examples.fresh268).
    + lia.
    + lia.
    + reflexivity.
    + reflexivity.
    + cbn. lia.
    + split; [|cbn; lia]. eexists. split; [reflexivity|].
      apply Nat.leb_le. reflexivity.
    + intros j Hj. apply get_fresh268. cbn in Hj. lia.
Defined.

(** C2 as stated fails for a version other than 1: the trigger file of
    version 0 of the examples, with the comment [hi] and a trigger, is
    loaded back with an empty comment and no trigger.  It fails for
    version 1 too, when the comment has a character of a code of 256 or
    more: the stream keeps one byte of every character, and the comment
    of the examples whose first character has the code 256 + 104 is
    loaded back as [hi].  In the same way a texture with this path is
    read back with the path [hi]. *)
Lemma save_load_round_trip_counterexample :
  ~ (forall this : War3MapWct.t ascii,
        BinaryStream.free_of_nul (War3MapWct.comment this) = true ->
        (War3MapWct.version this = 1 -> War3MapWct.trigger this <> None) ->
        Examples.save_then_load this = Ok this)
  /\ ~ (forall this : War3MapWct.t ascii,
           War3MapWct.version this = 1 ->
           BinaryStream.free_of_nul (War3MapWct.comment this) = true ->
           War3MapWct.trigger this <> None ->
           Examples.save_then_load this = Ok this)
  /\ ~ (forall (p : string) (w' : BinaryStream.world),
           BinaryStream.free_of_nul p = true ->
           (JsString.length p <= 260)%nat ->
           Texture.writeMdx (Texture.mk (Int 1) (Some p) (Int 3)) Examples.fresh268
           = Ok (tt, w') ->
           Texture.readMdx Texture.empty
             (BinaryStream.World (BinaryStream.mem w')
                (BinaryStream.stream Examples.fresh268))
           = Ok (Texture.mk (Int 1) (Some p) (Int 3), w')).
Proof.
  split; [|split].
  - intros Hclaim.
    specialize (Hclaim Examples.wct_v0 eq_refl).
    assert (Examples.save_then_load Examples.wct_v0
            = Ok (War3MapWct.mk 0 EmptyString None ["a"%char; "b"%char])) as E
      by reflexivity.
    rewrite E in Hclaim. discriminate Hclaim. intros [=].
  - intros Hclaim.
    specialize (Hclaim Examples.wct_wide eq_refl eq_refl).
    assert (Examples.save_then_load Examples.wct_wide
            = Ok (War3MapWct.mk 1 "hi"%js (Some "t"%char) ["a"%char; "b"%char])) as E
      by reflexivity.
    rewrite E in Hclaim. discriminate Hclaim. discriminate.
  - intros Hclaim.
    specialize (Hclaim Examples.wide_hi
                  (BinaryStream.written (Texture.image 1 3 Examples.wide_hi)
                     Examples.fresh268) eq_refl).
    assert (Texture.readMdx Texture.empty
              (BinaryStream.World
                 (BinaryStream.mem
                    (BinaryStream.written (Texture.image 1 3 Examples.wide_hi)
                       Examples.fresh268))
                 (BinaryStream.stream Examples.fresh268))
            = Ok (Texture.mk (Int 1) (Some "hi"%js) (Int 3),
                  BinaryStream.written (Texture.image 1 3 Examples.wide_hi)
                    Examples.fresh268)) as E by (vm_compute; reflexivity).
    rewrite E in Hclaim.
    assert (Texture.mk (Int 1) (Some "hi"%js) (Int 3)
            = Texture.mk (Int 1) (Some Examples.wide_hi) (Int 3)) as E'.
    { assert (forall (A : Type) (a b : A) (w : BinaryStream.world),
                 Ok (a, w) = Ok (b, w) -> a = b) as Hinj
        by (intros A a b w [= ->]; reflexivity).
      apply (Hinj _ _ _ _ (Hclaim ltac:(cbn; lia) ltac:(vm_compute; reflexivity))). }
    discriminate E'.
Qed.

(** ** More on [BinaryStream]: what is written is what is read *)

Section StreamRoundTrips.
Import BinaryStream.

Lemma with_index_same (s : t) : with_index s (index s) = s.
Proof. now destruct s. Qed.

Lemma seek_back (bytes : list Z) (w : world) :
  seek (index (stream w)) (written bytes w)
  = Ok (tt, World (mem (written bytes w)) (stream w)).
Proof.
  unfold seek, written, advance. cbn [mem stream]. do 3 f_equal.
  destruct (stream w); reflexivity.
Qed.

Lemma written_rewound (bytes : list Z) (w : world) :
  advance (World (mem (written bytes w)) (stream w)) (Z.of_nat (length bytes))
  = written bytes w.
Proof. reflexivity. Qed.

Lemma written_holds (bytes : list Z) (w : world) :
  room w (Z.of_nat (length bytes)) ->
  forall (k : nat) (b : Z),
    bytes !! k = Some b ->
    at_index (World (mem (written bytes w)) (stream w)) (Z.of_nat k)
    = Some (b mod 2 ^ 8).
Proof.
  intros (Hb & Hi & Hroom) k b Hk. unfold at_index, written, advance.
  cbn [mem stream]. now apply get_store_inside.
Qed.

Lemma set_mod (h : heap) (s : t) (i v : Z) : set h s i (v mod 2 ^ 8) = set h s i v.
Proof. unfold set. now rewrite Z.mod_mod. Qed.

Lemma store_mod (bytes : list Z) :
  forall (h : heap) (s : t) (i : Z),
    store h s i ((fun b => b mod 2 ^ 8) <$> bytes) = store h s i bytes.
Proof.
  induction bytes as [|b bytes IH]; intros h s i; cbn [fmap list_fmap store];
    [reflexivity|].
  now rewrite set_mod, IH.
Qed.

(** The array keeps what is stored modulo 256. *)
Lemma put_mod (bytes : list Z) (w : world) :
  put ((fun b => b mod 2 ^ 8) <$> bytes) w = put bytes w.
Proof. unfold put, written. now rewrite store_mod, length_fmap. Qed.

Lemma charCodes_narrow (s : string) :
  charCodes (narrow s) = (fun b => b mod 2 ^ 8) <$> charCodes s.
Proof.
  unfold charCodes. induction s as [|c s IH]; cbn [narrow JsString.chars fmap list_fmap];
    [reflexivity|].
  f_equal; [|exact IH]. change (2 ^ 8) with 256. apply charCode_fromCharCode.
  pose proof (Z.mod_pos_bound (charCode c) 256 eq_refl). lia.
Qed.

Lemma write_narrow (s : string) (w : world) : write (narrow s) w = write s w.
Proof. unfold write. rewrite charCodes_narrow. apply put_mod. Qed.

Lemma narrow_append (a b : string) :
  narrow (a ++ b) = (narrow a ++ narrow b)%js.
Proof. induction a as [|c a IH]; cbn; [reflexivity|]. now rewrite IH. Qed.

Lemma length_narrow (s : string) : JsString.length (narrow s) = JsString.length s.
Proof. induction s as [|c s IH]; cbn; [reflexivity|]. now rewrite IH. Qed.

Lemma byte_string_narrow (s : string) : byte_string (narrow s) = true.
Proof.
  induction s as [|c s IH]; cbn [narrow byte_string]; [reflexivity|].
  pose proof (Z.mod_pos_bound (charCode c) 256 eq_refl).
  rewrite IH, charCode_fromCharCode by lia.
  replace (charCode c mod 256 <? 256) with true by lia. reflexivity.
Qed.

Lemma narrow_byte_string (s : string) : byte_string s = true -> narrow s = s.
Proof.
  induction s as [|c s IH]; cbn [narrow byte_string]; [reflexivity|].
  intros Hs. apply andb_true_iff in Hs as [Hc Hs]. rewrite (IH Hs).
  pose proof (charCode_range c).
  rewrite Z.mod_small by lia. now rewrite fromCharCode_charCode.
Qed.

Lemma byte_string_read_back (s : string) (w : world) :
  free_of_nul s = true ->
  byte_string s = true ->
  room w (Z.of_nat (JsString.length s) + 1) ->
  (write (s ++ String (JsString.char_of_nat 0) EmptyString);;
   seek (index (stream w));;
   readUntilNull) w
  = Ok (s, written (charCodes (s ++ String (JsString.char_of_nat 0) EmptyString)) w).
Proof.
  intros Hfree Hbytes Hroom.
  set (bytes := charCodes (s ++ String (JsString.char_of_nat 0) EmptyString)).
  assert (Hlen : Z.of_nat (length bytes) = Z.of_nat (JsString.length s) + 1).
  { unfold bytes. rewrite length_charCodes, length_append. cbn. lia. }
  destruct (put_holds bytes w) as (w' & Hput & Hw' & Hholds & _).
  { now rewrite Hlen. }
  { apply charCodes_is_bytes, byte_string_nul, Hbytes. }
  injection Hput as Hput.
  unfold mbind, M_bind, bind, write. fold bytes.
  change (put bytes w) with (Ok (A := unit * world) (tt, written bytes w)).
  cbv beta iota. rewrite seek_back. cbv beta iota.
  rewrite Hput.
  rewrite (readUntilNull_holds _ s []); [|exact Hfree|].
  - rewrite <- Hlen. now rewrite <- Hw'.
  - unfold bytes in Hholds. now rewrite charCodes_append in Hholds.
Qed.

(** X1. A string written with its terminator is read back by
    [readUntilNull] with every character code taken modulo 256, when no
    code is a multiple of 256, and the read stops where the write
    stopped.  So a string without null characters whose characters all
    have codes below 256 is read back as it is, and a string with a
    character of a code of 256 or more is not. *)
Theorem write_then_readUntilNull (s : string) (w : world) :
  free_of_nul (narrow s) = true ->
  room w (Z.of_nat (JsString.length s) + 1) ->
  (write (s ++ String (JsString.char_of_nat 0) EmptyString);;
   seek (index (stream w));;
   readUntilNull) w
  = Ok (narrow s,
        written (charCodes (s ++ String (JsString.char_of_nat 0) EmptyString)) w)
  /\ (byte_string s = true -> narrow s = s)
  /\ (byte_string s = false -> narrow s <> s).
Proof.
  intros Hfree Hroom. split; [|split].
  - pose proof (byte_string_read_back (narrow s) w Hfree
                  (byte_string_narrow s)) as E.
    rewrite length_narrow in E. specialize (E Hroom).
    unfold mbind, M_bind, bind in *.
    change (String (JsString.char_of_nat 0) EmptyString)
      with (narrow (String (JsString.char_of_nat 0) EmptyString)) in E.
    rewrite <- narrow_append, write_narrow in E. rewrite E.
    do 2 f_equal. unfold written.
    rewrite charCodes_narrow, store_mod, length_fmap. reflexivity.
  - apply narrow_byte_string.
  - intros Hwide E. rewrite <- E, byte_string_narrow in Hwide. discriminate.
Qed.


Lemma uint32ToUint8_mod (v : Z) :
  Typecast.uint32ToUint8 (v mod 2 ^ 32) = Typecast.uint32ToUint8 v.
Proof. unfold Typecast.uint32ToUint8. now rewrite Z.mod_mod. Qed.

Lemma readUint32_written (v : Z) (w : world) :
  room w 4 ->
  readUint32 (World (mem (written (Typecast.uint32ToUint8 v) w)) (stream w))
  = Ok (v mod 2 ^ 32, written (Typecast.uint32ToUint8 v) w).
Proof.
  intros Hroom.
  destruct (put_holds (Typecast.uint32ToUint8 v) w) as (w' & Hput & Hw' & Hholds & _).
  { exact Hroom. }
  { apply uint32ToUint8_is_bytes. }
  injection Hput as Hput. rewrite Hput.
  rewrite (readUint32_holds _ (v mod 2 ^ 32) []).
  - now rewrite Hw' at 2.
  - apply Z.mod_pos_bound. reflexivity.
  - now rewrite uint32ToUint8_mod, app_nil_r.
Qed.

Lemma signed_32_range (u : Z) :
  0 <= u < 2 ^ 32 -> - 2 ^ 31 <= Typecast.signed 32 u < 2 ^ 31.
Proof.
  intros Hu. unfold Typecast.signed.
  change (2 ^ (32 - 1)) with 2147483648. change (2 ^ 31) with 2147483648.
  change (2 ^ 32) with 4294967296 in *.
  destruct (Z.ltb_spec u 2147483648); lia.
Qed.

Lemma signed_32_mod (u : Z) :
  0 <= u < 2 ^ 32 -> Typecast.signed 32 u mod 2 ^ 32 = u.
Proof.
  intros Hu. unfold Typecast.signed.
  change (2 ^ (32 - 1)) with 2147483648.
  change (2 ^ 32) with 4294967296 in *.
  destruct (Z.ltb_spec u 2147483648).
  - apply Z.mod_small. lia.
  - replace (u - 4294967296) with (u + (-1) * 4294967296) by lia.
    rewrite Z.mod_add by lia. apply Z.mod_small. lia.
Qed.

Lemma readInt32_written (v : Z) (w : world) :
  room w 4 ->
  readInt32 (World (mem (written (Typecast.int32ToUint8 v) w)) (stream w))
  = Ok (Typecast.signed 32 (v mod 2 ^ 32), written (Typecast.int32ToUint8 v) w).
Proof.
  intros Hroom.
  assert (Hu : 0 <= v mod 2 ^ 32 < 2 ^ 32) by (apply Z.mod_pos_bound; reflexivity).
  destruct (put_holds (Typecast.int32ToUint8 v) w) as (w' & Hput & Hw' & Hholds & _).
  { exact Hroom. }
  { apply uint32ToUint8_is_bytes. }
  injection Hput as Hput. rewrite Hput.
  rewrite (readInt32_holds _ (Typecast.signed 32 (v mod 2 ^ 32)) []).
  - now rewrite Hw' at 2.
  - now apply signed_32_range.
  - unfold Typecast.int32ToUint8 in *.
    rewrite <- uint32ToUint8_mod, signed_32_mod by exact Hu.
    now rewrite uint32ToUint8_mod, app_nil_r.
Qed.

(** X2. A number written by [writeUint32] is read back by [readUint32]
    wrapped to 32 bits, and one written by [writeInt32] is read back by
    [readInt32] wrapped to the signed 32 bits; both reads stop where the
    write stopped. *)
Theorem write32_then_read32 (v : Z) (w : world) :
  room w 4 ->
  (writeUint32 v;; seek (index (stream w));; readUint32) w
  = Ok (v mod 2 ^ 32, written (Typecast.uint32ToUint8 v) w)
  /\ (writeInt32 v;; seek (index (stream w));; readInt32) w
     = Ok (Typecast.signed 32 (v mod 2 ^ 32),
           written (Typecast.int32ToUint8 v) w).
Proof.
  intros Hroom. split.
  - unfold mbind, M_bind, bind, writeUint32.
    change (put ?b w) with (Ok (A := unit * world) (tt, written b w)).
    cbv beta iota. rewrite seek_back. cbv beta iota.
    now apply readUint32_written.
  - unfold mbind, M_bind, bind, writeInt32.
    change (put ?b w) with (Ok (A := unit * world) (tt, written b w)).
    cbv beta iota. rewrite seek_back. cbv beta iota.
    now apply readInt32_written.
Qed.

End StreamRoundTrips.

(** ** The window of a stream on its buffer *)

Section Window.
Import BinaryStream.

Lemma set_outside_window (h : heap) (s : t) (i v : Z) (b j : nat) :
  b <> buffer s \/ (j < byteOffset s)%nat
  \/ (byteOffset s + viewLength s <= j)%nat ->
  set h s i v !! b ≫= (.!! j) = h !! b ≫= (.!! j).
Proof.
  intros Hout. unfold set.
  destruct ((0 <=? i) && (i <? Z.of_nat (viewLength s))) eqn:Hin; [|reflexivity].
  apply andb_true_iff in Hin as (H0 & H1).
  apply Z.leb_le in H0. apply Z.ltb_lt in H1.
  destruct (decide (b = buffer s)) as [->|Hne].
  - rewrite list_lookup_alter_eq. destruct (h !! buffer s) as [ab|]; [|reflexivity].
    cbn. apply list_lookup_insert_ne. lia.
  - now rewrite list_lookup_alter_ne.
Qed.

(** X3. Whatever a stream writes, at whatever index, the bytes of other
    buffers and the bytes of its own buffer outside of the window of its
    array are left as they were, and no buffer changes its length. *)
Theorem writes_stay_in_window (bytes : list Z) (w : world) (b j : nat) :
  b <> buffer (stream w) \/ (j < byteOffset (stream w))%nat
  \/ (byteOffset (stream w) + viewLength (stream w) <= j)%nat ->
  mem (written bytes w) !! b ≫= (.!! j) = mem w !! b ≫= (.!! j)
  /\ forall b', length <$> mem (written bytes w) !! b' = length <$> mem w !! b'.
Proof.
  intros Hout. split.
  - unfold written, advance. cbn [mem stream].
    generalize (index (stream w)). generalize (mem w).
    induction bytes as [|x bytes IH]; intros h i; [reflexivity|].
    cbn [store]. rewrite IH. now apply set_outside_window.
  - intros b'. unfold written, advance. cbn [mem stream].
    apply lookup_store_length.
Qed.

(** X4. The array of a substream made at a parent whose own array starts
    at the start of the buffer is the parent's array from the parent's
    index on: element [k] of the one is element [index + k] of the other,
    a byte stored through the substream is read through the parent, and
    the substream has no element [n]. *)
Theorem substream_shares_the_bytes (h : heap) (s : t) (n k v : Z) :
  backed h s ->
  byteOffset s = 0%nat ->
  0 <= index s -> 0 <= k < n ->
  index s + n <= Z.of_nat (viewLength s) ->
  exists sub,
    substream h s n = Ok sub
    /\ get h sub k = get h s (index s + k)
    /\ get (set h sub k v) s (index s + k) = Some (v mod 2 ^ 8)
    /\ get h sub n = None.
Proof.
  intros (ab & Hab & Hlen) Hoff Hi Hk Hn.
  rewrite (substream_window h s ab n Hab) by lia.
  eexists. split; [reflexivity|].
  assert (Hin : (0 <=? index s + k) && (index s + k <? Z.of_nat (viewLength s)) = true).
  { apply andb_true_iff. split; [apply Z.leb_le|apply Z.ltb_lt]; lia. }
  assert (Hsub : (0 <=? k) && (k <? Z.of_nat (Z.to_nat n)) = true).
  { apply andb_true_iff. split; [apply Z.leb_le|apply Z.ltb_lt]; lia. }
  assert (Hpos : (Z.to_nat (index s) + Z.to_nat k)%nat
                 = (byteOffset s + Z.to_nat (index s + k))%nat) by lia.
  split; [|split].
  - unfold get. cbn [viewLength buffer byteOffset]. rewrite Hin, Hsub.
    now rewrite Hpos.
  - unfold get, set. cbn [viewLength buffer byteOffset]. rewrite Hin, Hsub.
    rewrite list_lookup_alter_eq, Hab. cbn. rewrite Hpos.
    apply list_lookup_insert_eq. lia.
  - unfold get. cbn [viewLength].
    replace (n <? Z.of_nat (Z.to_nat n)) with false
      by (symmetry; apply Z.ltb_ge; lia).
    now rewrite andb_false_r.
Qed.

End Window.

(** ** Strings and arrays read from a stream *)

Section StreamReads.
Import BinaryStream.

Lemma length_peek_loop (h : heap) (s : t) (allowNulls : bool) (n : nat) :
  forall i : Z,
    (JsString.length (peek_loop h s allowNulls i n) <= n)%nat
    /\ (allowNulls = true -> JsString.length (peek_loop h s allowNulls i n) = n).
Proof.
  induction n as [|n IH]; intros i; cbn [peek_loop]; [split; reflexivity|].
  destruct (IH (i + 1)) as (Hle & Heq).
  destruct (allowNulls || (0 <? Typecast.arg (get h s (index s + i)))) eqn:Hc.
  - cbn [JsString.length]. split; [lia|]. intros Ha. now rewrite Heq.
  - split; [lia|]. intros ->. discriminate Hc.
Qed.

(** X5. [read(size, true)] of a positive size returns a string of exactly
    [size] characters wherever the stream stands, also beyond the end of
    its array; without [allowNulls] the string has at most [size]
    characters.  The index moves by [size] in both cases. *)
Theorem read_length (size : Z) (allowNulls : bool) (w : world) :
  0 < size ->
  exists data,
    read (Some size) allowNulls w = Ok (data, advance w size)
    /\ Z.of_nat (JsString.length data) <= size
    /\ (allowNulls = true -> Z.of_nat (JsString.length data) = size).
Proof.
  intros Hsize. eexists. split; [apply read_advances; lia|].
  destruct (length_peek_loop (mem w) (stream w) allowNulls (Z.to_nat size) 0)
    as (Hle & Heq).
  split; [lia|]. intros Ha. rewrite (Heq Ha). lia.
Qed.

Lemma concat_fill_peek (h : heap) (s : t) (n : nat) :
  forall i : nat,
    JsString.concat EmptyString
      ((fun k => String (fromCharCode (get h s (index s + Z.of_nat k))) EmptyString)
         <$> seq i n)
    = peek_loop h s true (Z.of_nat i) n.
Proof.
  induction n as [|n IH]; intros i; [reflexivity|].
  cbn [seq fmap list_fmap peek_loop orb].
  replace (Z.of_nat i + 1) with (Z.of_nat (S i)) by lia.
  rewrite <- IH. cbn [JsString.concat].
  destruct n; reflexivity.
Qed.

(** X6. [readCharArray(size)] returns [size] strings of one character each,
    and their concatenation is the string that [read(size, true)] returns
    from the same position; both leave the index [size] further. *)
Theorem readCharArray_is_read_with_nulls (size : Z) (w : world) :
  0 < size ->
  exists chars data,
    readCharArray size w = Ok (chars, advance w size)
    /\ read (Some size) true w = Ok (data, advance w size)
    /\ JsString.concat EmptyString chars = data
    /\ Z.of_nat (length chars) = size
    /\ Forall (fun c => JsString.length c = 1%nat) chars.
Proof.
  intros Hsize. do 2 eexists. split; [reflexivity|].
  split; [apply read_advances; lia|]. split; [|split].
  - unfold fill, at_index. apply (concat_fill_peek _ _ _ 0).
  - unfold fill. rewrite length_fmap, length_seq. lia.
  - unfold fill. apply Forall_fmap, Forall_true. reflexivity.
Qed.

Lemma fill_lookup {A} (l : nat) (element : Z -> A) (k : nat) :
  (k < l)%nat -> fill l element !! k = Some (element (Z.of_nat k)).
Proof.
  intros Hk. unfold fill. rewrite list_lookup_fmap, lookup_seq_lt by exact Hk.
  reflexivity.
Qed.

Lemma length_fill {A} (l : nat) (element : Z -> A) : length (fill l element) = l.
Proof. unfold fill. now rewrite length_fmap, length_seq. Qed.


Lemma get_past_end (h : heap) (s : t) (i : Z) :
  Z.of_nat (viewLength s) <= i -> get h s i = None.
Proof.
  intros Hi. unfold get.
  replace (i <? Z.of_nat (viewLength s)) with false
    by (symmetry; apply Z.ltb_ge; exact Hi).
  now rewrite andb_false_r.
Qed.

Lemma peek_loop_past_end (h : heap) (s : t) (n : nat) :
  forall i : Z,
    Z.of_nat (viewLength s) <= index s + i ->
    peek_loop h s false i n = EmptyString.
Proof.
  induction n as [|n IH]; intros i Hi; [reflexivity|].
  cbn [peek_loop]. rewrite get_past_end by exact Hi. cbn.
  apply IH. lia.
Qed.

(** X8. No read checks the bounds.  At or beyond the end of its array a
    stream reads the integers as 0, a byte as [undefined] and a string as
    the empty string, and moves its index as ever. *)
Theorem reads_past_the_end (w : world) :
  Z.of_nat (viewLength (stream w)) <= index (stream w) ->
  readUint32 w = Ok (0, advance w 4)
  /\ readInt32 w = Ok (0, advance w 4)
  /\ readUint16 w = Ok (0, advance w 2)
  /\ readInt8 w = Ok (0, advance w 1)
  /\ readUint8 w = Ok (None, advance w 1)
  /\ forall size, size <> 0 ->
       read (Some size) false w = Ok (EmptyString, advance w size).
Proof.
  intros Hend.
  assert (Hat : forall i, 0 <= i -> at_index w i = None).
  { intros i Hi. unfold at_index. apply get_past_end. lia. }
  unfold readUint32, readInt32, readUint16, readInt8, readUint8.
  rewrite !Hat by lia. repeat split.
  intros size Hsize. rewrite read_advances by exact Hsize.
  rewrite peek_loop_past_end by lia. reflexivity.
Qed.

End StreamReads.

Section ArrayRoundTrips.
Import BinaryStream.

Lemma lookup_concat_chunks {T} (f : T -> list Z) (n : nat) (l : list T) :
  (forall x, length (f x) = n) ->
  forall (i j : nat) (x : T),
    l !! i = Some x -> (j < n)%nat ->
    concat (f <$> l) !! (n * i + j)%nat = f x !! j.
Proof.
  intros Hf. induction l as [|y l IH]; intros i j x Hi Hj; [discriminate|].
  cbn [fmap list_fmap concat]. destruct i as [|i].
  - injection Hi as ->. rewrite Nat.mul_0_r. cbn [Nat.add].
    apply lookup_app_l. now rewrite Hf.
  - cbn in Hi. rewrite lookup_app_r by (rewrite Hf; lia).
    rewrite Hf. replace (n * S i + j - n)%nat with (n * i + j)%nat by lia.
    now apply IH.
Qed.

Lemma int16_of_low_bytes (x : Z) :
  - 2 ^ 15 <= x < 2 ^ 15 ->
  let u := x mod 2 ^ 32 in
  store_int32
    (Typecast.uint8ToInt16 (Some ((u mod 2 ^ 8) mod 2 ^ 8))
       (Some (((u / 2 ^ 8) mod 2 ^ 8) mod 2 ^ 8))) = x.
Proof.
  intros Hx u. subst u.
  unfold store_int32, Typecast.uint8ToInt16, Typecast.uint8ToUint16,
    Typecast.signed, Typecast.arg.
  cbv beta iota delta [default from_option id].
  change (2 ^ (16 - 1)) with 32768. change (2 ^ (32 - 1)) with 2147483648.
  change (2 ^ 15) with 32768 in Hx.
  change (2 ^ 32) with 4294967296. change (2 ^ 16) with 65536.
  change (2 ^ 8) with 256.
  rewrite !Z.mod_mod by lia.
  assert (Hlow : x mod 4294967296 mod 256 + x mod 4294967296 / 256 mod 256 * 256
                 = x mod 65536).
  { generalize (Z.mod_pos_bound x 4294967296). intros Hu.
    Z.div_mod_to_equations. lia. }
  rewrite Hlow.
  destruct (Z.ltb_spec (x mod 65536) 32768) as [Hs|Hs].
  - assert (x mod 65536 = x) as -> by (Z.div_mod_to_equations; lia).
    destruct (Z.ltb_spec (x mod 4294967296) 2147483648);
      Z.div_mod_to_equations; lia.
  - assert (x mod 65536 - 65536 = x) as -> by (Z.div_mod_to_equations; lia).
    destruct (Z.ltb_spec (x mod 4294967296) 2147483648);
      Z.div_mod_to_equations; lia.
Qed.

(** X9. An array of numbers that fit 16 bits, written by
    [writeInt32Array], is read back unchanged by [readInt32Array], which
    takes two of the four bytes of an element. *)
Theorem writeInt32Array_then_readInt32Array (view : list Z) (target : view_arg Z)
  (w : world) :
  Forall (fun x => - 2 ^ 15 <= x < 2 ^ 15) view ->
  room w (4 * Z.of_nat (length view)) ->
  view_length target = length view ->
  (writeInt32Array view;; seek (index (stream w));; readInt32Array target) w
  = Ok (view, written (concat (Typecast.int32ToUint8 <$> view)) w).
Proof.
  intros Hview Hroom Hlen.
  set (bytes := concat (Typecast.int32ToUint8 <$> view)).
  assert (Hbytes : length bytes = (4 * length view)%nat).
  { apply length_concat_chunks. intros x. reflexivity. }
  assert (Hroom' : room w (Z.of_nat (length bytes))).
  { rewrite Hbytes. now replace (Z.of_nat (4 * length view))
      with (4 * Z.of_nat (length view)) by lia. }
  unfold mbind, M_bind, bind, writeInt32Array. fold bytes.
  change (put bytes w) with (Ok (A := unit * world) (tt, written bytes w)).
  cbv beta iota. rewrite seek_back. cbv beta iota.
  unfold readInt32Array. rewrite Hlen.
  replace (4 * Z.of_nat (length view)) with (Z.of_nat (length bytes)) by lia.
  rewrite written_rewound. do 2 f_equal.
  apply list_eq. intros k.
  destruct (view !! k) as [x|] eqn:Hx.
  - rewrite fill_lookup by (apply lookup_lt_Some in Hx; exact Hx).
    cbv beta zeta. f_equal.
    assert (H0 : bytes !! (4 * k + 0)%nat = Typecast.int32ToUint8 x !! 0%nat)
      by (apply lookup_concat_chunks; [reflexivity|exact Hx|lia]).
    assert (H1 : bytes !! (4 * k + 1)%nat = Typecast.int32ToUint8 x !! 1%nat)
      by (apply lookup_concat_chunks; [reflexivity|exact Hx|lia]).
    replace (4 * Z.of_nat k) with (Z.of_nat (4 * k + 0)) by lia.
    rewrite (written_holds bytes w Hroom' _ _ H0).
    replace (Z.of_nat (4 * k + 0) + 1) with (Z.of_nat (4 * k + 1)) by lia.
    rewrite (written_holds bytes w Hroom' _ _ H1).
    apply int16_of_low_bytes.
    exact (Forall_lookup_1 _ _ _ _ Hview Hx).
  - apply lookup_ge_None. rewrite length_fill.
    now apply lookup_ge_None.
Qed.

End ArrayRoundTrips.

(** ** [TokenStream.read]: where it stops and what it returns *)

Section ReadFacts.
Import TokenStream.
Local Open Scope js_scope.

Lemma length_drop (n : nat) (b : string) :
  JsString.length (drop n b) = (JsString.length b - n)%nat.
Proof.
  revert b. induction n as [|n IH]; intros b; cbn; [lia|].
  destruct b as [|c b]; cbn; [reflexivity|apply IH].
Qed.

Lemma read_loop_index (text : string) :
  forall (i : nat) (inComment inString : bool) (token : string)
         (r : option string) (j : nat),
    read_loop text i inComment inString token = (r, j) ->
    match r with
    | None => j = (i + JsString.length text)%nat
    | Some _ =>
        (j <= i + JsString.length text)%nat
        /\ (i <= j)%nat
        /\ (nonempty token = false -> (i < j)%nat)
    end.
Proof.
  induction text as [|c text IH]; intros i inComment inString token r j Hr.
  - cbn in Hr. injection Hr as <- <-. cbn. lia.
  - cbn [read_loop] in Hr. cbn [JsString.length].
    assert (Hstep : forall c' s' tok',
              read_loop text (S i) c' s' tok' = (r, j) ->
              match r with
              | None => j = (i + S (JsString.length text))%nat
              | Some _ =>
                  (j <= i + S (JsString.length text))%nat
                  /\ (i <= j)%nat
                  /\ (nonempty token = false -> (i < j)%nat)
              end).
    { intros c' s' tok' Hr'. apply IH in Hr'. destruct r; lia. }
    repeat match type of Hr with
           | (if ?b then _ else _) = _ => destruct b eqn:?
           end;
      try (injection Hr as <- <-; cbn [Nat.pred]; repeat split; try lia;
           intros; congruence);
      try (eapply Hstep; eassumption).
Qed.

Lemma read_index (s : t) :
  buffer (snd (read s)) = buffer s
  /\ ident (snd (read s)) = ident s
  /\ match fst (read s) with
     | Some _ =>
         (index s < index (snd (read s)) <= JsString.length (buffer s))%nat
     | None =>
         index (snd (read s)) = Nat.max (index s) (JsString.length (buffer s))
     end.
Proof.
  unfold read.
  destruct (read_loop (drop (index s) (buffer s)) (index s) false false EmptyString)
    as [r j] eqn:Hr.
  cbn [fst snd with_index buffer ident index]. split; [reflexivity|].
  split; [reflexivity|].
  apply read_loop_index in Hr. rewrite length_drop in Hr.
  destruct r as [token|].
  - destruct Hr as (Hle & _ & Hlt). specialize (Hlt eq_refl). lia.
  - lia.
Qed.

(** X10. [read] never moves the index backwards and never beyond the end
    of the text.  When it returns a token it has consumed at least one
    character; it returns [undefined] only with the whole text consumed.
    The text and the indentation are untouched. *)
Theorem read_moves_forward (s : t) :
  buffer (snd (read s)) = buffer s
  /\ ident (snd (read s)) = ident s
  /\ match fst (read s) with
     | Some _ =>
         (index s < index (snd (read s)) <= JsString.length (buffer s))%nat
     | None =>
         index (snd (read s)) = Nat.max (index s) (JsString.length (buffer s))
     end.
Proof. exact (read_index s). Qed.


Lemma free_of_snoc (q : char) (token : string) (c : char) :
  free_of q token = true -> eqc c q = false ->
  free_of q (token ++ String c EmptyString) = true.
Proof.
  intros Ht Hc. induction token as [|d token IH]; cbn in *.
  - now rewrite Hc.
  - apply andb_true_iff in Ht as (Hd & Ht). rewrite Hd. now apply IH.
Qed.

Lemma all_token_chars_snoc (token : string) (c : char) :
  all_token_chars token = true -> token_char c = true ->
  all_token_chars (token ++ String c EmptyString) = true.
Proof.
  intros Ht Hc. induction token as [|d token IH]; cbn in *.
  - now rewrite Hc.
  - apply andb_true_iff in Ht as (Hd & Ht). rewrite Hd. now apply IH.
Qed.

Lemma nonempty_snoc (token : string) (c : char) :
  nonempty (token ++ String c EmptyString) = true.
Proof. now destruct token. Qed.

Lemma read_loop_free_of_quote (text : string) :
  forall (i : nat) (inComment inString : bool) (token result : string) (j : nat),
    read_loop text i inComment inString token = (Some result, j) ->
    free_of quote token = true ->
    free_of quote result = true.
Proof.
  induction text as [|c text IH]; intros i inComment inString token result j Hr Ht.
  - discriminate Hr.
  - cbn [read_loop] in Hr.
    repeat match type of Hr with
           | (if ?b then _ else _) = _ => destruct b eqn:?
           end;
      try (injection Hr as <- <-; first [exact Ht|reflexivity]);
      try (eapply IH; [eassumption|]; first [exact Ht|now apply free_of_snoc]).
    match goal with Hb : is_brace c = true |- _ =>
      unfold is_brace in Hb; apply orb_true_iff in Hb as [Hb|Hb];
      apply char_eqb_eq in Hb; subst c
    end; injection Hr as <- <-; reflexivity.
Qed.

Lemma read_loop_unquoted (text : string) :
  forall (i : nat) (inComment : bool) (token result : string) (j : nat),
    read_loop text i inComment false token = (Some result, j) ->
    free_of quote text = true ->
    all_token_chars token = true ->
    result = "{" \/ result = "}"
    \/ nonempty result = true /\ all_token_chars result = true.
Proof.
  induction text as [|c text IH]; intros i inComment token result j Hr Hq Ht.
  - discriminate Hr.
  - cbn [read_loop] in Hr. cbn [free_of] in Hq.
    apply andb_true_iff in Hq as (Hc & Hq). apply negb_true_iff in Hc.
    repeat match type of Hr with
           | (if ?b then _ else _) = _ => destruct b eqn:?
           end;
      try congruence;
      try (injection Hr as <- <-; right; right; split; assumption);
      try (eapply IH; [eassumption|exact Hq|exact Ht]).
    + injection Hr as <- <-.
      match goal with Hb : is_brace c = true |- _ =>
        unfold is_brace in Hb; apply orb_true_iff in Hb as [Hb|Hb];
        apply char_eqb_eq in Hb; subst c
      end; [left|right; left]; reflexivity.
    + eapply IH; [eassumption|exact Hq|]. apply all_token_chars_snoc; [exact Ht|].
      unfold token_char.
      repeat match goal with
             | Hb : is_separator c = false |- _ => rewrite Hb; clear Hb
             | Hb : is_brace c = false |- _ => rewrite Hb; clear Hb
             | Hb : eqc c quote = false |- _ => rewrite Hb; clear Hb
             end.
      reflexivity.
Qed.

(** X11. A token never holds a quote character; and where the text yet to
    read has no quote character, a token is a brace or a text that is
    not empty and holds no space, comma, tab, newline, colon, carriage
    return or brace. *)
Theorem read_token_characters (s : t) (token : string) (s' : t) :
  read s = (Some token, s') ->
  free_of quote token = true
  /\ (free_of quote (rest s) = true ->
      token = "{" \/ token = "}"
      \/ nonempty token = true /\ all_token_chars token = true).
Proof.
  unfold read, rest.
  destruct (read_loop (drop (index s) (buffer s)) (index s) false false EmptyString)
    as [r j] eqn:Hr.
  intros Hread. injection Hread as -> _. split.
  - eapply read_loop_free_of_quote; [exact Hr|reflexivity].
  - intros Hq. eapply read_loop_unquoted; [exact Hr|exact Hq|reflexivity].
Qed.


Lemma free_of_drop (c : char) (n : nat) (b : string) :
  free_of c b = true -> free_of c (drop n b) = true.
Proof.
  revert b. induction n as [|n IH]; intros b Hb; [exact Hb|].
  destruct b as [|d b]; [reflexivity|]. cbn in *.
  apply andb_true_iff in Hb as (_ & Hb). now apply IH.
Qed.

Lemma free_of_rest_later (c : char) (s s' : t) :
  buffer s' = buffer s -> (index s <= index s')%nat ->
  free_of c (rest s) = true -> free_of c (rest s') = true.
Proof.
  intros Hb Hi Hfree. unfold rest in *. rewrite Hb.
  replace (index s') with (index s + (index s' - index s))%nat by lia.
  rewrite drop_plus. now apply free_of_drop.
Qed.

Lemma read_loop_free_of_closing (text : string) :
  forall (i : nat) (inComment inString : bool) (token result : string) (j : nat),
    read_loop text i inComment inString token = (Some result, j) ->
    free_of "}" text = true ->
    free_of "}" token = true ->
    free_of "}" result = true.
Proof.
  induction text as [|c text IH]; intros i inComment inString token result j Hr Hq Ht.
  - discriminate Hr.
  - cbn [read_loop] in Hr. cbn [free_of] in Hq.
    apply andb_true_iff in Hq as (Hc & Hq). apply negb_true_iff in Hc.
    repeat match type of Hr with
           | (if ?b then _ else _) = _ => destruct b eqn:?
           end;
      try (injection Hr as <- <-; first [exact Ht|cbn; now rewrite Hc]);
      try (eapply IH; [eassumption|exact Hq|];
           first [exact Ht|now apply free_of_snoc]).
Qed.

Lemma read_free_of_closing (s : t) :
  free_of "}" (rest s) = true -> token_is (fst (read s)) "}" = false.
Proof.
  unfold read, rest. intros Hfree.
  destruct (read_loop (drop (index s) (buffer s)) (index s) false false EmptyString)
    as [[token|] j] eqn:Hr; [|reflexivity].
  apply read_loop_free_of_closing in Hr; [|exact Hfree|reflexivity].
  cbn. destruct (string_eqb_spec token "}") as [->|]; [discriminate Hr|reflexivity].
Qed.

Section BlockEnds.
Context {A : Type} (body : option string -> A -> t -> option (Result (A * t))).
Hypothesis body_total : forall token a s, body token a s <> None.
Hypothesis body_forward :
  forall token a s a' s',
    body token a s = Some (Ok (a', s')) ->
    buffer s' = buffer s /\ (index s <= index s')%nat.
Hypothesis body_undefined :
  forall a s a' s', body None a s <> Some (Ok (a', s')).

Lemma block_loop_ends (fuel : nat) :
  forall (a : A) (s : t),
    (JsString.length (buffer s) - index s < fuel)%nat ->
    exists r, block_loop body fuel a s = Some r.
Proof.
  induction fuel as [|fuel IH]; intros a s Hfuel; [lia|].
  cbn [block_loop]. pose proof (read_index s) as (Hb & _ & Hi).
  destruct (read s) as [token s1]. cbn [fst snd] in *.
  destruct (token_is token "}"); [eexists; reflexivity|].
  destruct (body token a s1) as [[[a' s2]|e]|] eqn:Hbody.
  - destruct token as [token|]; [|now apply body_undefined in Hbody].
    apply body_forward in Hbody as (Hb2 & Hi2).
    apply IH. rewrite Hb2, Hb. lia.
  - eexists; reflexivity.
  - now apply body_total in Hbody.
Qed.

Variable expected : error -> Prop.
Hypothesis body_throws :
  forall token a s e, body token a s = Some (Throw e) -> expected e.

Lemma block_loop_without_closing (fuel : nat) :
  forall (a : A) (s : t) (r : Result (A * t)),
    free_of "}" (rest s) = true ->
    block_loop body fuel a s = Some r ->
    exists e, r = Throw e /\ expected e.
Proof.
  induction fuel as [|fuel IH]; intros a s r Hfree Hr; [discriminate Hr|].
  cbn [block_loop] in Hr. pose proof (read_index s) as (Hb & _ & Hi).
  pose proof (read_free_of_closing s Hfree) as Hnot.
  destruct (read s) as [token s1]. cbn [fst snd] in *. rewrite Hnot in Hr.
  assert (Hi1 : (index s <= index s1)%nat) by (destruct token; lia).
  destruct (body token a s1) as [[[a' s2]|e]|] eqn:Hbody.
  - apply body_forward in Hbody as (Hb2 & Hi2).
    apply (IH a' s2); [|exact Hr].
    apply (free_of_rest_later _ s); [congruence|lia|exact Hfree].
  - injection Hr as <-. exists e. split; [reflexivity|].
    now apply body_throws in Hbody.
  - discriminate Hr.
Qed.

End BlockEnds.

Section TextureEnds.
Context `{JsFloat}.

Lemma Texture_body_total token (this : Texture.t) s :
  Texture.readMdl_body token this s <> None.
Proof.
  unfold Texture.readMdl_body, readInt.
  repeat match goal with
         | |- context [if ?b then _ else _] => destruct b
         | |- context [read ?s] => destruct (read s)
         end; discriminate.
Qed.

Lemma Texture_body_forward token (this : Texture.t) s (this' : Texture.t) s' :
  Texture.readMdl_body token this s = Some (Ok (this', s')) ->
  buffer s' = buffer s /\ (index s <= index s')%nat.
Proof.
  unfold Texture.readMdl_body, readInt. intros Hbody.
  pose proof (read_index s) as (Hb & _ & Hi).
  destruct (read s) as [token' s1]. cbn [fst snd] in *.
  assert (Hi1 : (index s <= index s1)%nat) by (destruct token'; lia).
  repeat match type of Hbody with
         | (if ?b then _ else _) = _ => destruct b
         end;
    try discriminate Hbody; inversion Hbody; subst; auto.
Qed.

Lemma Texture_body_undefined (this : Texture.t) s (this' : Texture.t) s' :
  Texture.readMdl_body None this s <> Some (Ok (this', s')).
Proof. discriminate. Qed.

Lemma Texture_body_throws token (this : Texture.t) s e :
  Texture.readMdl_body token this s = Some (Throw e) ->
  exists token', e = Error (Texture.unknown_token token').
Proof.
  unfold Texture.readMdl_body, readInt. intros Hbody.
  repeat match type of Hbody with
         | (if ?b then _ else _) = _ => destruct b
         | context [read ?s] => destruct (read s)
         end;
    try discriminate Hbody.
  injection Hbody as <-. now exists token.
Qed.

(** X12. [Texture.readMdl] ends on every text: a number of rounds greater
    than the number of characters left suffices for the loop over the
    block to return or to throw. *)
Theorem Texture_readMdl_ends (fuel : nat) (this : Texture.t) (stream : t) :
  (JsString.length (buffer stream) - index stream < fuel)%nat ->
  exists r, Texture.readMdl fuel this stream = Some r.
Proof.
  intros Hfuel. unfold Texture.readMdl, for_readBlock.
  pose proof (read_index stream) as (Hb & _ & Hi).
  destruct (read stream) as [token s1]. cbn [fst snd] in *.
  apply block_loop_ends.
  - apply Texture_body_total.
  - apply Texture_body_forward.
  - apply Texture_body_undefined.
  - rewrite Hb. destruct token; lia.
Qed.

(** X13. On a text without a closing brace [Texture.readMdl] throws the
    error of an unknown token: a block that is cut short is never loaded
    as if it were whole. *)
Theorem Texture_readMdl_without_closing_brace (fuel : nat) (this : Texture.t)
  (stream : t) :
  free_of "}" (rest stream) = true ->
  (JsString.length (buffer stream) - index stream < fuel)%nat ->
  exists token,
    Texture.readMdl fuel this stream
    = Some (Throw (Error (Texture.unknown_token token))).
Proof.
  intros Hfree Hfuel. unfold Texture.readMdl, for_readBlock.
  pose proof (read_index stream) as (Hb & _ & Hi).
  destruct (read stream) as [token s1]. cbn [fst snd] in *.
  assert (Hi1 : (index stream <= index s1)%nat) by (destruct token; lia).
  destruct (block_loop_ends Texture.readMdl_body Texture_body_total
              Texture_body_forward Texture_body_undefined fuel this s1)
    as (r & Hr).
  { rewrite Hb. lia. }
  destruct (block_loop_without_closing Texture.readMdl_body Texture_body_forward
              (fun e => exists token', e = Error (Texture.unknown_token token'))
              Texture_body_throws fuel this s1 r)
    as (e & -> & token' & ->).
  - now apply (free_of_rest_later _ stream).
  - exact Hr.
  - now exists token'.
Qed.

End TextureEnds.

End ReadFacts.

(** ** Reading back the text that the writers produce *)

Section TextRoundTrips.
Import TokenStream.
Local Open Scope js_scope.

Lemma append_empty (a : string) : a ++ EmptyString = a.
Proof. induction a as [|x a IH]; cbn; [reflexivity|now rewrite IH]. Qed.

Lemma all_separators_append (a b : string) :
  all_separators a = true -> all_separators b = true ->
  all_separators (a ++ b) = true.
Proof.
  intros Ha Hb. induction a as [|c a IH]; cbn in *; [exact Hb|].
  apply andb_true_iff in Ha as (Hc & Ha). rewrite Hc. now apply IH.
Qed.

Lemma all_separators_tabs (n : nat) : all_separators (repeat_tab n) = true.
Proof. induction n as [|n IH]; [reflexivity|exact IH]. Qed.

Lemma read_loop_skip (seps : string) :
  forall (text : string) (i : nat),
    all_separators seps = true ->
    read_loop (seps ++ text) i false false EmptyString
    = read_loop text (i + JsString.length seps) false false EmptyString.
Proof.
  induction seps as [|c seps IH]; intros text i Hseps; cbn [JsString.append JsString.length].
  - now rewrite Nat.add_0_r.
  - cbn in Hseps. apply andb_true_iff in Hseps as (Hc & Hseps).
    cbn [read_loop]. rewrite Hc. cbn [nonempty]. rewrite IH by exact Hseps.
    f_equal. lia.
Qed.

Lemma read_loop_quoted (p : string) :
  forall (acc text : string) (i : nat),
    free_of quote p = true ->
    read_loop (p ++ String quote text) i false true acc
    = (Some (acc ++ p), (i + JsString.length p + 1)%nat).
Proof.
  induction p as [|c p IH]; intros acc text i Hp; cbn [JsString.append JsString.length].
  - cbn. rewrite append_empty. f_equal. lia.
  - cbn in Hp. apply andb_true_iff in Hp as (Hc & Hp).
    apply negb_true_iff in Hc. cbn [read_loop]. rewrite Hc.
    rewrite IH by exact Hp. rewrite append_assoc. cbn. f_equal. lia.
Qed.

Lemma rest_past (s : t) (pre text : string) :
  rest s = pre ++ text ->
  rest (with_index s (index s + JsString.length pre)) = text.
Proof. unfold rest. cbn [index buffer with_index]. apply drop_past. Qed.

(** A token of plain characters after separators, before a separator. *)
Lemma read_token (s : t) (seps token : string) (d : char) (text : string) :
  rest s = seps ++ token ++ String d text ->
  all_separators seps = true ->
  is_plain token = true ->
  is_separator d = true ->
  exists s', read s = (Some token, s') /\ rest s' = text.
Proof.
  intros Hrest Hseps Hplain Hd.
  exists (with_index s (index s + JsString.length (seps ++ token ++ String d EmptyString))).
  split.
  - rewrite (read_from s _ Hrest). rewrite read_loop_skip by exact Hseps.
    apply andb_true_iff in Hplain as (Hne & Hplain).
    rewrite read_loop_plain by assumption. cbn [fst snd JsString.append].
    do 2 f_equal. rewrite !length_append. cbn. lia.
  - apply rest_past. rewrite Hrest, !append_assoc. reflexivity.
Qed.

(** A string in quotes after separators. *)
Lemma read_string (s : t) (seps p text : string) :
  rest s = seps ++ String quote (p ++ String quote text) ->
  all_separators seps = true ->
  free_of quote p = true ->
  exists s', read s = (Some p, s') /\ rest s' = text.
Proof.
  intros Hrest Hseps Hp.
  exists (with_index s
            (index s + JsString.length (seps ++ String quote (p ++ String quote EmptyString)))).
  split.
  - rewrite (read_from s _ Hrest). rewrite read_loop_skip by exact Hseps.
    cbn [read_loop]. change (is_separator quote) with false.
    change (is_brace quote) with false. change (eqc quote "/"%jschar) with false.
    change (eqc quote quote) with true. cbn [andb nonempty].
    rewrite read_loop_quoted by exact Hp. cbn [fst snd JsString.append].
    do 2 f_equal. rewrite !length_append. cbn. rewrite length_append. cbn. lia.
  - apply rest_past. rewrite Hrest, !append_assoc. cbn.
    rewrite !append_assoc. reflexivity.
Qed.

(** A brace after separators. *)
Lemma read_a_brace (s : t) (seps : string) (c : char) (text : string) :
  rest s = seps ++ String c text ->
  all_separators seps = true ->
  is_brace c = true ->
  exists s', read s = (Some (String c EmptyString), s') /\ rest s' = text.
Proof.
  intros Hrest Hseps Hc.
  exists (with_index s (index s + JsString.length (seps ++ String c EmptyString))).
  split.
  - rewrite (read_from s _ Hrest). rewrite read_loop_skip by exact Hseps.
    cbn [read_loop]. rewrite Hc.
    assert (is_separator c = false) as ->.
    { unfold is_brace in Hc. apply orb_true_iff in Hc as [Hc|Hc];
        apply char_eqb_eq in Hc; subst c; reflexivity. }
    cbn [nonempty fst snd]. do 2 f_equal. rewrite length_append. cbn. lia.
  - apply rest_past. rewrite Hrest, !append_assoc. reflexivity.
Qed.


Lemma writeLine_ok (line : string) (s : t) :
  0 <= ident s ->
  writeLine line s
  = Ok (mk (buffer s ++ repeat_tab (Z.to_nat (ident s)) ++ line
            ++ String newline EmptyString) (index s) (ident s)).
Proof.
  intros Hident. unfold writeLine.
  now replace (ident s <? 0)%Z with false by (symmetry; apply Z.ltb_ge; lia).
Qed.

(** X14. A block that is started and ended has its closing brace at the
    indentation of its header, the lines written in between are one tab
    deeper, and the indentation is afterwards what it was.  Ending a block
    that was not started, at indentation 0, throws a [RangeError]. *)
Theorem block_indentation (headers : list string) (line : string) (s : t) :
  0 <= ident s ->
  (exists s1 s2 s3,
     startBlock headers s = Ok s1
     /\ writeLine line s1 = Ok s2
     /\ endBlock s2 = Ok s3
     /\ ident s3 = ident s
     /\ index s3 = index s
     /\ buffer s3
        = buffer s
          ++ repeat_tab (Z.to_nat (ident s))
          ++ match headers with
             | [] => "{"
             | _ => join " " headers ++ " {"
             end
          ++ String newline
               (repeat_tab (S (Z.to_nat (ident s))) ++ line
                ++ String newline
                     (repeat_tab (Z.to_nat (ident s)) ++ "}"
                      ++ String newline EmptyString)))
  /\ (ident s = 0 -> endBlock s = Throw RangeError).
Proof.
  intros Hident. split.
  - unfold startBlock, endBlock. rewrite writeLine_ok by exact Hident.
    do 3 eexists. split; [reflexivity|].
    rewrite writeLine_ok by (cbn; lia). split; [reflexivity|].
    rewrite writeLine_ok by (cbn; lia). split; [reflexivity|].
    cbn [ident index buffer with_ident].
    split; [lia|]. split; [reflexivity|].
    replace (Z.to_nat (ident s + 1)) with (S (Z.to_nat (ident s))) by lia.
    replace (Z.to_nat (ident s + 1 - 1)) with (Z.to_nat (ident s)) by lia.
    rewrite !append_assoc. reflexivity.
  - intros H0. unfold endBlock, writeLine. cbn [ident with_ident].
    now rewrite H0.
Qed.

End TextRoundTrips.

Section TextureText.
Import TokenStream.
Local Open Scope js_scope.
Context `{JsFloat} `{JsNumber}.

Lemma Texture_writeMdl_text (this : Texture.t) (s : t) :
  0 <= ident s ->
  exists s',
    Texture.writeMdl this s = Ok s'
    /\ rest (with_index s' (after_name s "Bitmap"))
       = Texture.mdl_text (Z.to_nat (ident s)) this.
Proof.
  intros Hident. unfold Texture.writeMdl, startBlock, endBlock, writeStringAttrib,
    writeAttrib, writeFlag.
  rewrite writeLine_ok by exact Hident. cbn [mbind Result_bind].
  rewrite writeLine_ok by (cbn; lia).
  cbn [ident index buffer with_ident].
  replace (Z.to_nat (ident s + 1)) with (S (Z.to_nat (ident s))) by lia.
  set (n := Z.to_nat (ident s)).
  assert (Hpos : forall x, rest (with_index (mk (buffer s ++ repeat_tab n ++ "Bitmap " ++ x)
                                               (index s) (ident s))
                                   (after_name s "Bitmap")) = x).
  { intros x. unfold rest, after_name. cbn [index buffer with_index]. fold n.
    replace (JsString.length (buffer s) + n + JsString.length "Bitmap" + 1)%nat
      with (JsString.length (buffer s ++ repeat_tab n ++ "Bitmap "))
      by (rewrite !length_append, length_repeat_tab; cbn; lia).
    rewrite <- (drop_append (buffer s ++ repeat_tab n ++ "Bitmap ") x) at 2.
    now rewrite !append_assoc. }
  unfold Texture.mdl_text.
  destruct (Texture.is_nonzero (Texture.replaceableId this));
    destruct (Texture.has_bit (Texture.flags this) 1);
    destruct (Texture.has_bit (Texture.flags this) 2);
    cbn [mbind Result_bind mret Result_ret];
    repeat (rewrite writeLine_ok by (cbn; lia);
            cbn [ident index buffer with_ident mbind Result_bind]);
    replace (Z.to_nat (ident s + 1)) with (S n) by lia;
    replace (Z.to_nat (ident s + 1 - 1)) with n by lia;
    eexists; (split; [reflexivity|]);
    rewrite <- Hpos; rewrite ?append_assoc; cbn; rewrite ?append_assoc;
    cbn; rewrite ?append_assoc; reflexivity.
Qed.


Lemma block_loop_closing {A} (body : option string -> A -> t -> option (Result (A * t)))
  (fuel : nat) (a : A) (s : t) (seps text : string) :
  rest s = seps ++ String "}" text ->
  all_separators seps = true ->
  exists s', rest s' = text /\ block_loop body (S fuel) a s = Some (Ok (a, s')).
Proof.
  intros Hrest Hseps.
  destruct (read_a_brace s seps "}" text Hrest Hseps eq_refl) as (s' & Hread & Hs').
  exists s'. split; [exact Hs'|]. cbn [block_loop]. now rewrite Hread.
Qed.

Lemma Texture_round_Image (fuel : nat) (this : Texture.t) (s : t)
  (seps p text : string) :
  rest s = seps ++ "Image " ++ String quote (p ++ String quote text) ->
  all_separators seps = true ->
  free_of quote p = true ->
  exists s',
    rest s' = text
    /\ block_loop Texture.readMdl_body (S fuel) this s
       = block_loop Texture.readMdl_body fuel
           (Texture.mk (Texture.replaceableId this) (Some p) (Texture.flags this)) s'.
Proof.
  intros Hrest Hseps Hp.
  destruct (read_token s seps "Image" " " (String quote (p ++ String quote text)))
    as (s1 & Hread1 & Hs1); [exact Hrest|exact Hseps|reflexivity..|].
  destruct (read_string s1 EmptyString p text Hs1 eq_refl Hp) as (s2 & Hread2 & Hs2).
  exists s2. split; [exact Hs2|]. cbn [block_loop]. rewrite Hread1.
  cbn. now rewrite Hread2.
Qed.

Lemma Texture_round_ReplaceableId (fuel : nat) (this : Texture.t) (s : t)
  (seps value : string) (d : char) (text : string) :
  rest s = seps ++ "ReplaceableId " ++ value ++ String d text ->
  all_separators seps = true ->
  is_plain value = true ->
  is_separator d = true ->
  exists s',
    rest s' = text
    /\ block_loop Texture.readMdl_body (S fuel) this s
       = block_loop Texture.readMdl_body fuel
           (Texture.mk (parseInt (Some value)) (Texture.path this)
              (Texture.flags this)) s'.
Proof.
  intros Hrest Hseps Hvalue Hd.
  destruct (read_token s seps "ReplaceableId" " " (value ++ String d text))
    as (s1 & Hread1 & Hs1); [exact Hrest|exact Hseps|reflexivity..|].
  destruct (read_token s1 EmptyString value d text Hs1 eq_refl Hvalue Hd)
    as (s2 & Hread2 & Hs2).
  exists s2. split; [exact Hs2|]. cbn [block_loop]. rewrite Hread1.
  cbn. unfold readInt. now rewrite Hread2.
Qed.

Lemma Texture_round_WrapWidth (fuel : nat) (this : Texture.t) (s : t)
  (seps text : string) :
  rest s = seps ++ "WrapWidth," ++ text ->
  all_separators seps = true ->
  exists s',
    rest s' = text
    /\ block_loop Texture.readMdl_body (S fuel) this s
       = block_loop Texture.readMdl_body fuel
           (Texture.mk (Texture.replaceableId this) (Texture.path this)
              (Texture.bit_or (Texture.flags this) 1)) s'.
Proof.
  intros Hrest Hseps.
  destruct (read_token s seps "WrapWidth" "," text)
    as (s1 & Hread1 & Hs1); [exact Hrest|exact Hseps|reflexivity..|].
  exists s1. split; [exact Hs1|]. cbn [block_loop]. now rewrite Hread1.
Qed.

Lemma Texture_round_WrapHeight (fuel : nat) (this : Texture.t) (s : t)
  (seps text : string) :
  rest s = seps ++ "WrapHeight," ++ text ->
  all_separators seps = true ->
  exists s',
    rest s' = text
    /\ block_loop Texture.readMdl_body (S fuel) this s
       = block_loop Texture.readMdl_body fuel
           (Texture.mk (Texture.replaceableId this) (Texture.path this)
              (Texture.bit_or (Texture.flags this) 2)) s'.
Proof.
  intros Hrest Hseps.
  destruct (read_token s seps "WrapHeight" "," text)
    as (s1 & Hread1 & Hs1); [exact Hrest|exact Hseps|reflexivity..|].
  exists s1. split; [exact Hs1|]. cbn [block_loop]. now rewrite Hread1.
Qed.

(** The flags that the two optional lines restore. *)
Lemma Texture_text_flags (this : Texture.t) (n : nat) (fuel : nat)
  (lead : string) (s : t) :
  rest s
  = lead ++ (if Texture.has_bit (Texture.flags this) 1
             then repeat_tab (S n) ++ "WrapWidth," ++ String newline EmptyString
             else EmptyString)
    ++ (if Texture.has_bit (Texture.flags this) 2
        then repeat_tab (S n) ++ "WrapHeight," ++ String newline EmptyString
        else EmptyString)
    ++ repeat_tab n ++ "}" ++ String newline EmptyString ->
  all_separators lead = true ->
  forall that : Texture.t,
  exists s',
    block_loop Texture.readMdl_body (S (S (S fuel))) that s
    = Some (Ok (Texture.mk (Texture.replaceableId that) (Texture.path that)
                  (let f := if Texture.has_bit (Texture.flags this) 1
                            then Texture.bit_or (Texture.flags that) 1
                            else Texture.flags that in
                   if Texture.has_bit (Texture.flags this) 2
                   then Texture.bit_or f 2 else f), s')).
Proof.
  intros Hrest Hlead that.
  assert (Htabs : forall k, all_separators (lead ++ repeat_tab k) = true)
    by (intros k; apply all_separators_append;
        [exact Hlead|apply all_separators_tabs]).
  assert (Htabs' : forall k, all_separators (String newline (repeat_tab k)) = true)
    by (intros k; apply all_separators_tabs).
  destruct (Texture.has_bit (Texture.flags this) 1);
    destruct (Texture.has_bit (Texture.flags this) 2); cbv zeta.
  - destruct (Texture_round_WrapWidth (S (S fuel)) that s (lead ++ repeat_tab (S n))
                (String newline (repeat_tab (S n) ++ "WrapHeight,"
                                 ++ String newline (repeat_tab n ++ "}"
                                 ++ String newline EmptyString))))
      as (s1 & Hs1 & Hround); [|apply Htabs|].
    { rewrite Hrest, !append_assoc. cbn. rewrite ?append_assoc. reflexivity. }
    rewrite Hround; clear Hround; cbn [Texture.replaceableId Texture.path Texture.flags].
    destruct (Texture_round_WrapHeight (S fuel) (Texture.mk (Texture.replaceableId that)
                (Texture.path that) (Texture.bit_or (Texture.flags that) 1)) s1
                (String newline (repeat_tab (S n)))
                (String newline (repeat_tab n ++ "}" ++ String newline EmptyString)))
      as (s2 & Hs2 & Hround); [|apply Htabs'|].
    { rewrite Hs1. cbn. rewrite ?append_assoc. reflexivity. }
    rewrite Hround; clear Hround; cbn [Texture.replaceableId Texture.path Texture.flags].
    destruct (block_loop_closing Texture.readMdl_body fuel
                (Texture.mk (Texture.replaceableId that) (Texture.path that)
                   (Texture.bit_or (Texture.bit_or (Texture.flags that) 1) 2)) s2
                (String newline (repeat_tab n)) (String newline EmptyString))
      as (s3 & _ & Hround); [|apply Htabs'|].
    { rewrite Hs2. cbn. rewrite ?append_assoc. reflexivity. }
    rewrite Hround; clear Hround; cbn [Texture.replaceableId Texture.path Texture.flags].
    now exists s3.
  - destruct (Texture_round_WrapWidth (S (S fuel)) that s (lead ++ repeat_tab (S n))
                (String newline (repeat_tab n ++ "}" ++ String newline EmptyString)))
      as (s1 & Hs1 & Hround); [|apply Htabs|].
    { rewrite Hrest, !append_assoc. cbn. rewrite ?append_assoc. reflexivity. }
    rewrite Hround; clear Hround; cbn [Texture.replaceableId Texture.path Texture.flags].
    destruct (block_loop_closing Texture.readMdl_body (S fuel)
                (Texture.mk (Texture.replaceableId that) (Texture.path that)
                   (Texture.bit_or (Texture.flags that) 1)) s1
                (String newline (repeat_tab n)) (String newline EmptyString))
      as (s3 & _ & Hround); [|apply Htabs'|].
    { rewrite Hs1. cbn. rewrite ?append_assoc. reflexivity. }
    rewrite Hround; clear Hround; cbn [Texture.replaceableId Texture.path Texture.flags].
    now exists s3.
  - destruct (Texture_round_WrapHeight (S (S fuel)) that s (lead ++ repeat_tab (S n))
                (String newline (repeat_tab n ++ "}" ++ String newline EmptyString)))
      as (s1 & Hs1 & Hround); [|apply Htabs|].
    { rewrite Hrest, !append_assoc. cbn. rewrite ?append_assoc. reflexivity. }
    rewrite Hround; clear Hround; cbn [Texture.replaceableId Texture.path Texture.flags].
    destruct (block_loop_closing Texture.readMdl_body (S fuel)
                (Texture.mk (Texture.replaceableId that) (Texture.path that)
                   (Texture.bit_or (Texture.flags that) 2)) s1
                (String newline (repeat_tab n)) (String newline EmptyString))
      as (s3 & _ & Hround); [|apply Htabs'|].
    { rewrite Hs1. cbn. rewrite ?append_assoc. reflexivity. }
    rewrite Hround; clear Hround; cbn [Texture.replaceableId Texture.path Texture.flags].
    now exists s3.
  - destruct (block_loop_closing Texture.readMdl_body (S (S fuel)) that s
                (lead ++ repeat_tab n) (String newline EmptyString))
      as (s3 & _ & Hround); [|apply Htabs|].
    { rewrite Hrest, !append_assoc. cbn. rewrite ?append_assoc. reflexivity. }
    rewrite Hround; clear Hround; cbn [Texture.replaceableId Texture.path Texture.flags].
    exists s3. now destruct that.
Qed.


Lemma testbit_low (f : Z) (n : Z) :
  0 <= n < 32 -> Z.testbit (f mod 2 ^ 32) n = Z.testbit f n.
Proof. intros Hn. apply Z.mod_pow2_bits_low. lia. Qed.

Lemma land_bit (u : Z) (k : Z) :
  0 <= k -> Z.land u (2 ^ k) = if Z.testbit u k then 2 ^ k else 0.
Proof.
  intros Hk. apply Z.bits_inj'. intros n Hn.
  rewrite Z.land_spec, Z.pow2_bits_eqb by exact Hk.
  destruct (Z.eqb_spec k n) as [->|Hne].
  - rewrite andb_true_r. destruct (Z.testbit u n) eqn:Hu.
    + rewrite Z.pow2_bits_eqb by exact Hk. now rewrite Z.eqb_refl.
    + now rewrite Z.bits_0.
  - rewrite andb_false_r. destruct (Z.testbit u k).
    + rewrite Z.pow2_bits_eqb by exact Hk. symmetry. now apply Z.eqb_neq.
    + now rewrite Z.bits_0.
Qed.

Lemma has_bit_testbit (x : number) (k : Z) :
  0 <= k < 31 ->
  Texture.has_bit x (2 ^ k) = Z.testbit (integer_of x) k.
Proof.
  intros Hk. unfold Texture.has_bit.
  rewrite land_bit, testbit_low by lia.
  destruct (Z.testbit (integer_of x) k); [|reflexivity].
  assert (0 < 2 ^ k < 2 ^ 31) as Hpow.
  { split; [apply Z.pow_pos_nonneg; lia|apply Z.pow_lt_mono_r; lia]. }
  unfold Typecast.signed. change (32 - 1) with 31.
  replace (2 ^ k <? 2 ^ 31)%Z with true by (symmetry; apply Z.ltb_lt; lia).
  apply negb_true_iff, Z.eqb_neq. lia.
Qed.

Lemma restored_flags (f : Z) :
  (let g := if Z.testbit f 0 then Texture.bit_or (Int 0) 1 else Int 0 in
   if Z.testbit f 1 then Texture.bit_or g 2 else g)
  = Int (Z.land f 3).
Proof.
  assert (Z.land f 3 = (if Z.testbit f 0 then 1 else 0)
                       + (if Z.testbit f 1 then 2 else 0)) as ->.
  { change 3 with (Z.lor (2 ^ 0) (2 ^ 1)).
    rewrite Z.land_lor_distr_r, !land_bit by lia.
    destruct (Z.testbit f 0), (Z.testbit f 1); reflexivity. }
  destruct (Z.testbit f 0), (Z.testbit f 1); reflexivity.
Qed.

(** X15. A texture written by [writeMdl] is read back by [readMdl] into a
    new texture, from where reading the name of the block leaves the
    stream: the path, which holds no quote, and the replaceable id, whose
    text is one token that parses back to it, are restored; of the flags
    the two lowest bits are restored and the others are dropped. *)
Theorem Texture_mdl_round_trip (this : Texture.t) (p : string) (s : t)
  (fuel : nat) :
  0 <= ident s ->
  Texture.path this = Some p ->
  free_of quote p = true ->
  (Texture.is_nonzero (Texture.replaceableId this) = true ->
   is_plain (number_toString (Texture.replaceableId this)) = true
   /\ parseInt (Some (number_toString (Texture.replaceableId this)))
      = Texture.replaceableId this) ->
  (5 <= fuel)%nat ->
  exists s' s'',
    Texture.writeMdl this s = Ok s'
    /\ Texture.readMdl fuel Texture.empty (with_index s' (after_name s "Bitmap"))
       = Some (Ok (Texture.mk (Texture.replaceableId this) (Some p)
                     (Int (Z.land (integer_of (Texture.flags this)) 3)), s'')).
Proof.
  intros Hident Hpath Hp Hid Hfuel.
  destruct (Texture_writeMdl_text this s Hident) as (s' & Hwrite & Htext).
  exists s'. set (st := with_index s' (after_name s "Bitmap")) in *.
  set (n := Z.to_nat (ident s)) in *.
  assert (exists s'', Texture.readMdl fuel Texture.empty st
                      = Some (Ok (Texture.mk (Texture.replaceableId this) (Some p)
                                    (Int (Z.land (integer_of (Texture.flags this)) 3)),
                                  s''))) as (s'' & Hread); [|now exists s''].
  destruct fuel as [|[|[|[|[|fuel]]]]]; try lia. clear Hfuel.
  unfold Texture.readMdl, for_readBlock.
  unfold Texture.mdl_text in Htext. rewrite Hpath in Htext. cbn [text default from_option id] in Htext.
  set (tail := (if Texture.has_bit (Texture.flags this) 1
                then repeat_tab (S n) ++ "WrapWidth," ++ String newline EmptyString
                else EmptyString)
               ++ (if Texture.has_bit (Texture.flags this) 2
                   then repeat_tab (S n) ++ "WrapHeight," ++ String newline EmptyString
                   else EmptyString)
               ++ repeat_tab n ++ "}" ++ String newline EmptyString) in *.
  destruct (read_a_brace st EmptyString "{" _ Htext eq_refl eq_refl)
    as (s0 & -> & Hs0).
  destruct (Texture_round_Image (S (S (S (S fuel)))) Texture.empty s0
              (String newline (repeat_tab (S n))) p
              (String "," (String newline
                 ((if Texture.is_nonzero (Texture.replaceableId this)
                   then repeat_tab (S n) ++ "ReplaceableId "
                        ++ number_toString (Texture.replaceableId this) ++ ","
                        ++ String newline EmptyString
                   else EmptyString) ++ tail))))
    as (s1 & Hs1 & Hround); [|apply all_separators_tabs|exact Hp|].
  { rewrite Hs0. cbn. rewrite ?append_assoc. reflexivity. }
  rewrite Hround; clear Hround.
  cbn [Texture.replaceableId Texture.path Texture.flags Texture.empty].
  assert (Hflags : forall f, (let g := if Texture.has_bit (Texture.flags this) 1
                                       then Texture.bit_or (Int 0) 1 else Int 0 in
                              if Texture.has_bit (Texture.flags this) 2
                              then Texture.bit_or g 2 else g) = f ->
                             f = Int (Z.land (integer_of (Texture.flags this)) 3)).
  { intros f <-.
    assert (Hb1 : Texture.has_bit (Texture.flags this) 1
                  = Z.testbit (integer_of (Texture.flags this)) 0)
      by (apply (has_bit_testbit _ 0); lia).
    assert (Hb2 : Texture.has_bit (Texture.flags this) 2
                  = Z.testbit (integer_of (Texture.flags this)) 1)
      by (apply (has_bit_testbit _ 1); lia).
    rewrite Hb1, Hb2. apply restored_flags. }
  destruct (Texture.is_nonzero (Texture.replaceableId this)) eqn:Hnz.
  - destruct (Hid eq_refl) as (Hplain & Hparse).
    destruct (Texture_round_ReplaceableId (S (S (S fuel)))
                (Texture.mk (Int 0) (Some p) (Int 0)) s1
                (String "," (String newline (repeat_tab (S n))))
                (number_toString (Texture.replaceableId this)) ","
                (String newline tail))
      as (s2 & Hs2 & Hround);
      [|apply (all_separators_tabs (S n))|exact Hplain|reflexivity|].
    { rewrite Hs1. cbn. rewrite ?append_assoc. cbn. rewrite ?append_assoc.
      reflexivity. }
    rewrite Hround; clear Hround.
    cbn [Texture.replaceableId Texture.path Texture.flags]. rewrite Hparse.
    destruct (Texture_text_flags this n fuel (String newline EmptyString) s2 Hs2
                eq_refl (Texture.mk (Texture.replaceableId this) (Some p) (Int 0)))
      as (s3 & ->).
    exists s3. cbn [Texture.replaceableId Texture.path Texture.flags].
    do 4 f_equal. now apply Hflags.
  - destruct (Texture_text_flags this n (S fuel)
                (String "," (String newline EmptyString)) s1 Hs1
                eq_refl (Texture.mk (Int 0) (Some p) (Int 0)))
      as (s3 & ->).
    exists s3. cbn [Texture.replaceableId Texture.path Texture.flags].
    assert (Texture.replaceableId this = Int 0) as ->.
    { destruct (Texture.replaceableId this) as [z|]; [|discriminate Hnz].
      cbn in Hnz. apply negb_false_iff, Z.eqb_eq in Hnz. now subst z. }
    do 4 f_equal. now apply Hflags.
Qed.

End TextureText.

Section ArrayText.
Import TokenStream.
Local Open Scope js_scope.
Context `{JsFloat}.

Lemma after_name_rest (s : t) (name x : string) (i : nat) (d : Z) :
  rest (with_index (mk (buffer s ++ repeat_tab (Z.to_nat (ident s)) ++ name ++ " " ++ x)
                       i d)
          (after_name s name)) = x.
Proof.
  unfold rest, after_name. cbn [index buffer with_index].
  replace (JsString.length (buffer s) + Z.to_nat (ident s) + JsString.length name + 1)%nat
    with (JsString.length (buffer s ++ repeat_tab (Z.to_nat (ident s)) ++ name ++ " "))
    by (rewrite !length_append, length_repeat_tab; cbn; lia).
  rewrite <- (drop_append (buffer s ++ repeat_tab (Z.to_nat (ident s)) ++ name ++ " ") x)
    at 2.
  now rewrite !append_assoc.
Qed.

Lemma writeArrayAttrib_text (name : string) (value : list float) (s : t) :
  0 <= ident s ->
  exists s',
    writeArrayAttrib name value s = Ok s'
    /\ rest (with_index s' (after_name s name))
       = "{ " ++ join ", " (toString <$> value) ++ " },"
         ++ String newline EmptyString.
Proof.
  intros Hident. unfold writeArrayAttrib. rewrite writeLine_ok by exact Hident.
  eexists. split; [reflexivity|].
  rewrite !append_assoc. apply (after_name_rest s name).
Qed.

Lemma readFloat_loop_texts (value : list float) :
  forall (view : list float) (i : nat) (st : t) (text : string),
    value <> [] ->
    rest st = " " ++ join ", " (toString <$> value) ++ " " ++ text ->
    (i + length value <= length view)%nat ->
    Forall (fun x => is_plain (toString x) = true
                     /\ fround (parseFloat (Some (toString x))) = x) value ->
    exists r st',
      readFloat_loop view i (length value) st = (r, st')
      /\ rest st' = text
      /\ length r = length view
      /\ (forall j, (j < i)%nat -> r !! j = view !! j)
      /\ (forall k x, value !! k = Some x -> r !! (i + k)%nat = Some x).
Proof.
  induction value as [|x value IH]; intros view i st text Hne Hrest Hlen Hall;
    [congruence|].
  apply Forall_cons in Hall as ((Hplain & Hparse) & Hall).
  cbn [length readFloat_loop]. unfold readFloat.
  destruct value as [|y value].
  - destruct (read_token st " " (toString x) " " text) as (st1 & -> & Hst1);
      [exact Hrest|reflexivity|exact Hplain|reflexivity|].
    rewrite Hparse. cbn [readFloat_loop]. do 2 eexists.
    split; [reflexivity|]. split; [exact Hst1|].
    split; [apply length_insert|]. split.
    + intros j Hj. apply list_lookup_insert_ne. lia.
    + intros [|k] x' Hk; [|discriminate Hk]. injection Hk as <-.
      rewrite Nat.add_0_r. apply list_lookup_insert_eq. cbn in Hlen. lia.
  - destruct (read_token st " " (toString x) ","
                (" " ++ join ", " (toString <$> y :: value) ++ " " ++ text))
      as (st1 & -> & Hst1); [|reflexivity|exact Hplain|reflexivity|].
    { rewrite Hrest. cbn [fmap list_fmap join]. cbn [JsString.append].
      rewrite !append_assoc. reflexivity. }
    rewrite Hparse.
    destruct (IH (<[i := x]> view) (S i) st1 text) as (r & st' & Hloop & Hst' & Hr & Hlow & Hhigh);
      [discriminate|exact Hst1|rewrite length_insert; cbn [length] in *; lia|exact Hall|].
    exists r, st'. split; [exact Hloop|]. split; [exact Hst'|].
    split; [now rewrite Hr, length_insert|]. split.
    + intros j Hj. rewrite Hlow by lia. apply list_lookup_insert_ne. lia.
    + intros [|k] x' Hk.
      * injection Hk as <-. rewrite Nat.add_0_r, Hlow by lia.
        apply list_lookup_insert_eq. cbn [length] in Hlen. lia.
      * replace (i + S k)%nat with (S i + k)%nat by lia. now apply Hhigh.
Qed.

(** X16. An array written by [writeArrayAttrib] is read back by
    [readFloatArray] into an array of the same length, of any length,
    from where reading the name leaves the stream, when the text of every
    element is one token that parses back to the element. *)
Theorem array_attribute_round_trip (name : string) (value view : list float)
  (s : t) :
  length view = length value ->
  0 <= ident s ->
  Forall (fun x => is_plain (toString x) = true
                   /\ fround (parseFloat (Some (toString x))) = x) value ->
  exists s',
    writeArrayAttrib name value s = Ok s'
    /\ fst (readFloatArray view (with_index s' (after_name s name))) = value.
Proof.
  intros Hlen Hident Hall.
  destruct (writeArrayAttrib_text name value s Hident) as (s' & Hwrite & Htext).
  exists s'. split; [exact Hwrite|].
  set (st := with_index s' (after_name s name)) in *.
  unfold readFloatArray.
  destruct (read_a_brace st EmptyString "{" _ Htext eq_refl eq_refl)
    as (s0 & -> & Hs0).
  destruct value as [|x value].
  - destruct view; [|discriminate Hlen]. cbn [length readFloat_loop].
    destruct (read s0); reflexivity.
  - destruct (readFloat_loop_texts (x :: value) view 0 s0
                ("}," ++ String newline EmptyString))
      as (r & st' & Hloop & Hst' & Hr & _ & Hhigh);
      [discriminate| |lia|exact Hall|].
    { rewrite Hs0. cbn [JsString.append]. rewrite ?append_assoc. reflexivity. }
    rewrite Hlen, Hloop. destruct (read st'). cbn [fst].
    apply list_eq. intros k.
    destruct ((x :: value) !! k) as [x'|] eqn:Hk.
    + now apply Hhigh in Hk.
    + apply lookup_ge_None. apply lookup_ge_None in Hk. lia.
Qed.

End ArrayText.

(** ** Sequences that are not constant *)

Section MdxSdSequenceKeyframes.
Import MdxSdSequence.
Context `{JsFloat}.

Lemma last_snoc {T} (l : list T) (x d : T) : List.last (l ++ [x]) d = x.
Proof. induction l as [|y l IH]; [reflexivity|]. cbn. rewrite IH. now destruct l. Qed.

Lemma classify_closed (sd : MdxSd) (start end_ : Z) (kept : list keyframe) :
  constant (classify sd start end_ kept) = false ->
  exists first middle last,
    keyframes (classify sd start end_ kept) = first :: middle ++ [last]
    /\ frame first = start /\ frame last = end_.
Proof.
  unfold classify.
  destruct kept as [|k1 [|k2 rest]]; [discriminate..|].
  destruct (negb (existsb _ (k2 :: rest))); [discriminate|].
  intros _. cbn [keyframes].
  destruct (exists_last (l := k2 :: rest)) as (middle & l & Hlast); [discriminate|].
  rewrite Hlast.
  set (opening := Keyframe start (defval sd) (defval sd) (defval sd)).
  destruct (Z.eqb_spec (frame k1) start) as [Hstart|Hstart]; cbn [negb].
  - rewrite app_comm_cons, last_snoc.
    destruct (Z.eqb_spec (frame l) end_) as [Hend|Hend]; cbn [negb].
    + now exists k1, middle, l.
    + eexists k1, (middle ++ [l]), _.
      split; [reflexivity|]. split; [exact Hstart|reflexivity].
  - rewrite (app_comm_cons middle), (app_comm_cons (k1 :: middle)), last_snoc.
    destruct (Z.eqb_spec (frame l) end_) as [Hend|Hend]; cbn [negb].
    + now exists opening, (k1 :: middle), l.
    + eexists opening, (k1 :: middle ++ [l]), _.
      split; [reflexivity|]. split; reflexivity.
Qed.

Lemma classify_value (sd : MdxSd) (start end_ : Z) (kept : list keyframe) :
  constant (classify sd start end_ kept) = true ->
  this_value (classify sd start end_ kept) <> None.
Proof.
  unfold classify.
  destruct kept as [|k1 [|k2 rest]]; [discriminate..|].
  destruct (negb (existsb _ (k2 :: rest))); discriminate.
Qed.

(** X17. A sequence that the constructor does not make constant has at
    least two keyframes, the first one at the start of the sequence and
    the last one at its end; a constant one has its value assigned. *)
Theorem variable_sequence_is_closed (sd : MdxSd) (start end_ : Z)
  (ks : list keyframe) (isGlobalSequence : bool) (seq : t) :
  new sd start end_ ks isGlobalSequence = Ok seq ->
  (constant seq = false ->
   exists first middle last,
     keyframes seq = first :: middle ++ [last]
     /\ frame first = start /\ frame last = end_)
  /\ (constant seq = true -> this_value seq <> None).
Proof.
  unfold new. destruct (first_key_outside end_ ks isGlobalSequence) as [pushed|e];
    [|discriminate].
  intros Hnew. injection Hnew as <-. split.
  - apply classify_closed.
  - apply classify_value.
Qed.

Lemma getKeyframe_loop_finds (at_frame : any_number) (rest : list keyframe) :
  forall (i : nat) (last : keyframe),
    number_lt at_frame (whole (frame last)) = true ->
    exists j k,
      getKeyframe_loop (rest ++ [last]) i at_frame = Some j
      /\ (i <= j <= i + length rest)%nat
      /\ (rest ++ [last]) !! (j - i)%nat = Some k
      /\ number_lt at_frame (whole (frame k)) = true.
Proof.
  induction rest as [|k rest IH]; intros i last Hlast; cbn [app getKeyframe_loop].
  - rewrite Hlast. exists i, last. cbn [length].
    split; [reflexivity|]. split; [lia|]. now rewrite Nat.sub_diag.
  - destruct (number_lt at_frame (whole (frame k))) eqn:Hk.
    + exists i, k. split; [reflexivity|]. split; [cbn [length]; lia|].
      now rewrite Nat.sub_diag.
    + destruct (IH (S i) last Hlast) as (j & k' & Hj & Hrange & Hk' & Hlater).
      exists j, k'. split; [exact Hj|]. split; [cbn [length]; lia|].
      split; [|exact Hlater].
      replace (j - i)%nat with (S (j - S i)) by lia. exact Hk'.
Qed.

(** No keyframe is later than [NaN]. *)
Lemma getKeyframe_loop_NaN (rest : list keyframe) :
  forall i : nat, getKeyframe_loop rest i NotANumber = None.
Proof. induction rest as [|k rest IH]; intros i; [reflexivity|apply IH]. Qed.

Lemma number_lt_of_not_le (x : any_number) (y : Z) :
  x <> NotANumber -> number_le (whole y) x = false -> number_lt x (whole y) = true.
Proof.
  destruct x as [q| | |]; cbn; intros Hx Hle;
    [now rewrite Hle|discriminate|reflexivity|contradiction].
Qed.

(** X18. [getKeyframe] of a sequence made by the constructor returns
    [undefined] for one frame only, [NaN], and only when the sequence is
    not constant.  For every other frame, finite or not, it returns an
    index: 0 for a constant sequence, and otherwise the index of a
    keyframe of the sequence; for a frame strictly inside the sequence
    this keyframe is not the first and is later than the frame. *)
Theorem getKeyframe_is_defined (sd : MdxSd) (start end_ : Z)
  (ks : list keyframe) (isGlobalSequence : bool) (seq : t)
  (at_frame : any_number) :
  new sd start end_ ks isGlobalSequence = Ok seq ->
  getKeyframe seq NotANumber = (if constant seq then Some 0 else None)
  /\ (at_frame <> NotANumber ->
      exists i,
        getKeyframe seq at_frame = Some i
        /\ (constant seq = true -> i = 0)
        /\ (constant seq = false ->
            exists k,
              0 <= i /\ keyframes seq !! Z.to_nat i = Some k
              /\ (number_le at_frame (whole start) = false ->
                  number_le (whole end_) at_frame = false ->
                  1 <= i /\ number_lt at_frame (whole (frame k)) = true))).
Proof.
  unfold new. destruct (first_key_outside end_ ks isGlobalSequence) as [pushed|e];
    [|discriminate].
  intros Hnew. injection Hnew as <-.
  set (kept := pushed ++ List.filter (in_range start end_) ks).
  unfold getKeyframe. split.
  { destruct (constant (classify sd start end_ kept)); [reflexivity|].
    cbn [number_le]. now rewrite getKeyframe_loop_NaN. }
  intros Hnumber.
  destruct (constant (classify sd start end_ kept)) eqn:Hconstant.
  - exists 0. split; [reflexivity|]. split; [reflexivity|discriminate].
  - destruct (classify_closed sd start end_ kept Hconstant)
      as (first & middle & last & Hkeys & Hfirst & Hlast).
    assert (Hstart : MdxSdSequence.start (classify sd start end_ kept) = start).
    { unfold classify. destruct kept as [|k1 [|k2 rest]]; try reflexivity.
      now destruct (negb (existsb _ (k2 :: rest))). }
    assert (Hend : MdxSdSequence.end_ (classify sd start end_ kept) = end_).
    { unfold classify. destruct kept as [|k1 [|k2 rest]]; try reflexivity.
      now destruct (negb (existsb _ (k2 :: rest))). }
    rewrite Hkeys, Hstart, Hend. cbn [List.tl length].
    destruct (number_le at_frame (whole start)) eqn:Hlow.
    + exists 0. split; [reflexivity|]. split; [discriminate|].
      intros _. exists first. split; [lia|]. split; [reflexivity|discriminate].
    + destruct (number_le (whole end_) at_frame) eqn:Hhigh.
      * eexists. split; [reflexivity|]. split; [discriminate|].
        intros _. exists last. rewrite length_app. cbn [length]. split; [lia|].
        split; [|discriminate].
        replace (Z.to_nat (Z.of_nat (S (length middle + 1)) - 1))
          with (S (length middle)) by lia.
        apply (list_lookup_middle (first :: middle) [] last). reflexivity.
      * destruct (getKeyframe_loop_finds at_frame middle 1 last)
          as (j & k & Hj & Hrange & Hk & Hlater).
        { rewrite Hlast. now apply number_lt_of_not_le. }
        rewrite Hj. exists (Z.of_nat j). split; [reflexivity|].
        split; [discriminate|]. intros _. exists k. split; [lia|].
        rewrite Nat2Z.id. split.
        -- destruct j as [|j]; [lia|]. cbn.
           now replace (S j - 1)%nat with j in Hk by lia.
        -- intros _ _. split; [lia|exact Hlater].
Qed.

End MdxSdSequenceKeyframes.

(** ** [Trigger] *)

Section TriggerFacts.
Import BinaryStream.
Context {ArgumentMap ECA : Type} `{!ECARecord ArgumentMap ECA}.





Lemma take_string (w : world) (s : string) (rest : list Z) :
  free_of_nul s = true ->
  holds w (charCodes (s ++ String (JsString.char_of_nat 0) EmptyString) ++ rest) ->
  readUntilNull w = Ok (s, advance w (Z.of_nat (JsString.length s) + 1))
  /\ holds (advance w (Z.of_nat (JsString.length s) + 1)) rest.
Proof.
  intros Hfree Hholds. split.
  - apply (readUntilNull_holds w s rest Hfree).
    rewrite charCodes_append, <- app_assoc in Hholds. exact Hholds.
  - apply holds_app in Hholds as [_ Hholds].
    rewrite length_charCodes, length_append in Hholds. cbn [JsString.length] in Hholds.
    now replace (Z.of_nat (JsString.length s) + 1)
      with (Z.of_nat (JsString.length s + 1)) by lia.
Qed.

Lemma take_int32 (w : world) (v : Z) (rest : list Z) :
  - 2 ^ 31 <= v < 2 ^ 31 ->
  holds w (Typecast.int32ToUint8 v ++ rest) ->
  readInt32 w = Ok (v, advance w 4) /\ holds (advance w 4) rest.
Proof.
  intros Hv Hholds. split.
  - now apply (readInt32_holds w v rest).
  - now apply holds_app in Hholds as [_ Hholds].
Qed.

Lemma take_uint32 (w : world) (v : Z) (rest : list Z) :
  0 <= v < 2 ^ 32 ->
  holds w (Typecast.uint32ToUint8 v ++ rest) ->
  readUint32 w = Ok (v, advance w 4) /\ holds (advance w 4) rest.
Proof.
  intros Hv Hholds. split.
  - now apply (readUint32_holds w v rest).
  - now apply holds_app in Hholds as [_ Hholds].
Qed.

Section TriggerRoundTrip.
Variable version : Z.
Variable argumentMap : ArgumentMap.
Variable image_eca : ECA -> list Z.
Hypothesis ecas_round_trip : Trigger.ecas_round_trip version argumentMap image_eca.

Lemma load_ecas_holds (xs : list ECA) :
  forall (l : list ECA) (w : world),
    holds w (concat (image_eca <$> xs)) ->
    Trigger.load_ecas l (length l) (length xs) version argumentMap w
    = Ok (l ++ xs, advance w (Z.of_nat (length (concat (image_eca <$> xs))))).
Proof.
  destruct ecas_round_trip as (_ & _ & Hload).
  induction xs as [|x xs IH]; intros l w Hholds; cbn.
  - now rewrite advance_0, app_nil_r.
  - apply holds_app in Hholds as [Hx Hxs].
    unfold bind. rewrite (Hload x w Hx). unfold Sub.assign.
    replace (length l <? length l)%nat with false by (symmetry; apply Nat.ltb_irrefl).
    replace (S (length l)) with (length (l ++ [x])) by (rewrite length_app; cbn; lia).
    rewrite (IH _ _ Hxs), advance_advance, <- app_assoc, length_app. cbn.
    do 3 f_equal. lia.
Qed.

Lemma writes_save_ecas (l : list ECA) :
  Sub.writes (Trigger.save_ecas l version) (concat (image_eca <$> l)).
Proof.
  destruct ecas_round_trip as (_ & Hsave & _).
  induction l as [|x l IH]; cbn [Trigger.save_ecas fmap list_fmap concat].
  - apply writes_ret.
  - apply (writes_bind (eca_save x version) (Trigger.save_ecas l version)).
    + exact (Hsave x).
    + exact IH.
Qed.

Lemma Trigger_writes (this : Trigger.t ECA) :
  Sub.writes (Trigger.save this version) (Trigger.image image_eca this version).
Proof.
  unfold Trigger.save, Trigger.image.
  repeat first
    [ apply writes_save_ecas
    | eapply writes_bind
    | apply writes_put ].
  destruct (version =? 7); [apply writes_put|apply writes_ret].
Qed.

Lemma Trigger_image_is_bytes (this : Trigger.t ECA) :
  byte_string (Trigger.name this) = true ->
  byte_string (Trigger.description this) = true ->
  is_bytes (Trigger.image image_eca this version).
Proof.
  intros Hname Hdescription.
  destruct ecas_round_trip as (Hbytes & _ & _).
  unfold Trigger.image.
  repeat first
    [ apply is_bytes_app
    | apply charCodes_is_bytes, byte_string_nul, Hname
    | apply charCodes_is_bytes, byte_string_nul, Hdescription
    | apply uint32ToUint8_is_bytes ].
  - destruct (version =? 7); [apply uint32ToUint8_is_bytes|constructor].
  - induction (Trigger.ecas this) as [|x l IH]; cbn; [constructor|].
    apply is_bytes_app; [apply Hbytes|exact IH].
Qed.

Lemma Trigger_load_holds (this : Trigger.t ECA) (w : world) :
  free_of_nul (Trigger.name this) = true ->
  free_of_nul (Trigger.description this) = true ->
  Forall (fun v => - 2 ^ 31 <= v < 2 ^ 31)
    [Trigger.isComment this; Trigger.isEnabled this;
     Typecast.arg (Trigger.isCustomText this); Trigger.isInitiallyOff this;
     Trigger.runOnInitialization this; Trigger.triggerCategory this] ->
  Z.of_nat (length (Trigger.ecas this)) < 2 ^ 32 ->
  holds w (Trigger.image image_eca this version) ->
  Trigger.load Trigger.empty version argumentMap w
  = Ok (Trigger.loaded this version,
        advance w (Z.of_nat (length (Trigger.image image_eca this version)))).
Proof.
  intros Hname Hdescription Hints Hcount Hholds.
  apply Forall_cons in Hints as (HisComment & Hints).
  apply Forall_cons in Hints as (HisEnabled & Hints).
  apply Forall_cons in Hints as (HisCustomText & Hints).
  apply Forall_cons in Hints as (HisInitiallyOff & Hints).
  apply Forall_cons in Hints as (HrunOnInitialization & Hints).
  apply Forall_cons in Hints as (HtriggerCategory & _).
  assert (Hsize : Z.of_nat (length (Trigger.image image_eca this version))
                  = Z.of_nat (JsString.length (Trigger.name this)) + 1
                    + (Z.of_nat (JsString.length (Trigger.description this)) + 1)
                    + (if version =? 7 then 4 else 0) + 4 + 4 + 4 + 4 + 4 + 4
                    + Z.of_nat (length (concat (image_eca <$> Trigger.ecas this)))).
  { unfold Trigger.image. rewrite !length_app, !length_charCodes, !length_append.
    unfold Trigger.nul. cbn [JsString.length].
    destruct (version =? 7); cbn [length];
      repeat match goal with
             | |- context [length (Typecast.int32ToUint8 ?v)] =>
                 change (length (Typecast.int32ToUint8 v)) with 4%nat
             | |- context [length (Typecast.uint32ToUint8 ?v)] =>
                 change (length (Typecast.uint32ToUint8 v)) with 4%nat
             end; lia. }
  rewrite Hsize. clear Hsize.
  unfold Trigger.image in Hholds.
  unfold Trigger.load, Trigger.loaded, mbind, M_bind, bind.
  destruct (take_string _ _ _ Hname Hholds) as (-> & H1). clear Hholds.
  destruct (take_string _ _ _ Hdescription H1) as (-> & H2). clear H1.
  cbn [Trigger.isComment Trigger.isCustom Trigger.ecas Trigger.empty].
  assert (exists w2,
             holds w2 (Typecast.int32ToUint8 (Trigger.isEnabled this)
                       ++ Typecast.int32ToUint8 (Typecast.arg (Trigger.isCustomText this))
                       ++ Typecast.int32ToUint8 (Trigger.isInitiallyOff this)
                       ++ Typecast.int32ToUint8 (Trigger.runOnInitialization this)
                       ++ Typecast.int32ToUint8 (Trigger.triggerCategory this)
                       ++ Typecast.uint32ToUint8 (Z.of_nat (length (Trigger.ecas this)))
                       ++ concat (image_eca <$> Trigger.ecas this))
             /\ (if version =? 7 then readInt32 else ret 0)
                  (advance (advance w (Z.of_nat (JsString.length (Trigger.name this)) + 1))
                     (Z.of_nat (JsString.length (Trigger.description this)) + 1))
                = Ok (if version =? 7 then Trigger.isComment this else 0, w2)
             /\ w2 = advance w (Z.of_nat (JsString.length (Trigger.name this)) + 1
                                + (Z.of_nat (JsString.length (Trigger.description this)) + 1)
                                + (if version =? 7 then 4 else 0)))
    as (w2 & H3 & -> & Hw2).
  { destruct (version =? 7).
    - destruct (take_int32 _ _ _ HisComment H2) as (-> & H3).
      eexists. split; [exact H3|]. split; [reflexivity|].
      rewrite !advance_advance. f_equal; lia.
    - eexists. split; [exact H2|]. split; [reflexivity|].
      rewrite !advance_advance. f_equal. lia. }
  clear H2.
  destruct (take_int32 _ _ _ HisEnabled H3) as (-> & H4). clear H3.
  destruct (take_int32 _ _ _ HisCustomText H4) as (-> & H5). clear H4.
  destruct (take_int32 _ _ _ HisInitiallyOff H5) as (-> & H6). clear H5.
  destruct (take_int32 _ _ _ HrunOnInitialization H6) as (-> & H7). clear H6.
  destruct (take_int32 _ _ _ HtriggerCategory H7) as (-> & H8). clear H7.
  destruct (take_uint32 _ _ _ (conj (Zle_0_nat _) Hcount) H8) as (-> & H9). clear H8.
  rewrite Nat2Z.id.
  pose proof (load_ecas_holds _ [] _ H9) as Hecas. cbn [length app] in Hecas.
  rewrite Hecas. cbn [ret].
  subst w2. rewrite !advance_advance. unfold ret. do 3 f_equal. lia.
Qed.

(** X20. A trigger saved and loaded again into a new object, at the same
    version, is the trigger that was saved but for two fields:
    [isComment] is kept for version 7 only, and [isCustom], which the
    constructor sets, is never written or read ([isCustomText] is).  The
    strings hold no null character and only characters of codes below
    256, the numbers fit 32 bits and the events, conditions and actions
    round-trip. *)
Theorem Trigger_save_load_round_trip (this : Trigger.t ECA) (w : world) :
  free_of_nul (Trigger.name this) = true ->
  free_of_nul (Trigger.description this) = true ->
  byte_string (Trigger.name this) = true ->
  byte_string (Trigger.description this) = true ->
  Forall (fun v => - 2 ^ 31 <= v < 2 ^ 31)
    [Trigger.isComment this; Trigger.isEnabled this;
     Typecast.arg (Trigger.isCustomText this); Trigger.isInitiallyOff this;
     Trigger.runOnInitialization this; Trigger.triggerCategory this] ->
  Z.of_nat (length (Trigger.ecas this)) < 2 ^ 32 ->
  room w (Z.of_nat (length (Trigger.image image_eca this version))) ->
  (Trigger.save this version;;
   seek (index (stream w));;
   Trigger.load Trigger.empty version argumentMap) w
  = Ok (Trigger.loaded this version,
        written (Trigger.image image_eca this version) w).
Proof.
  intros Hname Hdescription Hname' Hdescription' Hints Hcount Hroom.
  destruct (put_holds (Trigger.image image_eca this version) w Hroom
              (Trigger_image_is_bytes this Hname' Hdescription'))
    as (w' & Hput & Hw' & Hholds & _).
  injection Hput as Hput.
  unfold mbind, M_bind, bind. rewrite (Trigger_writes this w).
  change (put ?b w) with (Ok (A := unit * world) (tt, written b w)).
  cbv beta iota. rewrite seek_back. cbv beta iota. rewrite Hput.
  rewrite (Trigger_load_holds this _ Hname Hdescription Hints Hcount Hholds).
  now rewrite <- Hw'.
Qed.

End TriggerRoundTrip.

End TriggerFacts.

(** ** Records of a fixed size *)

Section FixedSize.
Import BinaryStream.

Lemma advances_skip (n : Z) : Sub.advances (skip n) n.
Proof. intros w. eexists. split; reflexivity. Qed.

(** X21. [Texture.writeMdx] moves the index by 268 bytes whatever the
    length of the path, also for a path of more than 260 characters, for
    which the skip goes backwards. *)
Theorem Texture_writeMdx_advances (this : Texture.t) (p : string) :
  Texture.path this = Some p ->
  Sub.advances (Texture.writeMdx this) 268.
Proof.
  intros Hpath. unfold Texture.writeMdx. rewrite Hpath.
  eapply advances_eq.
  - repeat first
      [ eapply advances_bind
      | apply advances_writeUint32
      | apply advances_write
      | apply advances_skip ].
  - lia.
Qed.

Context `{JsFloat} {Animations : Type} `{!AnimatedObject Animations}
        `{!AnimatedObjectMdx Animations}.


End FixedSize.

(** X23. The array that [createIndexArray] makes holds every index up to
    the biggest one unchanged: an index stored in it is not wrapped. *)
Theorem createIndexArray_holds_every_index (size : nat) (biggestIndex : Z)
  (i : nat) (v : Z) :
  biggestIndex < 2 ^ 32 ->
  0 <= v <= biggestIndex ->
  (i < size)%nat ->
  Geometry.elements
    (Geometry.store (Geometry.createIndexArray size biggestIndex) i v) !! i
  = Some v.
Proof.
  intros Hbig Hv Hi. unfold Geometry.createIndexArray.
  change (2 ^ 32) with 4294967296 in Hbig.
  destruct (Z.ltb_spec biggestIndex 255);
    [|destruct (Z.ltb_spec biggestIndex 65535)];
    cbn [Geometry.store Geometry.elements];
    (rewrite list_lookup_insert_eq by (rewrite length_replicate; exact Hi));
    f_equal; apply Z.mod_small.
  - change (2 ^ 8) with 256. lia.
  - change (2 ^ 16) with 65536. lia.
  - change (2 ^ 32) with 4294967296. lia.
Qed.

(** ** The statements above on the inputs of the examples *)

Lemma fresh268_room (n : Z) :
  0 <= n <= 268 -> BinaryStream.room Examples.fresh268 n.
Proof.
  intros Hn. split; [|cbn; lia]. eexists. split; [reflexivity|].
  apply Nat.leb_le. reflexivity.
Qed.

Lemma write_then_readUntilNull_witness :
  (BinaryStream.write
     (Examples.wide_hi ++ String (JsString.char_of_nat 0) EmptyString);;
   BinaryStream.seek 0;;
   BinaryStream.readUntilNull) Examples.fresh268
  = Ok ("hi"%js,
        BinaryStream.written
          (BinaryStream.charCodes
             (Examples.wide_hi ++ String (JsString.char_of_nat 0) EmptyString))
          Examples.fresh268)
  /\ (BinaryStream.byte_string Examples.wide_hi = true ->
      BinaryStream.narrow Examples.wide_hi = Examples.wide_hi)
  /\ (BinaryStream.byte_string Examples.wide_hi = false ->
      BinaryStream.narrow Examples.wide_hi <> Examples.wide_hi).
Proof.
  apply (write_then_readUntilNull Examples.wide_hi Examples.fresh268).
  - reflexivity.
  - apply fresh268_room. cbn. lia.
Defined.

Lemma write32_then_read32_witness :
  (BinaryStream.writeUint32 (-1);; BinaryStream.seek 0;; BinaryStream.readUint32)
    Examples.fresh268
  = Ok (4294967295,
        BinaryStream.written (Typecast.uint32ToUint8 (-1)) Examples.fresh268)
  /\ (BinaryStream.writeInt32 4294967295;; BinaryStream.seek 0;;
      BinaryStream.readInt32) Examples.fresh268
     = Ok (-1, BinaryStream.written (Typecast.int32ToUint8 4294967295)
                 Examples.fresh268).
Proof.
  split.
  - apply (write32_then_read32 (-1) Examples.fresh268). apply fresh268_room. lia.
  - apply (write32_then_read32 4294967295 Examples.fresh268).
    apply fresh268_room. lia.
Defined.

Lemma writes_stay_in_window_witness :
  BinaryStream.mem
    (BinaryStream.written [9; 9; 9; 9; 9]
       (BinaryStream.World Examples.bytes8 Examples.window)) !! 0%nat
  ≫= (.!! 5%nat)
  = Some 0.
Proof.
  apply (writes_stay_in_window [9; 9; 9; 9; 9]
           (BinaryStream.World Examples.bytes8 Examples.window) 0 5).
  right. right. cbn. lia.
Defined.

Lemma substream_shares_the_bytes_witness :
  exists sub,
    BinaryStream.substream Examples.bytes8 (Examples.on_bytes8 2) 3 = Ok sub
    /\ BinaryStream.get Examples.bytes8 sub 1
       = BinaryStream.get Examples.bytes8 (Examples.on_bytes8 2) (2 + 1)
    /\ BinaryStream.get (BinaryStream.set Examples.bytes8 sub 1 300)
         (Examples.on_bytes8 2) (2 + 1) = Some (300 mod 2 ^ 8)
    /\ BinaryStream.get Examples.bytes8 sub 3 = None.
Proof.
  apply (substream_shares_the_bytes Examples.bytes8 (Examples.on_bytes8 2) 3 1 300).
  - eexists. split; [reflexivity|]. cbn. lia.
  - reflexivity.
  - cbn. lia.
  - lia.
  - cbn. lia.
Defined.

Lemma read_length_witness :
  exists data,
    BinaryStream.read (Some 12) true
      (BinaryStream.World Examples.bytes8 (Examples.on_bytes8 4))
    = Ok (data, BinaryStream.advance
                  (BinaryStream.World Examples.bytes8 (Examples.on_bytes8 4)) 12)
    /\ Z.of_nat (JsString.length data) <= 12
    /\ (true = true -> Z.of_nat (JsString.length data) = 12).
Proof.
  apply (read_length 12 true
           (BinaryStream.World Examples.bytes8 (Examples.on_bytes8 4))).
  lia.
Defined.

Lemma readCharArray_is_read_with_nulls_witness :
  exists chars data,
    BinaryStream.readCharArray 4
      (BinaryStream.World Examples.bytes8 (Examples.on_bytes8 2))
    = Ok (chars, BinaryStream.advance
                   (BinaryStream.World Examples.bytes8 (Examples.on_bytes8 2)) 4)
    /\ BinaryStream.read (Some 4) true
         (BinaryStream.World Examples.bytes8 (Examples.on_bytes8 2))
       = Ok (data, BinaryStream.advance
                     (BinaryStream.World Examples.bytes8 (Examples.on_bytes8 2)) 4)
    /\ JsString.concat EmptyString chars = data
    /\ Z.of_nat (length chars) = 4
    /\ Forall (fun c => JsString.length c = 1%nat) chars.
Proof.
  apply (readCharArray_is_read_with_nulls 4
           (BinaryStream.World Examples.bytes8 (Examples.on_bytes8 2))).
  lia.
Defined.


Lemma reads_past_the_end_witness :
  BinaryStream.readUint32 (BinaryStream.World Examples.bytes8 (Examples.on_bytes8 8))
  = Ok (0, BinaryStream.advance
             (BinaryStream.World Examples.bytes8 (Examples.on_bytes8 8)) 4).
Proof.
  apply (reads_past_the_end
           (BinaryStream.World Examples.bytes8 (Examples.on_bytes8 8))).
  cbn. lia.
Defined.

Lemma writeInt32Array_then_readInt32Array_witness :
  (BinaryStream.writeInt32Array [6; -6; 32767; -32768];;
   BinaryStream.seek 0;;
   BinaryStream.readInt32Array (BinaryStream.Existing [0; 0; 0; 0]))
    Examples.fresh268
  = Ok ([6; -6; 32767; -32768],
        BinaryStream.written
          (concat (Typecast.int32ToUint8 <$> [6; -6; 32767; -32768]))
          Examples.fresh268).
Proof.
  apply (writeInt32Array_then_readInt32Array [6; -6; 32767; -32768]
           (BinaryStream.Existing [0; 0; 0; 0]) Examples.fresh268).
  - repeat constructor; lia.
  - apply fresh268_room. cbn. lia.
  - reflexivity.
Defined.

Lemma read_token_characters_witness :
  TokenStream.free_of TokenStream.quote "A String" = true.
Proof.
  apply (read_token_characters
           (TokenStream.with_index (TokenStream.new (Some Examples.header)) 7)
           "A String"
           (TokenStream.with_index (TokenStream.new (Some Examples.header)) 17)).
  reflexivity.
Defined.

Lemma Texture_readMdl_ends_witness :
  exists r,
    Texture.readMdl (H := Instances.integers) 30 Texture.empty
      (TokenStream.new (Some Examples.texture_text)) = Some r.
Proof.
  apply (Texture_readMdl_ends (H := Instances.integers) 30 Texture.empty
           (TokenStream.new (Some Examples.texture_text))).
  cbn. lia.
Defined.

Lemma Texture_readMdl_without_closing_brace_witness :
  exists token,
    Texture.readMdl (H := Instances.integers) 20 Texture.empty
      (TokenStream.new (Some Examples.unclosed_text))
    = Some (Throw (Error (Texture.unknown_token token))).
Proof.
  apply (Texture_readMdl_without_closing_brace (H := Instances.integers) 20
           Texture.empty (TokenStream.new (Some Examples.unclosed_text))).
  - reflexivity.
  - cbn. lia.
Defined.

Lemma block_indentation_witness :
  exists s1 s2 s3,
    TokenStream.startBlock ["Bitmap"%js] (TokenStream.new None) = Ok s1
    /\ TokenStream.writeLine "WrapWidth," s1 = Ok s2
    /\ TokenStream.endBlock s2 = Ok s3
    /\ TokenStream.ident s3 = 0
    /\ TokenStream.index s3 = 0%nat
    /\ TokenStream.buffer s3
       = ("Bitmap {" ++ String TokenStream.newline
            (String TokenStream.tab "WrapWidth,"
             ++ String TokenStream.newline
                  ("}" ++ String TokenStream.newline EmptyString)))%js.
Proof.
  apply (block_indentation ["Bitmap"%js] "WrapWidth," (TokenStream.new None)).
  cbn. lia.
Defined.

Lemma Texture_mdl_round_trip_witness :
  exists s' s'',
    Texture.writeMdl (H := Instances.decimal) Examples.texture (TokenStream.new None)
    = Ok s'
    /\ Texture.readMdl (H := Instances.integers) 5 Texture.empty
         (TokenStream.with_index s'
            (TokenStream.after_name (TokenStream.new None) "Bitmap"))
       = Some (Ok (Examples.texture, s'')).
Proof.
  apply (Texture_mdl_round_trip (H := Instances.integers) (H0 := Instances.decimal)
           Examples.texture "war3mapImported\a.blp" (TokenStream.new None) 5).
  - cbn. lia.
  - reflexivity.
  - reflexivity.
  - intros _. split; reflexivity.
  - lia.
Defined.

Lemma array_attribute_round_trip_witness :
  exists s',
    TokenStream.writeArrayAttrib (H := Instances.integers) "Position" [1; -2; 30]
      (TokenStream.new None) = Ok s'
    /\ fst (TokenStream.readFloatArray (H := Instances.integers) [0; 0; 0]
              (TokenStream.with_index s'
                 (TokenStream.after_name (TokenStream.new None) "Position")))
       = [1; -2; 30].
Proof.
  apply (array_attribute_round_trip (H := Instances.integers) "Position"
           [1; -2; 30] [0; 0; 0] (TokenStream.new None)).
  - reflexivity.
  - cbn. lia.
  - repeat constructor.
Defined.

Lemma variable_sequence_is_closed_witness :
  exists first middle last,
    [Examples.key 0 0; Examples.key 10 1; Examples.key 20 2; Examples.key 100 0]
    = first :: middle ++ [last]
    /\ MdxSdSequence.frame first = 0 /\ MdxSdSequence.frame last = 100.
Proof.
  apply (variable_sequence_is_closed (H := Instances.integers) Examples.sd0 0 100
           Examples.two_keys false _ eq_refl).
  reflexivity.
Defined.

Lemma getKeyframe_is_defined_witness :
  match MdxSdSequence.new (H := Instances.integers) Examples.sd0 0 100
          Examples.two_keys false with
  | Ok seq =>
      MdxSdSequence.getKeyframe seq MdxSdSequence.NotANumber = None
      /\ exists i,
           MdxSdSequence.getKeyframe seq
             (MdxSdSequence.Finite (QArith_base.Qmake 31 2)) = Some i
  | Throw _ => False
  end.
Proof.
  destruct (getKeyframe_is_defined (H := Instances.integers) Examples.sd0 0 100
              Examples.two_keys false _
              (MdxSdSequence.Finite (QArith_base.Qmake 31 2)) eq_refl)
    as (Hnan & Hi).
  split; [exact Hnan|].
  destruct Hi as (i & Hi & _); [discriminate|].
  exists i. exact Hi.
Defined.

Lemma eca_char_round_trips (version : Z) :
  Trigger.ecas_round_trip (ECARecord0 := Instances.eca_char) version tt
    Instances.one_char_image.
Proof.
  split; [|split].
  - intros c. constructor; [apply byte_code_is_byte|constructor].
  - reflexivity.
  - intros c w Hholds. pose proof (Hholds 0%nat (Instances.byte_code c) eq_refl) as E.
    change (Z.of_nat 0) with 0 in E.
    unfold eca_load, Instances.eca_char, mbind, M_bind, BinaryStream.bind,
      BinaryStream.readUint8.
    rewrite E. unfold mret, M_ret, BinaryStream.ret.
    now rewrite byte_char_code.
Qed.


Lemma Trigger_save_load_round_trip_witness :
  (Trigger.save (ECARecord0 := Instances.eca_char) Examples.trigger1 4;;
   BinaryStream.seek 0;;
   Trigger.load (ECARecord0 := Instances.eca_char) Trigger.empty 4 tt)
    Examples.fresh268
  = Ok (Trigger.mk "melee" "init" 0 1 0 (Some 0) 0 1 2 ["a"%char; "b"%char],
        BinaryStream.written
          (Trigger.image Instances.one_char_image Examples.trigger1 4)
          Examples.fresh268).
Proof.
  apply (Trigger_save_load_round_trip (ECARecord0 := Instances.eca_char) 4 tt
           Instances.one_char_image (eca_char_round_trips 4) Examples.trigger1
           Examples.fresh268).
  - reflexivity.
  - reflexivity.
  - reflexivity.
  - reflexivity.
  - repeat constructor; cbn; lia.
  - cbn. lia.
  - apply fresh268_room. cbn. lia.
Defined.

Lemma Texture_writeMdx_advances_witness :
  Sub.advances (Texture.writeMdx Examples.texture) 268.
Proof.
  apply (Texture_writeMdx_advances Examples.texture "war3mapImported\a.blp").
  reflexivity.
Defined.


Lemma createIndexArray_holds_every_index_witness :
  Geometry.elements
    (Geometry.store (Geometry.createIndexArray 4 255) 3 255) !! 3%nat
  = Some 255.
Proof.
  apply (createIndexArray_holds_every_index 4 255 3 255).
  - lia.
  - lia.
  - lia.
Defined.

(** ** Comments, and colours as arrays *)

Section CommentsAndColours.
Import TokenStream.
Local Open Scope js_scope.

Lemma read_loop_comment (comment : string) :
  forall (text : string) (i : nat),
    free_of newline comment = true ->
    read_loop (comment ++ String newline text) i true false EmptyString
    = read_loop text (i + JsString.length comment + 1) false false EmptyString.
Proof.
  induction comment as [|c comment IH]; intros text i Hfree;
    cbn [JsString.append JsString.length].
  - cbn. f_equal. lia.
  - cbn in Hfree. apply andb_true_iff in Hfree as (Hc & Hfree).
    apply negb_true_iff in Hc. cbn [read_loop]. rewrite Hc.
    rewrite IH by exact Hfree. f_equal. lia.
Qed.

(** X24. A comment is skipped: where separators, two slashes, a text
    without newline and a newline are next, [read] returns what it
    returns from behind the newline. *)
Theorem read_skips_comment (s : t) (seps comment text : string) :
  rest s = seps ++ "//" ++ comment ++ String newline text ->
  all_separators seps = true ->
  free_of newline comment = true ->
  read s
  = read (with_index s
            (index s + JsString.length seps + 2 + JsString.length comment + 1)).
Proof.
  intros Hrest Hseps Hfree.
  assert (Hnext : rest (with_index s (index s + JsString.length seps + 2
                                     + JsString.length comment + 1)) = text).
  { replace (index s + JsString.length seps + 2 + JsString.length comment + 1)%nat
      with (index s + JsString.length (seps ++ "//" ++ comment
                                     ++ String newline EmptyString))%nat
      by (rewrite !length_append; cbn; lia).
    apply rest_past. rewrite Hrest, !append_assoc. reflexivity. }
  rewrite (read_from s _ Hrest), (read_from _ _ Hnext).
  cbn [index with_index]. rewrite read_loop_skip by exact Hseps.
  cbn [JsString.append read_loop]. change (is_separator "/") with false.
  change (is_brace "/") with false. change (eqc "/" "/") with true.
  cbn [andb next_is nonempty]. change (eqc "/" "/") with true. cbn [andb].
  change (eqc "/" newline) with false. cbv iota.
  rewrite read_loop_comment by exact Hfree.
  replace (S (S (index s + JsString.length seps)) + JsString.length comment + 1)%nat
    with (index s + JsString.length seps + 2 + JsString.length comment + 1)%nat by lia.
  reflexivity.
Qed.

Context `{JsFloat}.

(** X25. The colour functions are the array functions on the reversed
    array: [readColor] stores, in an array of three elements, the
    reverse of what [readFloatArray] stores from the same text, and stops
    at the same place; [writeColor] writes for an array of three elements
    the line that [writeArrayAttrib] writes for its reverse. *)
Theorem colour_is_reversed_array (name : string) (view view' : list float)
  (s : t) :
  length view = 3%nat ->
  length view' = 3%nat ->
  fst (readColor view s) = reverse (fst (readFloatArray view' s))
  /\ snd (readColor view s) = snd (readFloatArray view' s)
  /\ writeColor name view s = writeArrayAttrib name (reverse view) s.
Proof.
  intros Hview Hview'.
  destruct view as [|a [|b [|c [|? ?]]]]; try discriminate Hview.
  destruct view' as [|a' [|b' [|c' [|? ?]]]]; try discriminate Hview'.
  unfold readColor, readFloatArray. cbn [length readFloat_loop].
  destruct (read s) as [brace s0].
  destruct (readFloat s0) as [x s1]. destruct (readFloat s1) as [y s2].
  destruct (readFloat s2) as [z s3]. destruct (read s3) as [brace' s4].
  repeat split.
  unfold writeColor, writeArrayAttrib, element_text.
  cbn [reverse rev_append lookup list_lookup fmap list_fmap join].
  now rewrite !append_assoc.
Qed.

End CommentsAndColours.

Lemma read_skips_comment_witness :
  TokenStream.read (TokenStream.with_index (TokenStream.new (Some Examples.header)) 32)
  = TokenStream.read (TokenStream.with_index (TokenStream.new (Some Examples.header)) 46).
Proof.
  apply (read_skips_comment
           (TokenStream.with_index (TokenStream.new (Some Examples.header)) 32)
           " " " A Comment" "}").
  - reflexivity.
  - reflexivity.
  - reflexivity.
Defined.

Lemma colour_is_reversed_array_witness :
  fst (TokenStream.readColor (H := Instances.integers) [0; 0; 0]
         (TokenStream.new (Some "{ 1, 2, 3 }"%js)))
  = reverse (fst (TokenStream.readFloatArray (H := Instances.integers) [0; 0; 0]
                    (TokenStream.new (Some "{ 1, 2, 3 }"%js)))).
Proof.
  apply (colour_is_reversed_array (H := Instances.integers) "Color" [0; 0; 0]
           [0; 0; 0] (TokenStream.new (Some "{ 1, 2, 3 }"%js))).
  - reflexivity.
  - reflexivity.
Defined.

(** ** [Camera] in the binary format *)

Section CameraRoundTrip.
Import BinaryStream.
Context `{JsFloat} {Animations : Type} `{!AnimatedObject Animations}
        `{!AnimatedObjectMdx Animations}.
Variable image_animations : Animations -> list Z.
Hypothesis animations_round_trip : Camera.animations_round_trip image_animations.

Lemma length_float32_bytes (x : float) : length (float32_bytes x) = 4%nat.
Proof.
  unfold float32_bytes. now destruct (float32ToUint8 x) as [[[a b] c] d].
Qed.

Lemma take_float32 (w : world) (x : float) (rest : list Z) :
  float32_value x ->
  holds w (float32_bytes x ++ rest) ->
  readFloat32 w = Ok (x, advance w 4) /\ holds (advance w 4) rest.
Proof.
  intros (_ & Hx & _) Hholds. split.
  - unfold float32_bytes in Hholds. unfold readFloat32.
    destruct (float32ToUint8 x) as [[[a b] c] d].
    apply holds_4 in Hholds as (-> & -> & -> & ->). now rewrite Hx.
  - apply holds_app in Hholds as [_ Hholds].
    now rewrite length_float32_bytes in Hholds.
Qed.

Lemma take_float32Array (w : world) (xs : list float) (view : view_arg float)
  (rest : list Z) :
  Forall float32_value xs ->
  view_length view = length xs ->
  holds w (concat (float32_bytes <$> xs) ++ rest) ->
  readFloat32Array view w = Ok (xs, advance w (4 * Z.of_nat (length xs)))
  /\ holds (advance w (4 * Z.of_nat (length xs))) rest.
Proof.
  intros Hxs Hlen Hholds.
  assert (Hbytes : length (concat (float32_bytes <$> xs)) = (4 * length xs)%nat)
    by (apply length_concat_chunks, length_float32_bytes).
  apply holds_app in Hholds as [Hhere Hrest]. split.
  - unfold readFloat32Array. rewrite Hlen. do 2 f_equal.
    apply list_eq. intros k.
    destruct (xs !! k) as [x|] eqn:Hx.
    + rewrite fill_lookup by (apply lookup_lt_Some in Hx; exact Hx).
      cbv beta zeta. f_equal.
      destruct (Forall_lookup_1 _ _ _ _ Hxs Hx) as (_ & Hvalue & Hfround).
      assert (Hat : forall j b, float32_bytes x !! j = Some b ->
                                at_index w (4 * Z.of_nat k + Z.of_nat j) = Some b).
      { intros j b Hj.
        replace (4 * Z.of_nat k + Z.of_nat j) with (Z.of_nat (4 * k + j)) by lia.
        apply Hhere.
        rewrite (lookup_concat_chunks float32_bytes 4 xs length_float32_bytes k j x Hx);
          [exact Hj|].
        apply lookup_lt_Some in Hj. now rewrite length_float32_bytes in Hj. }
      unfold float32_bytes in Hat.
      destruct (float32ToUint8 x) as [[[a b] c] d].
      pose proof (Hat 0%nat a eq_refl) as H0.
      pose proof (Hat 1%nat b eq_refl) as H1.
      pose proof (Hat 2%nat c eq_refl) as H2.
      pose proof (Hat 3%nat d eq_refl) as H3.
      change (Z.of_nat 0) with 0 in H0. change (Z.of_nat 1) with 1 in H1.
      change (Z.of_nat 2) with 2 in H2. change (Z.of_nat 3) with 3 in H3.
      rewrite Z.add_0_r in H0. rewrite H0, H1, H2, H3, Hvalue. exact Hfround.
    + apply lookup_ge_None. rewrite length_fill. now apply lookup_ge_None.
  - rewrite Hbytes in Hrest.
    now replace (4 * Z.of_nat (length xs)) with (Z.of_nat (4 * length xs)) by lia.
Qed.

Lemma take_padded (w : world) (n : string) (size : nat) (rest : list Z) :
  free_of_nul n = true ->
  (JsString.length n <= size)%nat -> (0 < size)%nat ->
  holds w ((charCodes n ++ replicate (size - JsString.length n) 0) ++ rest) ->
  read (Some (Z.of_nat size)) false w = Ok (n, advance w (Z.of_nat size))
  /\ holds (advance w (Z.of_nat size)) rest.
Proof.
  intros Hfree Hn Hsize Hholds.
  assert (Hlen : length (charCodes n ++ replicate (size - JsString.length n) 0) = size)
    by (rewrite length_app, length_charCodes, length_replicate; lia).
  split.
  - pose proof (read_holds w (charCodes n ++ replicate (size - JsString.length n) 0) rest)
      as Hread.
    rewrite Hlen in Hread.
    rewrite Hread; [now rewrite text_of_padded| |exact Hholds].
    intros E. apply (f_equal length) in E. rewrite Hlen in E. cbn in E. lia.
  - apply holds_app in Hholds as [_ Hholds]. now rewrite Hlen in Hholds.
Qed.

Lemma Camera_image_length (this : Camera.t) (n : string) :
  (JsString.length n <= 80)%nat ->
  length (Camera.position this) = 3%nat ->
  length (Camera.targetPosition this) = 3%nat ->
  Z.of_nat (length (Camera.image image_animations this n))
  = Camera.getByteLength this.
Proof.
  destruct animations_round_trip as (_ & Hsize & _).
  intros Hn Hposition Htarget. unfold Camera.image, Camera.getByteLength.
  rewrite !length_app, length_uint32ToUint8, length_charCodes, length_replicate,
    !length_float32_bytes, !(length_concat_chunks float32_bytes 4)
    by apply length_float32_bytes.
  rewrite Hposition, Htarget, Hsize. lia.
Qed.

Lemma Camera_image_is_bytes (this : Camera.t) (n : string) :
  byte_string n = true ->
  Forall float32_value
    (Camera.position this
     ++ [Camera.fieldOfView this; Camera.farClippingPlane this;
         Camera.nearClippingPlane this]
     ++ Camera.targetPosition this) ->
  is_bytes (Camera.image image_animations this n).
Proof.
  destruct animations_round_trip as (Hbytes & _).
  intros Hn Hfloats. apply Forall_app in Hfloats as (Hposition & Hfloats).
  apply Forall_cons in Hfloats as ((Hfov & _) & Hfloats).
  apply Forall_cons in Hfloats as ((Hfar & _) & Hfloats).
  apply Forall_cons in Hfloats as ((Hnear & _) & Htarget).
  assert (Hconcat : forall xs, Forall float32_value xs ->
                               is_bytes (concat (float32_bytes <$> xs))).
  { induction 1 as [|x xs (Hx & _) _ IH]; cbn; [constructor|].
    now apply is_bytes_app. }
  unfold Camera.image.
  repeat first
    [ apply is_bytes_app
    | apply uint32ToUint8_is_bytes
    | apply charCodes_is_bytes, Hn
    | apply Hbytes
    | assumption
    | now apply Hconcat ].
  apply Forall_replicate. lia.
Qed.

Lemma Camera_writes (this : Camera.t) (n : string) (w : world) :
  Camera.name this = Some n ->
  (JsString.length n <= 80)%nat ->
  (forall j, index (stream w) + 4 + Z.of_nat (JsString.length n) <= j
             < index (stream w) + 84 ->
             get (mem w) (stream w) j = Some 0) ->
  Camera.writeMdx this w = put (Camera.image image_animations this n) w.
Proof.
  destruct animations_round_trip as (_ & _ & Hsave & _).
  intros Hname Hn Hzero.
  unfold Camera.writeMdx, Camera.image, mbind, M_bind, bind, writeUint32, write,
    writeFloat32Array, writeFloat32, put.
  rewrite Hname.
  replace (80 - Z.of_nat (JsString.length n)) with (Z.of_nat (80 - JsString.length n))
    by lia.
  rewrite skip_zeros.
  - unfold put. rewrite Hsave. unfold put. now rewrite !written_app.
  - intros j Hj. rewrite !get_written_outside.
    + apply Hzero. rewrite !index_written, length_uint32ToUint8, length_charCodes in Hj.
      lia.
    + rewrite !index_written, length_uint32ToUint8, length_charCodes in *. lia.
    + rewrite !index_written, length_uint32ToUint8, length_charCodes in *. lia.
Qed.

(** X26. A camera written by [writeMdx] is read back by [readMdx] from
    where it was written: the name, of at most 80 characters, all of
    codes below 256 and none the null character, the positions, the field of view and the clipping
    planes, which are numbers that the 32-bit conversions give back, and
    the animations, which round-trip, are restored, and the read ends
    where the write ended.  The bytes that [writeMdx] skips after the
    name are zero, as in a new buffer. *)
Theorem Camera_mdx_round_trip (this that : Camera.t) (n : string) (w : world) :
  Camera.name this = Some n ->
  free_of_nul n = true -> byte_string n = true ->
  (JsString.length n <= 80)%nat ->
  length (Camera.position this) = 3%nat ->
  length (Camera.targetPosition this) = 3%nat ->
  length (Camera.position that) = 3%nat ->
  length (Camera.targetPosition that) = 3%nat ->
  Forall float32_value
    (Camera.position this
     ++ [Camera.fieldOfView this; Camera.farClippingPlane this;
         Camera.nearClippingPlane this]
     ++ Camera.targetPosition this) ->
  Camera.getByteLength this < 2 ^ 32 ->
  room w (Camera.getByteLength this) ->
  (forall j, index (stream w) + 4 + Z.of_nat (JsString.length n) <= j
             < index (stream w) + 84 ->
             get (mem w) (stream w) j = Some 0) ->
  exists w',
    Camera.writeMdx this w = Ok (tt, w')
    /\ Camera.readMdx that (World (mem w') (stream w)) = Ok (this, w').
Proof.
  intros Hname Hfree Hnarrow Hn Hposition Htarget Hposition' Htarget' Hfloats Hsize
    Hroom Hzero.
  pose proof (Camera_image_length this n Hn Hposition Htarget) as Hlength.
  destruct (put_holds (Camera.image image_animations this n) w)
    as (w' & Hput & Hw' & Hholds & _).
  { now rewrite Hlength. }
  { now apply Camera_image_is_bytes. }
  exists w'. split; [now rewrite (Camera_writes this n w Hname Hn Hzero)|].
  destruct animations_round_trip as (_ & Hanimations & _ & Hload).
  apply Forall_app in Hfloats as (Hfposition & Hfloats).
  apply Forall_cons in Hfloats as (Hfov & Hfloats).
  apply Forall_cons in Hfloats as (Hfar & Hfloats).
  apply Forall_cons in Hfloats as (Hnear & Hftarget).
  assert (Hbytes : 0 <= Camera.getByteLength this < 2 ^ 32).
  { split; [|exact Hsize]. rewrite <- Hlength. lia. }
  unfold Camera.image in Hholds.
  unfold Camera.readMdx, mbind, M_bind, bind.
  destruct (take_uint32 _ _ _ Hbytes Hholds) as (-> & H1). clear Hholds.
  destruct (take_padded _ n 80 _ Hfree Hn ltac:(lia) H1) as (Hread & H2). clear H1.
  change (Z.of_nat 80) with 80 in *. rewrite Hread. clear Hread.
  destruct (take_float32Array _ _ (Existing (Camera.position that)) _ Hfposition
              ltac:(cbn; lia) H2) as (-> & H3). clear H2.
  destruct (take_float32 _ _ _ Hfov H3) as (-> & H4). clear H3.
  destruct (take_float32 _ _ _ Hfar H4) as (-> & H5). clear H4.
  destruct (take_float32 _ _ _ Hnear H5) as (-> & H6). clear H5.
  destruct (take_float32Array _ _ (Existing (Camera.targetPosition that)) _ Hftarget
              ltac:(cbn; lia) H6) as (-> & H7). clear H6.
  rewrite <- (app_nil_r (image_animations _)) in H7.
  apply holds_app in H7 as [H7 _].
  unfold Camera.getByteLength. rewrite Hanimations.
  replace (120 + Z.of_nat (length (image_animations (Camera.super this))) - 120)
    with (Z.of_nat (length (image_animations (Camera.super this)))) by lia.
  rewrite (Hload _ _ _ H7). unfold mret, M_ret, ret.
  rewrite Hw', Hlength. unfold Camera.getByteLength. rewrite Hanimations.
  rewrite !advance_advance, Hposition, Htarget.
  destruct this as [a name position fov far near target]. cbn in *. subst name.
  do 3 f_equal. lia.
Qed.

End CameraRoundTrip.

Lemma no_animations_round_trip :
  Camera.animations_round_trip (Animations := unit)
    (AnimatedObjectMdx0 := Instances.no_animations) (fun _ => []).
Proof.
  split; [|split; [|split]].
  - intros a. constructor.
  - reflexivity.
  - intros a w. unfold writeAnimations, Instances.no_animations, mret, M_ret,
      BinaryStream.ret, BinaryStream.put, BinaryStream.written.
    cbn [BinaryStream.store length]. change (Z.of_nat 0) with 0.
    rewrite advance_0. now destruct w.
  - intros [] [] w _. unfold readAnimations, Instances.no_animations, mret, M_ret,
      BinaryStream.ret. cbn [length]. change (Z.of_nat 0) with 0.
    now rewrite advance_0.
Qed.

Lemma integer_float32_value (x : Z) :
  - 2 ^ 31 <= x < 2 ^ 31 ->
  BinaryStream.float32_value (H := Instances.integers) x.
Proof.
  intros Hx. split; [|split].
  - exact (uint32ToUint8_is_bytes x).
  - exact (int32_round_trip x Hx).
  - reflexivity.
Qed.

Lemma Camera_mdx_round_trip_witness :
  exists w',
    Camera.writeMdx (AnimatedObjectMdx0 := Instances.no_animations) Examples.camera1
      Examples.fresh268 = Ok (tt, w')
    /\ Camera.readMdx (AnimatedObjectMdx0 := Instances.no_animations) Examples.camera0
         (BinaryStream.World (BinaryStream.mem w')
            (BinaryStream.stream Examples.fresh268))
       = Ok (Examples.camera1, w').
Proof.
  apply (Camera_mdx_round_trip (H := Instances.integers)
           (AnimatedObjectMdx0 := Instances.no_animations) (fun _ => [])
           no_animations_round_trip Examples.camera1 Examples.camera0 "Cam"
           Examples.fresh268).
  - reflexivity.
  - reflexivity.
  - reflexivity.
  - cbn. lia.
  - reflexivity.
  - reflexivity.
  - reflexivity.
  - reflexivity.
  - change (Forall (BinaryStream.float32_value (H := Instances.integers))
              [1; -2; 3; 45; 1000; 8; 0; 0; -7]).
    repeat (apply List.Forall_cons; [apply integer_float32_value; lia|]).
    apply List.Forall_nil.
  - reflexivity.
  - apply fresh268_room. split; [discriminate|discriminate].
  - intros j Hj. apply get_fresh268. cbn in Hj. lia.
Defined.

(** ** Reading a map information file back *)

Section Reads.
Import BinaryStream.

Lemma reads_eq {A} (m : M A) (v v' : A) (bytes : list Z) :
  Sub.reads m v bytes -> v = v' -> Sub.reads m v' bytes.
Proof. now intros Hm <-. Qed.

Lemma reads_ret {A} (v : A) : Sub.reads (ret v) v [].
Proof.
  intros w rest Hholds. cbn [length app] in *. change (Z.of_nat 0) with 0.
  rewrite advance_0. now split.
Qed.

Lemma reads_bind {A B} (m : M A) (k : A -> M B) (v : A) (v' : B)
  (a b : list Z) :
  Sub.reads m v a -> Sub.reads (k v) v' b -> Sub.reads (m ≫= k) v' (a ++ b).
Proof.
  intros Hm Hk w rest Hholds. rewrite <- app_assoc in Hholds.
  destruct (Hm w _ Hholds) as (Em & Hholds').
  destruct (Hk _ _ Hholds') as (Ek & Hholds'').
  unfold mbind, M_bind, bind. rewrite Em, Ek.
  rewrite advance_advance in *. rewrite length_app.
  replace (Z.of_nat (length a + length b))
    with (Z.of_nat (length a) + Z.of_nat (length b)) by lia.
  now split.
Qed.

Lemma reads_map {A B} (m : M A) (f : A -> B) (v : A) (a : list Z) :
  Sub.reads m v a -> Sub.reads (m ≫= fun x => ret (f x)) (f v) a.
Proof.
  intros Hm. rewrite <- (app_nil_r a).
  apply (reads_bind m (fun x => ret (f x)) v); [exact Hm|apply reads_ret].
Qed.

Lemma reads_readInt32 (v : Z) :
  - 2 ^ 31 <= v < 2 ^ 31 -> Sub.reads readInt32 v (Typecast.int32ToUint8 v).
Proof. intros Hv w rest Hholds. exact (take_int32 w v rest Hv Hholds). Qed.

Lemma reads_count (n : Z) :
  0 <= n -> n < 2 ^ 31 -> Sub.reads readInt32 n (Typecast.uint32ToUint8 n).
Proof. intros H0 Hn. apply reads_readInt32. lia. Qed.

Lemma reads_readUint32 (v : Z) :
  0 <= v < 2 ^ 32 -> Sub.reads readUint32 v (Typecast.uint32ToUint8 v).
Proof. intros Hv w rest Hholds. exact (take_uint32 w v rest Hv Hholds). Qed.

Lemma reads_readUntilNull (s : string) :
  free_of_nul s = true ->
  Sub.reads readUntilNull s (charCodes (s ++ String (JsString.char_of_nat 0) EmptyString)).
Proof.
  intros Hs w rest Hholds.
  replace (Z.of_nat (length (charCodes (s ++ String (JsString.char_of_nat 0) EmptyString))))
    with (Z.of_nat (JsString.length s) + 1)
    by (rewrite length_charCodes, length_append; cbn; lia).
  exact (take_string w s rest Hs Hholds).
Qed.

Lemma reads_readFloat32 `{JsFloat} (x : float) :
  float32_value x -> Sub.reads readFloat32 x (float32_bytes x).
Proof.
  intros Hx w rest Hholds. rewrite length_float32_bytes.
  exact (take_float32 w x rest Hx Hholds).
Qed.

Lemma reads_readFloat32Array `{JsFloat} (xs : list float) (view : view_arg float) :
  Forall float32_value xs ->
  view_length view = length xs ->
  Sub.reads (readFloat32Array view) xs (concat (float32_bytes <$> xs)).
Proof.
  intros Hxs Hlen w rest Hholds.
  rewrite (length_concat_chunks float32_bytes 4) by apply length_float32_bytes.
  replace (Z.of_nat (4 * length xs)) with (4 * Z.of_nat (length xs)) by lia.
  exact (take_float32Array w xs view rest Hxs Hlen Hholds).
Qed.

Lemma int16_of_bytes (x : Z) :
  - 2 ^ 15 <= x < 2 ^ 15 ->
  match Typecast.int32ToUint8 x with
  | b0 :: b1 :: _ => store_int32 (Typecast.uint8ToInt16 (Some b0) (Some b1)) = x
  | _ => False
  end.
Proof.
  intros Hx. pose proof (int16_of_low_bytes x Hx) as E. cbv zeta in E.
  unfold Typecast.int32ToUint8, Typecast.uint32ToUint8. cbv zeta.
  now rewrite !Z.mod_mod in E by (apply Z.pow_nonzero; lia).
Qed.

Lemma reads_readInt32Array (xs : list Z) (view : view_arg Z) :
  Forall (fun x => - 2 ^ 15 <= x < 2 ^ 15) xs ->
  view_length view = length xs ->
  Sub.reads (readInt32Array view) xs (concat (Typecast.int32ToUint8 <$> xs)).
Proof.
  intros Hxs Hlen w rest Hholds.
  assert (Hbytes : length (concat (Typecast.int32ToUint8 <$> xs)) = (4 * length xs)%nat)
    by (apply length_concat_chunks; reflexivity).
  rewrite Hbytes.
  replace (Z.of_nat (4 * length xs)) with (4 * Z.of_nat (length xs)) by lia.
  apply holds_app in Hholds as [Hhere Hrest]. split.
  - unfold readInt32Array. rewrite Hlen. do 2 f_equal.
    apply list_eq. intros k.
    destruct (xs !! k) as [x|] eqn:Hx.
    + rewrite fill_lookup by (apply lookup_lt_Some in Hx; exact Hx).
      cbv beta zeta. f_equal.
      assert (Hat : forall j b, Typecast.int32ToUint8 x !! j = Some b ->
                                at_index w (4 * Z.of_nat k + Z.of_nat j) = Some b).
      { intros j b Hj.
        replace (4 * Z.of_nat k + Z.of_nat j) with (Z.of_nat (4 * k + j)) by lia.
        apply Hhere.
        rewrite (lookup_concat_chunks Typecast.int32ToUint8 4 xs (fun _ => eq_refl)
                   k j x Hx); [exact Hj|].
        now apply lookup_lt_Some in Hj. }
      pose proof (int16_of_bytes x (Forall_lookup_1 _ _ _ _ Hxs Hx)) as E.
      destruct (Typecast.int32ToUint8 x) as [|b0 [|b1 bytes]] eqn:Ebytes;
        [destruct E..|].
      pose proof (Hat 0%nat b0 eq_refl) as H0.
      pose proof (Hat 1%nat b1 eq_refl) as H1.
      change (Z.of_nat 0) with 0 in H0. change (Z.of_nat 1) with 1 in H1.
      rewrite Z.add_0_r in H0. now rewrite H0, H1.
    + apply lookup_ge_None. rewrite length_fill. now apply lookup_ge_None.
  - now rewrite Hbytes, Nat2Z.inj_mul in Hrest.
Qed.

Lemma reads_readUint8Array (xs : list Z) (view : view_arg Z) :
  is_bytes xs ->
  view_length view = length xs ->
  Sub.reads (readUint8Array view) xs xs.
Proof.
  intros Hxs Hlen w rest Hholds.
  apply holds_app in Hholds as [Hhere Hrest]. split; [|exact Hrest].
  unfold readUint8Array. rewrite Hlen. do 2 f_equal.
  apply list_eq. intros k.
  destruct (xs !! k) as [x|] eqn:Hx.
  - rewrite fill_lookup by (apply lookup_lt_Some in Hx; exact Hx).
    cbv beta. rewrite (Hhere k x Hx).
    cbv beta iota delta [Typecast.arg default from_option id].
    f_equal. apply mod_byte. exact (Forall_lookup_1 _ _ _ _ Hxs Hx).
  - apply lookup_ge_None. rewrite length_fill. now apply lookup_ge_None.
Qed.

(** A string of one character, read by [read(1)] and by [read(1, true)]. *)
Lemma reads_read_1 (s : string) (allowNulls : bool) :
  JsString.length s = 1%nat ->
  (allowNulls = false -> free_of_nul s = true) ->
  Sub.reads (read (Some 1) allowNulls) s (charCodes s).
Proof.
  intros Hlen Hfree w rest Hholds.
  destruct s as [|c [|d s]]; try discriminate Hlen.
  apply holds_app in Hholds as [Hhere Hrest]. split; [|exact Hrest].
  rewrite read_advances by discriminate.
  pose proof (Hhere 0%nat _ eq_refl) as Hc. unfold at_index in Hc.
  change (Z.of_nat 0) with 0 in Hc.
  cbn [charCodes JsString.chars fmap list_fmap length].
  change (Z.of_nat 1) with 1. change (Z.to_nat 1) with 1%nat.
  cbn [peek_loop]. rewrite Hc.
  cbv beta iota delta [Typecast.arg default from_option id].
  rewrite fromCharCode_charCode.
  destruct allowNulls; [reflexivity|].
  specialize (Hfree eq_refl). cbn in Hfree. rewrite andb_true_r in Hfree.
  apply negb_true_iff, charCode_nul in Hfree.
  pose proof (charCode_range c).
  replace (0 <? charCode c) with true by (symmetry; apply Z.ltb_lt; lia).
  reflexivity.
Qed.

Lemma reads_load_loop {T} `{Sub.Record T} (image : T -> list Z) (xs : list T) :
  Sub.round_trips T image ->
  Sub.reads (Sub.load_loop [] 0 (Z.to_nat (Z.of_nat (length xs)))) xs
    (concat (image <$> xs)).
Proof.
  intros Hrt w rest Hholds. rewrite Nat2Z.id.
  apply holds_app in Hholds as [Hhere Hrest]. split; [|exact Hrest].
  exact (load_loop_holds image Hrt xs [] w Hhere).
Qed.

Lemma as_array_id {A} {n : nat} (otherwise v : vec A n) :
  War3MapW3i.as_array otherwise (vec_to_list v) = v.
Proof.
  apply vec_eq. intros i. unfold War3MapW3i.as_array.
  rewrite lookup_fun_to_vec.
  now rewrite (proj1 (vlookup_lookup v i (v !!! i)) eq_refl).
Qed.

End Reads.

Section W3iRoundTrip.
Import BinaryStream.
Context `{JsFloat}.
Context {Player Force UpgradeAvailabilityChange TechAvailabilityChange
         RandomUnitTable RandomItemTable : Type}.
Context `{!Sub.Record Player} `{!Sub.Record Force}
        `{!Sub.Record UpgradeAvailabilityChange}
        `{!Sub.Record TechAvailabilityChange}
        `{!Sub.Record RandomUnitTable} `{!Sub.Record RandomItemTable}.
Variable im : War3MapW3i.images (Player := Player) (Force := Force)
                (UpgradeAvailabilityChange := UpgradeAvailabilityChange)
                (TechAvailabilityChange := TechAvailabilityChange)
                (RandomUnitTable := RandomUnitTable)
                (RandomItemTable := RandomItemTable).
Hypothesis sub_records_round_trip : War3MapW3i.sub_records_round_trip im.

Lemma writes_when (c : bool) (m : M unit) (a : list Z) :
  Sub.writes m a -> Sub.writes (War3MapW3i.when c m) (if c then a else []).
Proof. destruct c; [trivial|intros _; apply writes_ret]. Qed.

Lemma writes_records {T} `{Sub.Record T} (image : T -> list Z) (l : list T) :
  Sub.round_trips T image -> Sub.writes (Sub.save_all l) (concat (image <$> l)).
Proof. intros Hrt. exact (writes_save_all image Hrt l). Qed.

Lemma W3i_writes
  (this : War3MapW3i.t Player Force UpgradeAvailabilityChange
            TechAvailabilityChange RandomUnitTable RandomItemTable) :
  Sub.writes (War3MapW3i.save_body this) (War3MapW3i.image im this).
Proof.
  destruct sub_records_round_trip as (R1 & R2 & R3 & R4 & R5 & R6).
  unfold War3MapW3i.save_body, War3MapW3i.image. cbv zeta.
  repeat first
    [ apply writes_records; assumption
    | eapply writes_bind
    | apply writes_when
    | apply writes_put ].
Qed.

Lemma is_bytes_floats (xs : list float) :
  Forall float32_value xs -> is_bytes (concat (float32_bytes <$> xs)).
Proof.
  induction 1 as [|x xs (Hx & _) _ IH]; cbn; [constructor|].
  now apply is_bytes_app.
Qed.

Lemma is_bytes_int32s (xs : list Z) :
  is_bytes (concat (Typecast.int32ToUint8 <$> xs)).
Proof.
  induction xs as [|x xs IH]; cbn [fmap list_fmap concat]; [constructor|].
  apply is_bytes_app; [apply uint32ToUint8_is_bytes|exact IH].
Qed.

Lemma is_bytes_records {T} `{Sub.Record T} (image : T -> list Z) (l : list T) :
  Sub.round_trips T image -> is_bytes (concat (image <$> l)).
Proof. intros Hrt. exact (is_bytes_concat image Hrt l). Qed.

Lemma W3i_image_is_bytes
  (this : War3MapW3i.t Player Force UpgradeAvailabilityChange
            TechAvailabilityChange RandomUnitTable RandomItemTable) :
  War3MapW3i.storable this ->
  is_bytes (War3MapW3i.image im this).
Proof.
  destruct sub_records_round_trip as (R1 & R2 & R3 & R4 & R5 & R6).
  intros (_ & _ & _ & _ & _ & Hfloats & _ & Hcolours & _ & Hstrings).
  apply Forall_app in Hfloats as (Hbounds & Hfloats).
  apply Forall_app in Hfloats as (Hfog & Hdensity).
  apply Forall_cons in Hdensity as ((Hdensity & _) & _).
  apply Forall_app in Hcolours as (Hfogcolour & Hwater).
  repeat match goal with
         | Hall : Forall _ (_ :: _) |- _ =>
             let Hx := fresh "Hx" in apply Forall_cons in Hall as (Hx & Hall)
         end.
  unfold War3MapW3i.image. cbv zeta.
  destruct (War3MapW3i.version this >? 24);
    repeat first
      [ apply is_bytes_app
      | apply uint32ToUint8_is_bytes
      | apply charCodes_is_bytes; first [assumption|apply byte_string_nul; assumption]
      | apply is_bytes_int32s
      | apply is_bytes_floats; assumption
      | apply is_bytes_records; assumption
      | assumption
      | constructor ].
Qed.

Ltac reader :=
  first
    [ apply reads_readInt32; assumption
    | apply reads_readUint32; assumption
    | apply reads_readUntilNull; assumption
    | apply reads_readFloat32Array; [assumption|apply eq_sym, length_vec_to_list]
    | apply reads_readInt32Array; [assumption|apply eq_sym, length_vec_to_list]
    | apply reads_readUint8Array; [assumption|apply eq_sym, length_vec_to_list]
    | apply reads_readFloat32; assumption
    | apply reads_read_1; [assumption|intros _; assumption]
    | apply reads_read_1; [assumption|discriminate]
    | apply reads_count; [apply Nat2Z.is_nonneg|assumption]
    | apply reads_load_loop; assumption
    | apply reads_ret ].

Ltac reading :=
  repeat first
    [ eapply reads_map; solve [reader]
    | eapply reads_bind; [solve [reader]|cbv beta iota zeta] ].

Lemma W3i_reads
  (this that : War3MapW3i.t Player Force UpgradeAvailabilityChange
                 TechAvailabilityChange RandomUnitTable RandomItemTable) :
  War3MapW3i.storable this ->
  War3MapW3i.without_lists that ->
  Sub.reads (War3MapW3i.load_body that) (War3MapW3i.loaded this that)
    (War3MapW3i.image im this).
Proof.
  destruct sub_records_round_trip as (R1 & R2 & R3 & R4 & R5 & R6).
  intros (Hints & Hflags & Hstrings & (Htileset & Htileset') & Hlight & Hfloats
          & Hshorts & Hcolours & Hcounts & _) (L1 & L2 & L3 & L4 & L5 & L6).
  unfold War3MapW3i.int32 in Hints.
  repeat match goal with
         | Hall : Forall _ (_ :: _) |- _ =>
             let Hx := fresh "Hx" in apply Forall_cons in Hall as (Hx & Hall)
         end.
  apply Forall_app in Hfloats as (Hbounds & Hfloats).
  apply Forall_app in Hfloats as (Hfog & Hdensity).
  apply Forall_cons in Hdensity as (Hdensity & _).
  apply Forall_app in Hshorts as (Hcomplements & Hsize).
  apply Forall_app in Hcolours as (Hfogcolour & Hwater).
  unfold War3MapW3i.count in *.
  unfold War3MapW3i.load_body, War3MapW3i.loaded, War3MapW3i.image,
    War3MapW3i.nul, War3MapW3i.count.
  rewrite L1, L2, L3, L4, L5, L6. cbv zeta.
  destruct (War3MapW3i.version this >? 24) eqn:Elater; cbv iota.
  - eapply reads_eq.
    + eapply reads_bind; [solve [reader]|cbv beta iota zeta].
      rewrite Elater. cbv iota. reading.
      eapply reads_bind; [|cbv beta iota zeta].
      { reading. }
      cbv beta iota zeta. reading.
      eapply reads_map. reading. reader.
    + rewrite !as_array_id. now destruct this.
  - eapply reads_eq.
    + eapply reads_bind; [solve [reader]|cbv beta iota zeta].
      rewrite Elater. cbv iota. reading.
    + rewrite !as_array_id. reflexivity.
Qed.

(** X27. A map information file saved and loaded again from where it was
    written, into an object without sub-records, is the file that was
    saved when its version is above 24; for another version the fields
    that are in the file for the later versions only are those of the
    object loaded into.  This is for fields that the format can hold:
    among them the camera bound complements and the playable size must
    fit 16 bits, of which [readInt32Array] reads two bytes, the tileset
    must be one character other than the null character, which [read(1)]
    drops, and every character of a string must have a code below 256,
    of which the stream keeps one byte.  The sub-records round-trip. *)
Theorem W3i_save_load_round_trip
  (this that : War3MapW3i.t Player Force UpgradeAvailabilityChange
                 TechAvailabilityChange RandomUnitTable RandomItemTable)
  (w : world) :
  War3MapW3i.storable this ->
  War3MapW3i.without_lists that ->
  room w (Z.of_nat (length (War3MapW3i.image im this))) ->
  (War3MapW3i.save_body this;;
   seek (index (stream w));;
   War3MapW3i.load_body that) w
  = Ok (War3MapW3i.loaded this that, written (War3MapW3i.image im this) w).
Proof.
  intros Hstorable Hlists Hroom.
  destruct (put_holds (War3MapW3i.image im this) w Hroom
              (W3i_image_is_bytes this Hstorable))
    as (w' & Hput & Hw' & Hholds & _).
  injection Hput as Hput.
  unfold mbind at 1 2. unfold M_bind at 1 2. unfold bind at 1 2.
  rewrite (W3i_writes this w).
  change (put ?b w) with (Ok (A := unit * world) (tt, written b w)).
  cbv beta iota. rewrite seek_back. cbv beta iota. rewrite Hput.
  rewrite <- (app_nil_r (War3MapW3i.image im this)) in Hholds.
  destruct (W3i_reads this that Hstorable Hlists _ _ Hholds) as (-> & _).
  now rewrite <- Hw'.
Qed.

End W3iRoundTrip.

Lemma char_records_round_trip :
  War3MapW3i.sub_records_round_trip
    (H0 := Instances.one_char) (H1 := Instances.one_char)
    (H2 := Instances.one_char) (H3 := Instances.one_char)
    (H4 := Instances.one_char) (H5 := Instances.one_char) Examples.char_images.
Proof. repeat split; apply one_char_round_trips. Qed.

Lemma w3i_chars_storable : War3MapW3i.storable Examples.w3i_chars.
Proof.
  unfold War3MapW3i.storable, War3MapW3i.int32, War3MapW3i.one_character,
    War3MapW3i.count, BinaryStream.is_bytes.
  cbn [Examples.w3i_chars War3MapW3i.version War3MapW3i.saves
         War3MapW3i.editorVersion War3MapW3i.campaignBackground
         War3MapW3i.loadingScreen War3MapW3i.useTerrainFog
         War3MapW3i.globalWeather War3MapW3i.flags War3MapW3i.name
         War3MapW3i.author War3MapW3i.description War3MapW3i.recommendedPlayers
         War3MapW3i.loadingScreenModel War3MapW3i.loadingScreenText
         War3MapW3i.loadingScreenTitle War3MapW3i.loadingScreenSubtitle
         War3MapW3i.prologueScreenModel War3MapW3i.prologueScreenText
         War3MapW3i.prologueScreenTitle War3MapW3i.prologueScreenSubtitle
         War3MapW3i.soundEnvironment War3MapW3i.tileset
         War3MapW3i.lightEnvironmentTileset War3MapW3i.cameraBounds
         War3MapW3i.fogHeight War3MapW3i.fogDensity
         War3MapW3i.cameraBoundsComplements War3MapW3i.playableSize
         War3MapW3i.fogColor War3MapW3i.waterVertexColor War3MapW3i.players
         War3MapW3i.forces War3MapW3i.upgradeAvailabilityChanges
         War3MapW3i.techAvailabilityChanges War3MapW3i.randomUnitTables
         War3MapW3i.randomItemTables Vector.of_list vec_to_list app length].
  repeat match goal with
         | |- _ /\ _ => split
         | |- Forall _ (_ :: _) => apply List.Forall_cons
         | |- Forall _ [] => apply List.Forall_nil
         | |- BinaryStream.float32_value _ => apply integer_float32_value
         | |- _ = _ => reflexivity
         | |- _ <= _ < _ => lia
         | |- _ < _ => cbn; lia
         | |- _ <= _ => lia
         end.
Qed.

Lemma W3i_save_load_round_trip_witness :
  (War3MapW3i.save_body (H0 := Instances.one_char) (H1 := Instances.one_char)
     (H2 := Instances.one_char) (H3 := Instances.one_char)
     (H4 := Instances.one_char) (H5 := Instances.one_char) Examples.w3i_chars;;
   BinaryStream.seek 0;;
   War3MapW3i.load_body (H0 := Instances.one_char) (H1 := Instances.one_char)
     (H2 := Instances.one_char) (H3 := Instances.one_char)
     (H4 := Instances.one_char) (H5 := Instances.one_char) Examples.w3i_new)
    Examples.fresh268
  = Ok (Examples.w3i_chars,
        BinaryStream.written
          (War3MapW3i.image Examples.char_images Examples.w3i_chars)
          Examples.fresh268).
Proof.
  apply (W3i_save_load_round_trip (H := Instances.integers)
           (H0 := Instances.one_char) (H1 := Instances.one_char)
           (H2 := Instances.one_char) (H3 := Instances.one_char)
           (H4 := Instances.one_char) (H5 := Instances.one_char)
           Examples.char_images char_records_round_trip
           Examples.w3i_chars Examples.w3i_new Examples.fresh268).
  - exact w3i_chars_storable.
  - repeat split.
  - apply fresh268_room. split; [discriminate|discriminate].
Defined.

(** ** [Camera] in the text format *)

Section CameraText.
Import TokenStream.
Local Open Scope js_scope.
Context `{JsFloat} {Animations : Type} `{!AnimatedObject Animations}
        `{!AnimatedObjectMdl Animations}.

Lemma readFloatArray_text (value view : list float) (st : t) (text : string) :
  rest st = "{ " ++ join ", " (toString <$> value) ++ " }" ++ text ->
  length view = length value ->
  Forall (fun x => is_plain (toString x) = true
                   /\ fround (parseFloat (Some (toString x))) = x) value ->
  exists st', readFloatArray view st = (value, st') /\ rest st' = text.
Proof.
  intros Hrest Hlen Hall. unfold readFloatArray.
  destruct (read_a_brace st EmptyString "{" _ Hrest eq_refl eq_refl)
    as (s0 & -> & Hs0).
  destruct value as [|x value].
  - destruct view; [|discriminate Hlen]. cbn [length readFloat_loop].
    destruct (read_a_brace s0 "  " "}" text Hs0 eq_refl eq_refl) as (s1 & -> & Hs1).
    now exists s1.
  - destruct (readFloat_loop_texts (x :: value) view 0 s0 ("}" ++ text))
      as (r & st' & Hloop & Hst' & Hr & _ & Hhigh);
      [discriminate| |lia|exact Hall|].
    { rewrite Hs0. cbn [JsString.append]. rewrite ?append_assoc. reflexivity. }
    rewrite Hlen, Hloop.
    destruct (read_a_brace st' EmptyString "}" text Hst' eq_refl eq_refl)
      as (s1 & -> & Hs1).
    exists s1. split; [|exact Hs1]. f_equal.
    apply list_eq. intros k.
    destruct ((x :: value) !! k) as [x'|] eqn:Hk.
    + now apply Hhigh in Hk.
    + apply lookup_ge_None. apply lookup_ge_None in Hk. lia.
Qed.

Lemma block_loop_round {A} (body : option string -> A -> t -> option (Result (A * t)))
  (fuel : nat) (a : A) (s : t) (seps token : string) (d : char) (text : string) :
  rest s = seps ++ token ++ String d text ->
  all_separators seps = true ->
  is_plain token = true ->
  is_separator d = true ->
  exists s1,
    rest s1 = text
    /\ block_loop body (S fuel) a s
       = match body (Some token) a s1 with
         | Some (Ok (a', s')) => block_loop body fuel a' s'
         | r => r
         end.
Proof.
  intros Hrest Hseps Hplain Hd.
  destruct (read_token s seps token d text Hrest Hseps Hplain Hd) as (s1 & Hread & Hs1).
  exists s1. split; [exact Hs1|]. cbn [block_loop]. rewrite Hread.
  assert (token_is (Some token) "}" = false) as ->; [|reflexivity].
  cbn. destruct (string_eqb_spec token "}") as [->|]; [discriminate Hplain|reflexivity].
Qed.


Lemma Camera_writeMdl_text (this : Camera.t) (n : string) (s : t) :
  0 <= ident s ->
  Camera.name this = Some n ->
  (forall st key, writeAnimation (Camera.super this) st key = Ok st) ->
  exists s',
    Camera.writeMdl this s = Ok s'
    /\ rest (with_index s' (after_name s "Camera"))
       = String quote (n ++ String quote (" " ++ String "{" (
         (String newline (repeat_tab (S (Z.to_nat (ident s))))) ++ "Position" ++ String " " (
         "{ " ++ join ", " (toString <$> Camera.position this) ++ " }" ++ (
         (String "," (String newline (repeat_tab (S (Z.to_nat (ident s))))))
           ++ "FieldOfView" ++ String " " (
         EmptyString ++ toString (Camera.fieldOfView this) ++ String "," (
         (String newline (repeat_tab (S (Z.to_nat (ident s))))) ++ "FarClip" ++ String " " (
         EmptyString ++ toString (Camera.farClippingPlane this) ++ String "," (
         (String newline (repeat_tab (S (Z.to_nat (ident s))))) ++ "NearClip" ++ String " " (
         EmptyString ++ toString (Camera.nearClippingPlane this) ++ String "," (
         (String newline (repeat_tab (S (Z.to_nat (ident s))))) ++ "Target" ++ String " " (
         EmptyString ++ String "{" (
         (String newline (repeat_tab (S (S (Z.to_nat (ident s)))))) ++ "Position"
           ++ String " " (
         "{ " ++ join ", " (toString <$> Camera.targetPosition this) ++ " }" ++ (
         (String "," (String newline (repeat_tab (S (Z.to_nat (ident s)))))) ++ String "}" (
         (String newline (repeat_tab (Z.to_nat (ident s)))) ++ String "}" (
         String newline EmptyString))))))))))))))))).
Proof.
  intros Hident Hname Hanim.
  unfold Camera.writeMdl, startObjectBlock, startBlock, endBlock, writeArrayAttrib,
    writeAttrib.
  rewrite Hname. cbn [text].
  repeat (first [rewrite writeLine_ok by (cbn; lia) | rewrite Hanim];
          cbn [ident index buffer with_ident mbind Result_bind]).
  eexists. split; [reflexivity|].
  replace (Z.to_nat (ident s + 1 + 1 - 1 - 1)) with (Z.to_nat (ident s)) by lia.
  replace (Z.to_nat (ident s + 1 + 1 - 1)) with (S (Z.to_nat (ident s))) by lia.
  replace (Z.to_nat (ident s + 1 + 1)) with (S (S (Z.to_nat (ident s)))) by lia.
  replace (Z.to_nat (ident s + 1)) with (S (Z.to_nat (ident s))) by lia.
  set (k := Z.to_nat (ident s)).
  match goal with
  | |- _ = ?T =>
      rewrite <- (after_name_rest s "Camera" T (index s) (ident s + 1 + 1 - 1 - 1))
  end.
  fold k. do 3 f_equal.
  repeat (progress (rewrite ?append_assoc; cbn [JsString.append join repeat_tab])).
  reflexivity.
Qed.


Ltac separators :=
  cbn [JsString.append];
  repeat match goal with
         | |- all_separators (String _ _) = true =>
             apply (all_separators_append (String _ EmptyString)); [reflexivity|]
         end;
  first [apply all_separators_tabs | reflexivity].

(** One round of a block loop on the attribute that the text holds next. *)
Ltac camera_round s' Hs' :=
  match goal with
  | Hs : rest ?s = _ |- context [block_loop ?body (S ?fuel) ?a ?s] =>
      edestruct (block_loop_round body fuel a s) as (s' & Hs' & ->);
      [exact Hs|separators|reflexivity|reflexivity|]
  end;
  cbv beta iota delta [Camera.readMdl_body Camera.target_body token_is JsString.eqb
                       JsString.char_eqb Ascii.eqb Bool.eqb andb];
  cbn [Camera.position Camera.with_name Camera.super Camera.name Camera.fieldOfView
       Camera.farClippingPlane Camera.nearClippingPlane Camera.targetPosition].

(** X28. A camera with a name free of quotes and no animations, written
    by [writeMdl], is read back by [readMdl] from where reading the
    object's keyword leaves the stream: the name, both positions, the
    field of view and the clipping planes are those written, and the
    animations of the reader are kept.  Six rounds of the loop suffice.
    The text of every number is to be one token that parses back to
    it. *)
Theorem Camera_mdl_round_trip (this that : Camera.t) (n : string) (s : t)
  (fuel : nat) :
  0 <= ident s ->
  Camera.name this = Some n ->
  free_of quote n = true ->
  length (Camera.position that) = length (Camera.position this) ->
  length (Camera.targetPosition that) = length (Camera.targetPosition this) ->
  Forall (fun x => is_plain (toString x) = true
                   /\ fround (parseFloat (Some (toString x))) = x)
    (Camera.position this ++ Camera.targetPosition this) ->
  Forall (fun x => is_plain (toString x) = true
                   /\ parseFloat (Some (toString x)) = x)
    [Camera.fieldOfView this; Camera.farClippingPlane this;
     Camera.nearClippingPlane this] ->
  (forall st key, writeAnimation (Camera.super this) st key = Ok st) ->
  (6 <= fuel)%nat ->
  exists s' s'',
    Camera.writeMdl this s = Ok s'
    /\ Camera.readMdl fuel that (with_index s' (after_name s "Camera"))
       = Some (Ok (Camera.with_super this (Camera.super that), s'')).
Proof.
  intros Hident Hname Hfree Hlen1 Hlen2 Harrays Hscalars Hanim Hfuel.
  apply Forall_app in Harrays as (Hpos & Htarget).
  apply Forall_cons in Hscalars as ((Hfov1 & Hfov2) & Hscalars).
  apply Forall_cons in Hscalars as ((Hfar1 & Hfar2) & Hscalars).
  apply Forall_cons in Hscalars as ((Hnear1 & Hnear2) & _).
  destruct (Camera_writeMdl_text this n s Hident Hname Hanim) as (s' & Hwrite & Htext).
  exists s'.
  set (st := with_index s' (after_name s "Camera")) in *.
  destruct fuel as [|[|[|[|[|[|fuel]]]]]]; try lia.
  unfold Camera.readMdl.
  destruct (read_string st EmptyString n _ Htext eq_refl Hfree) as (s1 & -> & Hs1).
  unfold for_readBlock.
  destruct (read_a_brace s1 " " "{" _ Hs1 eq_refl eq_refl) as (s2 & -> & Hs2).
  clear Htext Hs1.
  camera_round s3 Hs3. clear Hs2.
  destruct (readFloatArray_text (Camera.position this) (Camera.position that) s3 _
              Hs3 Hlen1 Hpos) as (s4 & -> & Hs4).
  clear Hs3.
  camera_round s5 Hs5. clear Hs4. unfold readFloat.
  destruct (read_token s5 EmptyString _ "," _ Hs5 eq_refl Hfov1 eq_refl)
    as (s6 & -> & Hs6).
  rewrite Hfov2. clear Hs5.
  camera_round s7 Hs7. clear Hs6. unfold readFloat.
  destruct (read_token s7 EmptyString _ "," _ Hs7 eq_refl Hfar1 eq_refl)
    as (s8 & -> & Hs8).
  rewrite Hfar2. clear Hs7.
  camera_round s9 Hs9. clear Hs8. unfold readFloat.
  destruct (read_token s9 EmptyString _ "," _ Hs9 eq_refl Hnear1 eq_refl)
    as (s10 & -> & Hs10).
  rewrite Hnear2. clear Hs9.
  camera_round s11 Hs11. clear Hs10. unfold for_readBlock.
  destruct (read_a_brace s11 EmptyString "{" _ Hs11 eq_refl eq_refl)
    as (s12 & -> & Hs12).
  clear Hs11.
  camera_round s13 Hs13. clear Hs12.
  destruct (readFloatArray_text (Camera.targetPosition this)
              (Camera.targetPosition that) s13 _ Hs13 Hlen2 Htarget)
    as (s14 & -> & Hs14).
  clear Hs13.
  match goal with
  | |- context [block_loop ?body (S ?f) ?a s14] =>
      destruct (block_loop_closing body f a s14 _ _ Hs14) as (s15 & Hs15 & ->);
      [separators|]
  end.
  clear Hs14.
  match goal with
  | |- context [block_loop ?body (S ?f) ?a s15] =>
      destruct (block_loop_closing body f a s15 _ _ Hs15) as (s16 & Hs16 & ->);
      [separators|]
  end.
  exists s16. split; [exact Hwrite|].
  unfold Camera.with_super. rewrite Hname. reflexivity.
Qed.

End CameraText.

Lemma Camera_mdl_round_trip_witness :
  exists s' s'',
    Camera.writeMdl (AnimatedObjectMdl0 := Instances.nothing_animated)
      Examples.camera1 (TokenStream.new None) = Ok s'
    /\ Camera.readMdl (AnimatedObject0 := Instances.stateless) 6 Examples.camera0
         (TokenStream.with_index s'
            (TokenStream.after_name (TokenStream.new None) "Camera"))
       = Some (Ok (Camera.with_super Examples.camera1 tt, s'')).
Proof.
  apply (Camera_mdl_round_trip (H := Instances.integers)
           (AnimatedObject0 := Instances.stateless)
           (AnimatedObjectMdl0 := Instances.nothing_animated)
           Examples.camera1 Examples.camera0 "Cam" (TokenStream.new None) 6).
  - cbn. lia.
  - reflexivity.
  - reflexivity.
  - reflexivity.
  - reflexivity.
  - repeat constructor.
  - repeat constructor.
  - reflexivity.
  - lia.
Defined.
